(** * warthog::memory::cpool -- a fixed-size object pool

    A shallow embedding of [include/warthog/memory/cpool.h] and the
    properties its specification states about it, with the inline function
    of [include/warthog/util/helpers.h].

    Platform model (LP64): [size_t] and pointers are 64-bit, [unsigned] and
    [int] are 32-bit.  Integers and addresses are values of [Z]; every
    conversion the source performs is written out ([to_size_t],
    [to_unsigned], [to_int], [ptr_add]).  The null pointer is address [0].

    Behaviour the C++ standard leaves undefined (array access out of bounds,
    division by zero, reading an uninitialised pointer), a failed [assert],
    a failed [new] and a loop that never ends are explicit [fault]s: an
    operation returns [Err f] and the run stops there.  Text written to
    [std::cerr] is the log carried by [Ok]. *)

From Stdlib Require Import ZArith Lia.
From stdpp Require Import base list sets.

Local Open Scope Z_scope.

(** ** Machine integers *)

Definition to_size_t (z : Z) : Z := z mod 2 ^ 64.
Definition to_unsigned (z : Z) : Z := z mod 2 ^ 32.
Definition to_int (z : Z) : Z :=
  let u := z mod 2 ^ 32 in if u <? 2 ^ 31 then u else u - 2 ^ 32.

(** [p + n] on a [char*]. *)
Definition ptr_add (p n : Z) : Z := (p + n) mod 2 ^ 64.

(** [const uint32_t DEFAULT_CHUNK_SIZE = 1024 * 1024] *)
Definition DEFAULT_CHUNK_SIZE : Z := 1024 * 1024.

(** ** Outcomes of an operation *)

(** NDEBUG undefined ([Debug]) or defined ([Release]). *)
Inductive build := Debug | Release.

Inductive fault :=
| AssertionFailed   (* assert(...) is false in a debug build *)
| OutOfBounds       (* array element outside the allocated array *)
| DivisionByZero    (* % or / by zero *)
| BadAlloc          (* operator new throws *)
| Uninitialised     (* an array element is read before it is written *)
| Diverges.         (* a loop whose 32-bit counter wraps below its bound *)

(** The three messages the file writes to [std::cerr]. *)
Inductive diag :=
| PoolSizeCorrected   (* "cchunk object size < pool size; setting pool size to object size" *)
| FreeOutsideChunk    (* "err; cchunk; freeing memory outside range of the chunk at addr: " *)
| FreeNotInAnyChunk.  (* "err; cpool::free tried to free an address not in any chunk!" *)

Inductive result (A : Type) :=
| Ok (a : A) (log : list diag)
| Err (f : fault).
Arguments Ok {A} a log.
Arguments Err {A} f.

Definition bind {A B} (m : result A) (k : A → result B) : result B :=
  match m with
  | Ok a l => match k a with Ok b l' => Ok b (l ++ l') | Err f => Err f end
  | Err f => Err f
  end.

Notation "'let*' x ':=' m 'in' k" := (bind m (λ x, k))
  (at level 10, x pattern, m at level 100, k at level 200).

Definition value {A} (m : result A) : option A :=
  match m with Ok a _ => Some a | Err _ => None end.

(** [new T[n]]: the array has [n] elements holding [init] (an indeterminate
    value for the types used here); the new-expression throws
    [bad_array_new_length], a [bad_alloc], when the byte size [sizeof(T) * n]
    exceeds [PTRDIFF_MAX = 2^63 - 1]. *)
Definition new_array {A} (sizeof n : Z) (init : A) : result (list A) :=
  if sizeof * n <? 2 ^ 63 then Ok (replicate (Z.to_nat n) init) [] else Err BadAlloc.

(** ** Callers

  A caller is a sequence of calls.  [run] executes it and keeps the list of
  live addresses: those returned by [allocate] (null apart) and neither
  deallocated nor invalidated by [reclaim] since.  A caller respects
  ownership when it deallocates live addresses only; [run] stops with
  [Misused] at the first call that does not, and with [Failed] when the
  code faults. *)

Inductive call := Allocate | Deallocate (addr : Z) | Reclaim.

Inductive run_result (S : Type) :=
| Reached (s : S) (live : list Z)
| Misused
| Failed (f : fault).
Arguments Reached {S} s live.
Arguments Misused {S}.
Arguments Failed {S} f.

Section Run.
Context {S : Type}.
Variable allocate : S → result (Z * S).
Variable deallocate : Z → S → result S.
Variable reclaim : S → result S.

Definition step (cl : call) (s : S) (live : list Z) : run_result S :=
  match cl with
  | Allocate =>
      match allocate s with
      | Ok (a, s') _ => Reached s' (if a =? 0 then live else a :: live)
      | Err f => Failed f
      end
  | Deallocate a =>
      if decide (a ∈ live) then
        match deallocate a s with
        | Ok s' _ => Reached s' (filter (λ x, x ≠ a) live)
        | Err f => Failed f
        end
      else Misused
  | Reclaim =>
      match reclaim s with
      | Ok s' _ => Reached s' []
      | Err f => Failed f
      end
  end.

Fixpoint run (cs : list call) (s : S) (live : list Z) : run_result S :=
  match cs with
  | [] => Reached s live
  | cl :: cs' =>
      match step cl s live with
      | Reached s' live' => run cs' s' live'
      | r => r
      end
  end.
End Run.

(** ** cchunk: one arena *)

Module cchunk.

Record t := mk {
  mem_ : Z;                 (* char* mem_ *)
  next_ : Z;                (* char* next_ *)
  max_ : Z;                 (* char* max_ *)
  obj_size_ : Z;            (* size_t obj_size_ *)
  pool_size_ : Z;           (* size_t pool_size_ *)
  freed_stack_ : list Z;    (* size_t* freed_stack_, with its allocated length *)
  stack_size_ : Z           (* size_t stack_size_ *)
}.

(** [cchunk(size_t obj_size, size_t pool_size)].  [mem] is what
    [new char[pool_size_]] returns, [None] when it throws. *)
Definition cchunk (mem : option Z) (obj_size pool_size : Z) : result t :=
  if obj_size =? 0 then Err DivisionByZero else
  let rounded := to_size_t (pool_size - pool_size mod obj_size) in
  let* ps := (if rounded <? obj_size
              then Ok obj_size [PoolSizeCorrected] else Ok rounded []) in
  match mem with
  | None => Err BadAlloc
  | Some m =>
      let* stack := new_array 8 (ps / obj_size) 0 in
      Ok {| mem_ := m; next_ := m; max_ := ptr_add m ps;
            obj_size_ := obj_size; pool_size_ := ps;
            freed_stack_ := stack; stack_size_ := 0 |} []
  end.

Definition reclaim (c : t) : t :=
  {| mem_ := mem_ c; next_ := mem_ c; max_ := max_ c;
     obj_size_ := obj_size_ c; pool_size_ := pool_size_ c;
     freed_stack_ := freed_stack_ c; stack_size_ := 0 |}.

Definition set_next (c : t) (p : Z) : t :=
  {| mem_ := mem_ c; next_ := p; max_ := max_ c;
     obj_size_ := obj_size_ c; pool_size_ := pool_size_ c;
     freed_stack_ := freed_stack_ c; stack_size_ := stack_size_ c |}.

Definition set_stack (c : t) (stack : list Z) (size : Z) : t :=
  {| mem_ := mem_ c; next_ := next_ c; max_ := max_ c;
     obj_size_ := obj_size_ c; pool_size_ := pool_size_ c;
     freed_stack_ := stack; stack_size_ := size |}.

(** [char* allocate()]: the returned pointer ([0] is null) and the arena
    afterwards. *)
Definition allocate (c : t) : result (Z * t) :=
  if next_ c <? max_ c then
    Ok (next_ c, set_next c (ptr_add (next_ c) (obj_size_ c))) []
  else if 0 <? stack_size_ c then
    let top := to_size_t (stack_size_ c - 1) in
    match freed_stack_ c !! Z.to_nat top with
    | Some off => Ok (ptr_add (mem_ c) off, set_stack c (freed_stack_ c) top) []
    | None => Err OutOfBounds
    end
  else Ok (0, c) [].

(** The [#ifndef NDEBUG] block of [deallocate]. *)
Definition deallocate_check (b : build) (addr : Z) (c : t) : result unit :=
  match b with
  | Release => Ok tt []
  | Debug =>
      if mem_ c >=? addr then
        if to_size_t (addr - mem_ c) >=? pool_size_ c
        then Ok tt [FreeOutsideChunk] else Ok tt []
      else Err AssertionFailed
  end.

(** [void deallocate(char* addr)] *)
Definition deallocate (b : build) (addr : Z) (c : t) : result t :=
  let* _ := deallocate_check b addr c in
  let i := Z.to_nat (stack_size_ c) in
  if decide (i < length (freed_stack_ c))%nat then
    Ok (set_stack c (<[i := to_size_t (addr - mem_ c)]> (freed_stack_ c))
                  (to_size_t (stack_size_ c + 1))) []
  else Err OutOfBounds.

(** [bool contains(char* addr)] *)
Definition contains (b : build) (addr : Z) (c : t) : result bool :=
  let* _ := (match b with
             | Release => Ok tt []
             | Debug => if mem_ c >=? addr then Ok tt [] else Err AssertionFailed
             end) in
  Ok (to_unsigned (addr - mem_ c) <? pool_size_ c) [].

Definition first_addr (c : t) : Z := mem_ c.
Definition pool_size (c : t) : Z := pool_size_ c.

(** [sizeof(cchunk)]: three [char*], two [size_t], one [size_t*] and one
    [size_t], eight bytes each. *)
Definition sizeof_cchunk : Z := 56.

(** [size_t mem()] *)
Definition mem (c : t) : result Z :=
  let bytes := sizeof_cchunk in
  let bytes := to_size_t (bytes + to_size_t (1 * pool_size_ c)) in
  if obj_size_ c =? 0 then Err DivisionByZero else
  Ok (to_size_t (bytes + to_size_t (4 * (pool_size_ c / obj_size_ c)))) [].

(** The pieces [print] writes, for an arena and for a pool: the literal
    labels, numbers and line ends. *)
Inductive token :=
| PoolSizeLabel      (* "cchunk pool_size: " *)
| ObjSizeLabel       (* " obj_size: " *)
| StackSizeLabel     (* " freed_stack_ size: " *)
| PoolHeader         (* "cpool #chunks: " *)
| MaxChunksLabel     (* " #max_chunks " *)
| Number (n : Z)     (* a [size_t] written in decimal *)
| Endl.              (* std::endl *)

(** [void print(std::ostream& out)]: the tokens appended to [out]. *)
Definition print (c : t) : list token :=
  [PoolSizeLabel; Number (pool_size_ c); ObjSizeLabel; Number (obj_size_ c);
   StackSizeLabel; Number (stack_size_ c)].

(** *** Specification-level view of an arena *)

Definition nslots (c : t) : nat := length (freed_stack_ c).

(** Address of slot [j]. *)
Definition slot (c : t) (j : nat) : Z := mem_ c + Z.of_nat j * obj_size_ c.

(** Number of slots the bump cursor has passed. *)
Definition bumped (c : t) : nat := Z.to_nat ((next_ c - mem_ c) / obj_size_ c).

Definition all_slots (c : t) : list Z := slot c <$> seq 0 (nslots c).

Definition unbumped (c : t) : list Z := slot c <$> seq (bumped c) (nslots c - bumped c).

(** The addresses on the freed stack, bottom first. *)
Definition stack_addrs (c : t) : list Z :=
  ptr_add (mem_ c) <$> take (Z.to_nat (stack_size_ c)) (freed_stack_ c).

(** Every address a later [allocate] of this arena can return. *)
Definition avail (c : t) : list Z := unbumped c ++ stack_addrs c.

(** The representation invariant of an arena. *)
Record wf (c : t) : Prop := {
  wf_obj : 0 < obj_size_ c;
  wf_mem : 0 < mem_ c;
  wf_max : max_ c = mem_ c + pool_size_ c;
  wf_top : max_ c < 2 ^ 64;
  wf_pool : pool_size_ c = Z.of_nat (nslots c) * obj_size_ c;
  wf_one : (0 < nslots c)%nat;
  wf_next : ∃ k : nat, (k ≤ nslots c)%nat ∧ next_ c = mem_ c + Z.of_nat k * obj_size_ c;
  wf_stack : 0 ≤ stack_size_ c ≤ Z.of_nat (nslots c)
}.

(** Two arenas at the same place with the same geometry. *)
Definition same_buffer (c c' : t) : Prop :=
  mem_ c' = mem_ c ∧ max_ c' = max_ c ∧ obj_size_ c' = obj_size_ c ∧
  pool_size_ c' = pool_size_ c ∧ nslots c' = nslots c.

(** The calls of a caller, on one arena. *)
Definition arena_run (b : build) : list call → t → list Z → run_result t :=
  run allocate (deallocate b) (λ c, Ok (reclaim c) []).

(** Every slot of the arena is either available or live, and exactly once. *)
Definition inv (c0 c : t) (live : list Z) : Prop :=
  wf c ∧ same_buffer c0 c ∧ avail c ++ live ≡ₚ all_slots c.

(** The arena [cchunk(S, B)] as constructed in a buffer the allocator
    placed at [m]: inside the address space and away from null. *)
Definition constructed (m S B : Z) (c : t) : Prop :=
  ∃ log, cchunk (Some m) S B = Ok c log ∧
         0 ≤ S < 2 ^ 64 ∧ 0 ≤ B < 2 ^ 64 ∧ 0 < m ∧ m + pool_size_ c < 2 ^ 64.

(** The bump cursor as an offset into the buffer. *)
Definition bump_cursor (c : t) : Z := next_ c - mem_ c.

(** A caller that frees [X], then [Y], and allocates twice: the two
    addresses it gets. *)
Definition free2_alloc2 (b : build) (X Y : Z) (c : t) : result (Z * Z) :=
  let* c1 := deallocate b X c in
  let* c2 := deallocate b Y c1 in
  let* (a1, c3) := allocate c2 in
  let* (a2, _) := allocate c3 in
  Ok (a1, a2) [].

(** Neither bump space nor a freed offset is left. *)
Definition exhausted (c : t) : Prop := max_ c ≤ next_ c ∧ stack_size_ c = 0.

#[global] Instance exhausted_dec (c : t) : Decision (exhausted c).
Proof. unfold exhausted. apply _. Defined.

(** The addresses the [allocate] calls of a caller return, in order, up to
    the first fault. *)
Fixpoint returns (b : build) (cs : list call) (c : t) : list Z :=
  match cs with
  | [] => []
  | Allocate :: cs' =>
      match allocate c with
      | Ok (a, c') _ => a :: returns b cs' c'
      | Err _ => []
      end
  | Deallocate a :: cs' =>
      match deallocate b a c with
      | Ok c' _ => returns b cs' c'
      | Err _ => []
      end
  | Reclaim :: cs' => returns b cs' (reclaim c)
  end.

(** Two arenas that differ at most in the part of the stack array above
    the stack pointer. *)
Definition same_upto_stack (c1 c2 : t) : Prop :=
  mem_ c1 = mem_ c2 ∧ next_ c1 = next_ c2 ∧ max_ c1 = max_ c2 ∧
  obj_size_ c1 = obj_size_ c2 ∧ pool_size_ c1 = pool_size_ c2 ∧
  stack_size_ c1 = stack_size_ c2 ∧ 0 ≤ stack_size_ c1 ∧
  length (freed_stack_ c1) = length (freed_stack_ c2) ∧
  take (Z.to_nat (stack_size_ c1)) (freed_stack_ c1)
    = take (Z.to_nat (stack_size_ c2)) (freed_stack_ c2).

(** The arena [cchunk(16, 64)] with its buffer at address 4096. *)
Definition arena_16_64 : t :=
  {| mem_ := 4096; next_ := 4096; max_ := 4160; obj_size_ := 16; pool_size_ := 64;
     freed_stack_ := [0; 0; 0; 0]; stack_size_ := 0 |}.

(** The same arena after four calls of [allocate]. *)
Definition arena_16_64_full : t := set_next arena_16_64 4160.

(** The full arena after [deallocate(4112)]: the offset 16 is on the stack. *)
Definition arena_16_64_freed : t :=
  {| mem_ := 4096; next_ := 4160; max_ := 4160; obj_size_ := 16; pool_size_ := 64;
     freed_stack_ := [16; 0; 0; 0]; stack_size_ := 1 |}.

(** The arena [cchunk(16, 8)] at 4096, whose budget is below one slot. *)
Definition arena_16_8 : t :=
  {| mem_ := 4096; next_ := 4096; max_ := 4112; obj_size_ := 16; pool_size_ := 16;
     freed_stack_ := [0]; stack_size_ := 0 |}.

End cchunk.

(** ** cpool: the pool manager *)

Module cpool.

(** [chunks_] is the array of [max_chunks_] pointers; an element is [None]
    until a chunk has been stored in it.  Every chunk object is referenced
    from exactly one element, so the pointer [current_chunk_] is the index
    [i] with [current_chunk_ == chunks_[i]]. *)
Record t := mk {
  chunks_ : list (option cchunk.t);   (* cchunk** chunks_ *)
  current_chunk_ : nat;               (* cchunk* current_chunk_ *)
  num_chunks_ : Z;                    (* size_t num_chunks_ *)
  max_chunks_ : Z;                    (* size_t max_chunks_ *)
  obj_size_ : Z;                      (* size_t obj_size_ *)
  CHUNK_SIZE_ : Z                     (* size_t CHUNK_SIZE_ *)
}.

Definition set_chunks (p : t) (chunks : list (option cchunk.t)) : t :=
  {| chunks_ := chunks; current_chunk_ := current_chunk_ p;
     num_chunks_ := num_chunks_ p; max_chunks_ := max_chunks_ p;
     obj_size_ := obj_size_ p; CHUNK_SIZE_ := CHUNK_SIZE_ p |}.

Definition set_current (p : t) (i : nat) : t :=
  {| chunks_ := chunks_ p; current_chunk_ := i;
     num_chunks_ := num_chunks_ p; max_chunks_ := max_chunks_ p;
     obj_size_ := obj_size_ p; CHUNK_SIZE_ := CHUNK_SIZE_ p |}.

(** [chunks_[i]] read as a pointer that is then dereferenced. *)
Definition get_chunk (p : t) (i : nat) : result cchunk.t :=
  match chunks_ p !! i with
  | Some (Some c) => Ok c []
  | Some None => Err Uninitialised
  | None => Err OutOfBounds
  end.

(** The chunk [chunks_[i]] points to is mutated in place. *)
Definition set_chunk (p : t) (i : nat) (c : cchunk.t) : t :=
  set_chunks p (<[i := Some c]> (chunks_ p)).

Section WithHeap.

(** The system allocator as this pool sees it: [heap k] is the address
    [new char[...]] returns for the buffer of the [k]-th chunk the pool
    creates, [None] when that allocation fails. *)
Variable heap : nat → option Z.

(** [chunks_[num_chunks_] = new cchunk(obj_size_, pool_size); num_chunks_++] *)
Definition store_new_chunk (p : t) (pool_size : Z) : result t :=
  let n := Z.to_nat (num_chunks_ p) in
  let* c := cchunk.cchunk (heap n) (obj_size_ p) pool_size in
  if decide (n < length (chunks_ p))%nat then
    Ok {| chunks_ := <[n := Some c]> (chunks_ p);
          current_chunk_ := current_chunk_ p;
          num_chunks_ := to_size_t (num_chunks_ p + 1);
          max_chunks_ := max_chunks_ p;
          obj_size_ := obj_size_ p; CHUNK_SIZE_ := CHUNK_SIZE_ p |} []
  else Err OutOfBounds.

(** [for(unsigned int i = 0; i < max_chunks_; i++) big_chunks[i] = chunks_[i];]
    [n] iterations starting at index [i]. *)
Fixpoint copy_chunks (n i : nat) (src dst : list (option cchunk.t))
  : result (list (option cchunk.t)) :=
  match n with
  | O => Ok dst []
  | S n' =>
      match src !! i with
      | None => Err OutOfBounds
      | Some x =>
          if decide (i < length dst)%nat
          then copy_chunks n' (S i) src (<[i := x]> dst)
          else Err OutOfBounds
      end
  end.

(** [void add_chunk(size_t pool_size)] *)
Definition add_chunk (p : t) (pool_size : Z) : result t :=
  if num_chunks_ p <? max_chunks_ p then store_new_chunk p pool_size
  else
    let big_max := to_size_t (max_chunks_ p * 2) in
    let* big_chunks := new_array 8 big_max None in
    let* big_chunks :=
      copy_chunks (Z.to_nat (Z.min (max_chunks_ p) (2 ^ 32))) 0 (chunks_ p) big_chunks in
    if 2 ^ 32 <=? max_chunks_ p then Err Diverges else
    store_new_chunk
      {| chunks_ := big_chunks; current_chunk_ := current_chunk_ p;
         num_chunks_ := num_chunks_ p; max_chunks_ := big_max;
         obj_size_ := obj_size_ p; CHUNK_SIZE_ := CHUNK_SIZE_ p |} pool_size.

(** [n] calls of [add_chunk(CHUNK_SIZE_)]. *)
Fixpoint add_chunks (n : nat) (p : t) : result t :=
  match n with
  | O => Ok p []
  | S n' => let* p' := add_chunk p (CHUNK_SIZE_ p) in add_chunks n' p'
  end.

(** [void init()] *)
Definition init (p : t) : result t :=
  let chunk_size := Z.max (obj_size_ p) DEFAULT_CHUNK_SIZE in
  let* chunks := new_array 8 (max_chunks_ p) None in
  let p1 := {| chunks_ := chunks; current_chunk_ := current_chunk_ p;
               num_chunks_ := num_chunks_ p; max_chunks_ := max_chunks_ p;
               obj_size_ := obj_size_ p; CHUNK_SIZE_ := chunk_size |} in
  let* p2 := add_chunks (Z.to_nat (to_int (max_chunks_ p))) p1 in
  let* _ := get_chunk p2 0 in
  Ok (set_current p2 0) [].

(** [cpool(size_t obj_size, size_t max_chunks)] *)
Definition cpool (obj_size max_chunks : Z) : result t :=
  init {| chunks_ := []; current_chunk_ := 0%nat; num_chunks_ := 0;
          max_chunks_ := max_chunks; obj_size_ := obj_size; CHUNK_SIZE_ := 0 |}.

(** [cpool(size_t obj_size)] *)
Definition cpool_default (obj_size : Z) : result t := cpool obj_size 20.

(** [chunks_[i]->allocate()] *)
Definition allocate_at (p : t) (i : nat) : result (Z * t) :=
  let* c := get_chunk p i in
  let* (ptr, c') := cchunk.allocate c in
  Ok (ptr, set_chunk p i c') [].

(** The search loop of [allocate], [n] iterations starting at index [i];
    a null pointer when the loop runs to its end. *)
Fixpoint allocate_scan (n i : nat) (p : t) : result (Z * t) :=
  match n with
  | O => Ok (0, p) []
  | S n' =>
      let* (ptr, p') := allocate_at p i in
      if ptr =? 0 then allocate_scan n' (S i) p'
      else Ok (ptr, set_current p' i) []
  end.

(** [char* allocate()] *)
Definition allocate (p : t) : result (Z * t) :=
  let* (mem_ptr, p1) := allocate_at p (current_chunk_ p) in
  if mem_ptr =? 0 then
    let* (mem_ptr, p2) :=
      allocate_scan (Z.to_nat (Z.min (num_chunks_ p1) (2 ^ 32))) 0 p1 in
    if mem_ptr =? 0 then
      if 2 ^ 32 <=? num_chunks_ p2 then Err Diverges else
      let* p3 := add_chunk p2 (CHUNK_SIZE_ p2) in
      let p4 := set_current p3 (Z.to_nat (to_size_t (num_chunks_ p3 - 1))) in
      allocate_at p4 (current_chunk_ p4)
    else Ok (mem_ptr, p2) []
  else Ok (mem_ptr, p1) [].

(** The loop of [deallocate]: [Some] pool when a chunk took the address. *)
Fixpoint deallocate_scan (b : build) (addr : Z) (n i : nat) (p : t)
  : result (option t) :=
  match n with
  | O => Ok None []
  | S n' =>
      let* c := get_chunk p i in
      if to_unsigned (addr - cchunk.first_addr c) <? cchunk.pool_size c then
        let* c' := cchunk.deallocate b addr c in
        Ok (Some (set_chunk p i c')) []
      else deallocate_scan b addr n' (S i) p
  end.

(** [void deallocate(char* addr)] *)
Definition deallocate (b : build) (addr : Z) (p : t) : result t :=
  let* r := deallocate_scan b addr (Z.to_nat (Z.min (num_chunks_ p) (2 ^ 32))) 0 p in
  match r with
  | Some p' => Ok p' []
  | None =>
      if 2 ^ 32 <=? num_chunks_ p then Err Diverges else
      Ok p (match b with Debug => [FreeNotInAnyChunk] | Release => [] end)
  end.

(** The loop of [reclaim], [n] iterations starting at index [i]. *)
Fixpoint reclaim_from (n i : nat) (p : t) : result t :=
  match n with
  | O => Ok p []
  | S n' =>
      let* c := get_chunk p i in
      reclaim_from n' (S i) (set_chunk p i (cchunk.reclaim c))
  end.

(** [void reclaim()] *)
Definition reclaim (p : t) : result t :=
  reclaim_from (Z.to_nat (num_chunks_ p)) 0 p.

End WithHeap.

(** [sizeof(cpool)]: two pointers and four [size_t]. *)
Definition sizeof_cpool : Z := 48.

(** The loop of [mem], [n] iterations starting at index [i]. *)
Fixpoint mem_scan (n i : nat) (p : t) (bytes : Z) : result Z :=
  match n with
  | O => Ok bytes []
  | S n' =>
      let* c := get_chunk p i in
      let* m := cchunk.mem c in
      mem_scan n' (S i) p (to_size_t (bytes + m))
  end.

(** [size_t mem()] *)
Definition mem (p : t) : result Z :=
  let* bytes := mem_scan (Z.to_nat (Z.min (num_chunks_ p) (2 ^ 32))) 0 p 0 in
  if 2 ^ 32 <=? num_chunks_ p then Err Diverges else
  let bytes := to_size_t (bytes + to_size_t (8 * max_chunks_ p)) in
  Ok (to_size_t (bytes + sizeof_cpool)) [].

(** The loop of [print], [n] iterations starting at index [i]. *)
Fixpoint print_scan (n i : nat) (p : t) : result (list cchunk.token) :=
  match n with
  | O => Ok [] []
  | S n' =>
      let* c := get_chunk p i in
      let* out := print_scan n' (S i) p in
      Ok (cchunk.print c ++ cchunk.Endl :: out) []
  end.

(** [void print(std::ostream& out)]: the tokens appended to [out]. *)
Definition print (p : t) : result (list cchunk.token) :=
  let header := [cchunk.PoolHeader; cchunk.Number (num_chunks_ p);
                 cchunk.MaxChunksLabel; cchunk.Number (max_chunks_ p);
                 cchunk.ObjSizeLabel; cchunk.Number (obj_size_ p); cchunk.Endl] in
  let* out := print_scan (Z.to_nat (Z.min (num_chunks_ p) (2 ^ 32))) 0 p in
  if 2 ^ 32 <=? num_chunks_ p then Err Diverges else
  Ok (header ++ out) [].

(** *** Specification-level view of a pool *)

(** The arenas of the pool, in insertion order. *)
Definition arenas (p : t) : list cchunk.t := omap id (chunks_ p).

(** The capacity of every arena the pool creates: the chunk budget
    [max(obj_size, DEFAULT_CHUNK_SIZE)] rounded down to whole slots. *)
Definition chunk_bytes (S : Z) : Z :=
  let budget := Z.max S DEFAULT_CHUNK_SIZE in budget - budget mod S.

(** What the system allocator guarantees of the buffers it hands out: each
    lies inside the address space, away from null, and no two overlap. *)
Record heap_ok (heap : nat → option Z) (S : Z) : Prop := {
  heap_range : ∀ k m, heap k = Some m → 0 < m ∧ m + chunk_bytes S < 2 ^ 64;
  heap_disjoint : ∀ i j mi mj, i ≠ j → heap i = Some mi → heap j = Some mj →
                  mi + chunk_bytes S ≤ mj ∨ mj + chunk_bytes S ≤ mi
}.

(** The representation invariant, but for [current_chunk_]. *)
Record core (heap : nat → option Z) (p : t) : Prop := {
  core_layout : chunks_ p = (Some <$> arenas p) ++
                  replicate (Z.to_nat (max_chunks_ p) - length (arenas p)) None;
  core_num : num_chunks_ p = Z.of_nat (length (arenas p));
  core_max : num_chunks_ p ≤ max_chunks_ p ∧ 8 * max_chunks_ p < 2 ^ 64;
  core_obj : 0 < obj_size_ p < 2 ^ 64;
  core_chunk_size : CHUNK_SIZE_ p = Z.max (obj_size_ p) DEFAULT_CHUNK_SIZE;
  core_arenas : ∀ i c, arenas p !! i = Some c →
                cchunk.wf c ∧ heap i = Some (cchunk.mem_ c) ∧
                cchunk.obj_size_ c = obj_size_ p ∧
                cchunk.pool_size_ c = chunk_bytes (obj_size_ p)
}.

(** Every address a later [allocate] can return without a new arena. *)
Definition pool_avail (p : t) : list Z := arenas p ≫= cchunk.avail.

(** Every slot of every arena. *)
Definition pool_slots (p : t) : list Z := arenas p ≫= cchunk.all_slots.

(** No slot is both available and live, or available twice. *)
Definition inv_core (heap : nat → option Z) (p : t) (live : list Z) : Prop :=
  core heap p ∧ NoDup (pool_avail p ++ live) ∧
  ∀ a, a ∈ pool_avail p ++ live → a ∈ pool_slots p.

Definition pool_inv (heap : nat → option Z) (p : t) (live : list Z) : Prop :=
  inv_core heap p live ∧ (current_chunk_ p < length (arenas p))%nat.

(** What does not change when one arena is mutated in place. *)
Definition same_shape (p p' : t) : Prop :=
  current_chunk_ p' = current_chunk_ p ∧ num_chunks_ p' = num_chunks_ p ∧
  max_chunks_ p' = max_chunks_ p ∧ obj_size_ p' = obj_size_ p ∧
  CHUNK_SIZE_ p' = CHUNK_SIZE_ p ∧ length (arenas p') = length (arenas p) ∧
  pool_slots p' = pool_slots p.

(** The routing test of [cpool::deallocate]. *)
Definition claims (c : cchunk.t) (a : Z) : Prop :=
  to_unsigned (a - cchunk.first_addr c) < cchunk.pool_size c.

(** The pool [cpool(S, n)] as constructed over an allocator that keeps its
    guarantees. *)
Definition pool_constructed (heap : nat → option Z) (S n : Z) (p : t) : Prop :=
  ∃ log, cpool heap S n = Ok p log ∧
         heap_ok heap S ∧ 0 < S < 2 ^ 64 ∧ 0 ≤ n < 2 ^ 64.

(** An allocator with room for four one-megabyte buffers, and the pool
    [cpool(2^19, 1)] over it: arenas of two slots, one arena to begin with. *)
Definition heap_4MiB (k : nat) : option Z :=
  if (k <? 4)%nat then Some (4096 + Z.of_nat k * 2 ^ 20) else None.

Definition empty_pool : t := mk [] 0 0 0 0 0.

(** An allocator with room for thirty-two one-megabyte buffers. *)
Definition heap_32MiB (k : nat) : option Z :=
  if (k <? 32)%nat then Some (4096 + Z.of_nat k * 2 ^ 20) else None.

Definition pool_2slots : t :=
  Eval vm_compute in
    match cpool heap_4MiB (2 ^ 19) 1 with Ok p _ => p | Err _ => empty_pool end.

(** All buffers lie in one window of 2^32 bytes, so that the 32-bit offset
    test of [deallocate] tells the arenas apart. *)
Definition heap_window (heap : nat → option Z) (S : Z) : Prop :=
  ∃ base, ∀ k m, heap k = Some m → base ≤ m ∧ m + chunk_bytes S ≤ base + 2 ^ 32.

(** Every offset on an arena's freed stack denotes a slot of that arena. *)
Definition own_stacks (p : t) : Prop :=
  ∀ i c a, arenas p !! i = Some c → a ∈ cchunk.stack_addrs c → a ∈ cchunk.all_slots c.

Definition safe_inv (heap : nat → option Z) (p : t) (live : list Z) : Prop :=
  pool_inv heap p live ∧ own_stacks p.

(** The faults that are the system's, not the pool's: the allocator has no
    more memory, or there are 2^32 arenas. *)
Definition system_fault (f : fault) : Prop := f = BadAlloc ∨ f = Diverges.

(** An allocator that places two one-megabyte buffers exactly 2^32 bytes
    apart, and the pool [cpool(2^20, 1)] over it: arenas of one slot. *)
Definition heap_2pow32_apart (k : nat) : option Z :=
  if (k <? 2)%nat then Some (4096 + Z.of_nat k * 2 ^ 32) else None.

Definition pool_1slot : t :=
  Eval vm_compute in
    match cpool heap_2pow32_apart (2 ^ 20) 1 with Ok p _ => p | Err _ => empty_pool end.

(** An allocator whose first buffer lies at 4096 + 2^32, and the pool
    [cpool(2^19, 1)] over it. *)
Definition heap_above_4GiB (k : nat) : option Z :=
  if (k <? 4)%nat then Some (4096 + 2 ^ 32 + Z.of_nat k * 2 ^ 20) else None.

Definition pool_above_4GiB : t :=
  Eval vm_compute in
    match cpool heap_above_4GiB (2 ^ 19) 1 with Ok p _ => p | Err _ => empty_pool end.

(** The calls of a caller, on a pool. *)
Definition pool_run (heap : nat → option Z) (b : build)
  : list call → t → list Z → run_result t :=
  run (allocate heap) (deallocate b) reclaim.

(** The state and live list a run reaches; the empty pool when it does not
    complete. *)
Definition reached (r : run_result t) : t * list Z :=
  match r with Reached p live => (p, live) | _ => (empty_pool, []) end.

(** [pool_2slots] after three allocations (the third creates a second
    arena) and the release of the second address. *)
Definition pool_2slots_used : t * list Z :=
  Eval vm_compute in
    reached (pool_run heap_4MiB Release
               [Allocate; Allocate; Allocate; Deallocate (4096 + 2 ^ 19)] pool_2slots []).

(** [pool_1slot] after both slots have been allocated (the second creates
    the second arena) and the first address has been freed. *)
Definition pool_1slot_freed : t :=
  Eval vm_compute in
    (reached (pool_run heap_2pow32_apart Release
                [Allocate; Allocate; Deallocate 4096] pool_1slot [])).1.

(** [pool_2slots] with both slots of its arena live, and after the next
    allocation. *)
Definition pool_2slots_full : t * list Z :=
  Eval vm_compute in
    reached (pool_run heap_4MiB Release [Allocate; Allocate] pool_2slots []).

Definition pool_2slots_grown : t :=
  Eval vm_compute in
    match allocate heap_4MiB pool_2slots_full.1 with
    | Ok (_, p) _ => p
    | Err _ => empty_pool
    end.

(** [pool_2slots] in a debug build after its first slot has been allocated
    and freed, and after the same address has been freed a second time. *)
Definition pool_2slots_freed : t :=
  Eval vm_compute in
    (reached (pool_run heap_4MiB Debug [Allocate; Deallocate 4096] pool_2slots [])).1.

Definition pool_2slots_freed_twice : t :=
  Eval vm_compute in
    match deallocate Debug 4096 pool_2slots_freed with
    | Ok p _ => p
    | Err _ => empty_pool
    end.

End cpool.

(** ** helpers: grid indices *)

Module helpers.

(** [void index_to_xy(uint32_t grid_id, uint32_t mapwidth, int32_t& x, int32_t& y)]:
    the values stored in [x] and [y].  The arguments are [uint32_t] values,
    so [/] and [%] are the unsigned operations; each result is converted to
    [int32_t]. *)
Definition index_to_xy (grid_id mapwidth : Z) : result (Z * Z) :=
  if mapwidth =? 0 then Err DivisionByZero else
  let y := to_int (grid_id / mapwidth) in
  let x := to_int (grid_id mod mapwidth) in
  Ok (x, y) [].

(** A [uint32_t] value. *)
Definition uint32 (z : Z) : Prop := 0 ≤ z < 2 ^ 32.

End helpers.

(** * Properties *)

(** ** The outcome monad and the integer conversions *)

Lemma bind_Ok {A B} (m : result A) (k : A → result B) b l :
  bind m k = Ok b l →
  ∃ a l1 l2, m = Ok a l1 ∧ k a = Ok b l2 ∧ l = l1 ++ l2.
Proof.
  destruct m as [a l1|f]; simpl; [|discriminate].
  destruct (k a) as [b' l2|f] eqn:Hk; [|discriminate].
  intros [= <- <-]. by exists a, l1, l2.
Qed.

Lemma to_size_t_small z : 0 ≤ z < 2 ^ 64 → to_size_t z = z.
Proof. intros. unfold to_size_t. by apply Z.mod_small. Qed.

Lemma to_unsigned_small z : 0 ≤ z < 2 ^ 32 → to_unsigned z = z.
Proof. intros. unfold to_unsigned. by apply Z.mod_small. Qed.

Lemma ptr_add_small p n : 0 ≤ p + n < 2 ^ 64 → ptr_add p n = p + n.
Proof. intros. unfold ptr_add. by apply Z.mod_small. Qed.

(** An address pushed as an offset from any base comes back unchanged. *)
Lemma ptr_add_offset m a : 0 ≤ a < 2 ^ 64 → ptr_add m (to_size_t (a - m)) = a.
Proof.
  intros. unfold ptr_add, to_size_t.
  rewrite Zplus_mod_idemp_r. replace (m + (a - m)) with a by lia.
  by apply Z.mod_small.
Qed.

Lemma new_array_Ok {A} sz n (x : A) l log :
  new_array sz n x = Ok l log → l = replicate (Z.to_nat n) x ∧ log = [] ∧ sz * n < 2 ^ 63.
Proof.
  unfold new_array. destruct (Z.ltb_spec (sz * n) (2 ^ 63)); [|discriminate].
  by intros [= <- <-].
Qed.

Lemma filter_all {A} (P : A → Prop) `{∀ x, Decision (P x)} (l : list A) :
  Forall P l → filter P l = l.
Proof.
  induction 1 as [|x l Hx _ IH]; [done|]. rewrite filter_cons_True by done. by f_equal.
Qed.

(** Deallocating a live address removes exactly that address from the live
    list. *)
Lemma live_remove (live : list Z) a :
  NoDup live → a ∈ live → live ≡ₚ a :: filter (λ x, x ≠ a) live.
Proof.
  induction live as [|x l IH]; intros Hnd Hin.
  - by apply not_elem_of_nil in Hin.
  - apply NoDup_cons in Hnd as [Hx Hnd]. destruct (decide (x = a)) as [->|Hne].
    + rewrite filter_cons_False by (intros Hf; by apply Hf).
      rewrite filter_all; [done|]. apply Forall_forall. intros y Hy ->. done.
    + rewrite filter_cons_True by done.
      apply elem_of_cons in Hin as [->|Hin]; [done|].
      rewrite (IH Hnd Hin) at 1. apply Permutation_swap.
Qed.

(** A run whose every step keeps an invariant, and faults only in allowed
    ways, faults only in allowed ways. *)
Lemma run_safe {S} (alloc : S → result (Z * S)) dealloc recl
    (I : S → list Z → Prop) (ok : fault → Prop) :
  (∀ cl s live, I s live →
     match step alloc dealloc recl cl s live with
     | Reached s' live' => I s' live'
     | Misused => True
     | Failed f => ok f
     end) →
  ∀ cs s live, I s live →
    match run alloc dealloc recl cs s live with
    | Failed f => ok f
    | _ => True
    end.
Proof.
  intros Hstep. induction cs as [|cl cs IH]; intros s live HI; simpl; [done|].
  pose proof (Hstep cl s live HI) as Hs.
  destruct (step alloc dealloc recl cl s live) as [s1 live1| |]; [|done..].
  by apply IH.
Qed.

(** An invariant of every step is an invariant of every run. *)
Lemma run_invariant {S} (alloc : S → result (Z * S)) dealloc recl (I : S → list Z → Prop) :
  (∀ cl s live s' live', I s live → step alloc dealloc recl cl s live = Reached s' live' →
                         I s' live') →
  ∀ cs s live s' live', I s live → run alloc dealloc recl cs s live = Reached s' live' →
                        I s' live'.
Proof.
  intros Hstep. induction cs as [|cl cs IH]; intros s live s' live' HI Hrun; simpl in Hrun.
  - by injection Hrun as <- <-.
  - destruct (step alloc dealloc recl cl s live) as [s1 live1| |] eqn:Hs; try discriminate.
    eapply IH; [|done]. by eapply Hstep.
Qed.

Module cchunk_facts.
Import cchunk.

Lemma same_buffer_refl c : same_buffer c c.
Proof. by repeat split. Qed.

Lemma same_buffer_all_slots c c' : same_buffer c c' → all_slots c' = all_slots c.
Proof.
  intros (Hm & _ & Ho & _ & Hn). unfold all_slots, slot. by rewrite Hm, Ho, Hn.
Qed.

Lemma wf_bumped c k :
  wf c → next_ c = mem_ c + Z.of_nat k * obj_size_ c → bumped c = k.
Proof.
  intros Hwf Hk. unfold bumped. rewrite Hk.
  replace (mem_ c + Z.of_nat k * obj_size_ c - mem_ c) with (Z.of_nat k * obj_size_ c) by lia.
  rewrite Z.div_mul; [lia|]. pose proof (wf_obj c Hwf). lia.
Qed.

Lemma wf_nslots_bound c : wf c → Z.of_nat (nslots c) < 2 ^ 64.
Proof.
  intros Hwf. pose proof (wf_obj c Hwf). pose proof (wf_mem c Hwf).
  pose proof (wf_max c Hwf). pose proof (wf_top c Hwf). pose proof (wf_pool c Hwf).
  nia.
Qed.

Lemma slot_inj c : 0 < obj_size_ c → Inj (=) (=) (slot c).
Proof. intros Hs i j. unfold slot. nia. Qed.

Lemma NoDup_all_slots c : 0 < obj_size_ c → NoDup (all_slots c).
Proof.
  intros Hs. unfold all_slots. pose proof (slot_inj c Hs).
  apply NoDup_fmap_2; [done|]. apply NoDup_seq.
Qed.

Lemma slot_range c j : wf c → (j < nslots c)%nat → 0 < slot c j < 2 ^ 64.
Proof.
  intros Hwf Hj. pose proof (wf_obj c Hwf). pose proof (wf_mem c Hwf).
  pose proof (wf_max c Hwf). pose proof (wf_top c Hwf). pose proof (wf_pool c Hwf).
  unfold slot. nia.
Qed.

(** *** The constructor *)

Lemma to_size_t_sub_mod B S :
  0 < S → 0 ≤ B < 2 ^ 64 → to_size_t (B - B mod S) / S = B / S.
Proof.
  intros HS HB. pose proof (Z.div_mod B S ltac:(lia)) as Hdm.
  pose proof (Z.mod_pos_bound B S HS) as Hmod.
  assert (0 ≤ B / S) as Hq by (apply Z.div_pos; lia).
  rewrite to_size_t_small by nia.
  replace (B - B mod S) with (B / S * S) by lia. apply Z.div_mul. lia.
Qed.

Lemma cchunk_Ok m S B c log :
  0 ≤ S < 2 ^ 64 → 0 ≤ B < 2 ^ 64 →
  cchunk (Some m) S B = Ok c log →
  0 < S ∧ mem_ c = m ∧ next_ c = m ∧ max_ c = ptr_add m (pool_size_ c) ∧
  obj_size_ c = S ∧ stack_size_ c = 0 ∧
  Z.of_nat (nslots c) = Z.max 1 (B / S) ∧
  pool_size_ c = Z.max 1 (B / S) * S ∧
  log = (if B <? S then [PoolSizeCorrected] else []).
Proof.
  intros HS HB. unfold cchunk.
  destruct (Z.eqb_spec S 0) as [|HS0]; [discriminate|].
  assert (0 < S) as HSpos by lia.
  pose proof (Z.div_mod B S HS0) as Hdm.
  pose proof (Z.mod_pos_bound B S HSpos) as Hmod.
  assert (0 ≤ B / S) as Hq by (apply Z.div_pos; lia).
  rewrite (to_size_t_small (B - B mod S)) by lia.
  replace (B - B mod S) with (B / S * S) by lia.
  destruct (Z.ltb_spec (B / S * S) S) as [Hlt|Hge]; simpl.
  - assert (B / S = 0) as Hq0 by nia.
    rewrite Z_div_same by lia.
    unfold new_array. simpl. intros [= <- <-]. simpl.
    rewrite Hq0. unfold nslots. simpl.
    assert (B < S) as HBS by lia.
    destruct (Z.ltb_spec B S); [|lia]. repeat split; lia.
  - assert (1 ≤ B / S) as Hq1 by nia.
    rewrite Z.div_mul by lia.
    unfold new_array.
    destruct (Z.ltb_spec (8 * (B / S)) (2 ^ 63)); simpl; [|discriminate].
    intros [= <- <-]. simpl. unfold nslots. simpl. rewrite length_replicate.
    destruct (Z.ltb_spec B S); [nia|]. rewrite Z.max_r by lia. repeat split; lia.
Qed.

(** A constructed arena whose buffer the allocator placed inside the
    address space, away from null, satisfies the invariant, with every slot
    available. *)
Lemma cchunk_wf m S B c log :
  0 ≤ S < 2 ^ 64 → 0 ≤ B < 2 ^ 64 →
  cchunk (Some m) S B = Ok c log →
  0 < m → m + pool_size_ c < 2 ^ 64 →
  wf c ∧ avail c = all_slots c.
Proof.
  intros HS HB Hc Hm Htop.
  destruct (cchunk_Ok _ _ _ _ _ HS HB Hc)
    as (HSpos & Hmem & Hnext & Hmax & Hobj & Hstk & Hn & Hps & _).
  assert (wf c) as Hwf.
  { split; try lia.
    - rewrite Hmax, ptr_add_small; lia.
    - rewrite Hmax, ptr_add_small; lia.
    - exists 0%nat. lia. }
  split; [done|].
  unfold avail, unbumped, stack_addrs, all_slots.
  rewrite (wf_bumped c 0 Hwf) by lia.
  rewrite Hstk. simpl. rewrite Nat.sub_0_r. by rewrite app_nil_r.
Qed.

(** *** allocate *)

(** The three cases of [allocate], in the order the code tests them. *)
Lemma allocate_bump c :
  next_ c < max_ c →
  allocate c = Ok (next_ c, set_next c (ptr_add (next_ c) (obj_size_ c))) [].
Proof. intros H. unfold allocate. by destruct (Z.ltb_spec (next_ c) (max_ c)); [|lia]. Qed.

Lemma allocate_pop c off :
  max_ c ≤ next_ c → 0 < stack_size_ c →
  freed_stack_ c !! Z.to_nat (to_size_t (stack_size_ c - 1)) = Some off →
  allocate c = Ok (ptr_add (mem_ c) off,
                   set_stack c (freed_stack_ c) (to_size_t (stack_size_ c - 1))) [].
Proof.
  intros H1 H2 H3. unfold allocate.
  destruct (Z.ltb_spec (next_ c) (max_ c)); [lia|].
  destruct (Z.ltb_spec 0 (stack_size_ c)); [|lia]. by rewrite H3.
Qed.

Lemma allocate_exhausted c :
  max_ c ≤ next_ c → stack_size_ c ≤ 0 → allocate c = Ok (0, c) [].
Proof.
  intros H1 H2. unfold allocate.
  destruct (Z.ltb_spec (next_ c) (max_ c)); [lia|].
  by destruct (Z.ltb_spec 0 (stack_size_ c)); [lia|].
Qed.

Lemma wf_lookup_top c :
  wf c → 0 < stack_size_ c →
  to_size_t (stack_size_ c - 1) = stack_size_ c - 1 ∧
  ∃ off, freed_stack_ c !! Z.to_nat (stack_size_ c - 1) = Some off.
Proof.
  intros Hwf Hpos. pose proof (wf_stack c Hwf). pose proof (wf_nslots_bound c Hwf).
  split; [apply to_size_t_small; lia|].
  apply lookup_lt_is_Some. unfold nslots in *. lia.
Qed.

Lemma unbumped_cons c k :
  wf c → next_ c = mem_ c + Z.of_nat k * obj_size_ c → (k < nslots c)%nat →
  unbumped c = next_ c :: unbumped (set_next c (ptr_add (next_ c) (obj_size_ c))).
Proof.
  intros Hwf Hk Hlt.
  pose proof (wf_obj c Hwf). pose proof (wf_max c Hwf). pose proof (wf_top c Hwf).
  pose proof (wf_pool c Hwf). pose proof (wf_mem c Hwf).
  unfold unbumped. rewrite (wf_bumped c k Hwf Hk).
  assert (bumped (set_next c (ptr_add (next_ c) (obj_size_ c))) = S k) as ->.
  { unfold bumped. simpl. rewrite ptr_add_small by nia. rewrite Hk.
    replace (mem_ c + Z.of_nat k * obj_size_ c + obj_size_ c - mem_ c)
      with (Z.of_nat (S k) * obj_size_ c) by lia.
    rewrite Z.div_mul; lia. }
  replace (nslots c - k)%nat with (S (nslots c - S k)) by lia.
  simpl. f_equal. unfold slot. lia.
Qed.

(** What a successful [allocate] does to a well-formed arena: either it is
    exhausted, returns null and is unchanged, or it hands out one of its
    available addresses and keeps the others. *)
Lemma allocate_wf c a c' log :
  wf c → allocate c = Ok (a, c') log →
  log = [] ∧ wf c' ∧ same_buffer c c' ∧
  ((a = 0 ∧ c' = c ∧ exhausted c) ∨ avail c ≡ₚ a :: avail c').
Proof.
  intros Hwf Ha.
  pose proof (wf_obj c Hwf) as Hobj. pose proof (wf_max c Hwf) as Hmax.
  pose proof (wf_top c Hwf) as Htop. pose proof (wf_pool c Hwf) as Hpool.
  pose proof (wf_mem c Hwf) as Hmem. pose proof (wf_stack c Hwf) as Hstk.
  destruct (wf_next c Hwf) as (k & Hk & Hnext).
  destruct (Z.lt_ge_cases (next_ c) (max_ c)) as [Hlt|Hge].
  - rewrite allocate_bump in Ha by done. injection Ha as <- <- <-.
    assert (k < nslots c)%nat as Hk' by nia.
    split; [done|]. split; [|split; [by repeat split|]].
    + split; unfold nslots in *; simpl; try done; try lia.
      exists (S k). split; [lia|]. rewrite ptr_add_small by nia. lia.
    + right. unfold avail. rewrite (unbumped_cons c k) by done. done.
  - assert (k = nslots c) as -> by nia.
    assert (unbumped c = []) as Hunb.
    { unfold unbumped. rewrite (wf_bumped c _ Hwf Hnext).
      by rewrite Nat.sub_diag. }
    destruct (Z.lt_ge_cases 0 (stack_size_ c)) as [Hpos|Hzero].
    + destruct (wf_lookup_top c Hwf Hpos) as (Htop' & off & Hoff).
      rewrite (allocate_pop c off) in Ha by (rewrite ?Htop'; done).
      injection Ha as <- <- <-. rewrite Htop'.
      split; [done|]. split; [|split; [by repeat split|]].
      * split; unfold nslots in *; simpl; try done; try lia.
        by exists (length (freed_stack_ c)).
      * right. unfold avail. rewrite Hunb.
        assert (unbumped (set_stack c (freed_stack_ c) (stack_size_ c - 1)) = []) as ->.
        { unfold unbumped, bumped, nslots in *. simpl. apply Hunb. }
        simpl. unfold stack_addrs. simpl.
        replace (Z.to_nat (stack_size_ c)) with (S (Z.to_nat (stack_size_ c - 1))) by lia.
        rewrite (take_S_r _ _ _ Hoff), fmap_app. simpl.
        by rewrite Permutation_app_comm.
    + rewrite allocate_exhausted in Ha by done. injection Ha as <- <- <-.
      split; [done|]. split; [done|]. split; [apply same_buffer_refl|].
      left. split; [done|]. split; [done|]. split; lia.
Qed.

(** [allocate] never faults on a well-formed arena. *)
Lemma allocate_total c : wf c → ∃ a c', allocate c = Ok (a, c') [].
Proof.
  intros Hwf. destruct (Z.lt_ge_cases (next_ c) (max_ c)).
  - eexists _, _. by apply allocate_bump.
  - destruct (Z.lt_ge_cases 0 (stack_size_ c)) as [Hpos|].
    + destruct (wf_lookup_top c Hwf Hpos) as (Htop & off & Hoff).
      eexists _, _. apply (allocate_pop c off); rewrite ?Htop; done.
    + eexists _, _. by apply allocate_exhausted.
Qed.

(** *** deallocate *)

Lemma deallocate_Ok b a c c' log :
  deallocate b a c = Ok c' log →
  deallocate_check b a c = Ok tt log ∧
  (Z.to_nat (stack_size_ c) < nslots c)%nat ∧
  c' = set_stack c (<[Z.to_nat (stack_size_ c) := to_size_t (a - mem_ c)]> (freed_stack_ c))
                 (to_size_t (stack_size_ c + 1)).
Proof.
  unfold deallocate. intros H.
  apply bind_Ok in H as ([] & l1 & l2 & Hchk & H & ->).
  destruct (decide _) as [Hlt|]; [|discriminate].
  injection H as <- <-. by rewrite app_nil_r.
Qed.

Lemma deallocate_release a c :
  (Z.to_nat (stack_size_ c) < nslots c)%nat →
  deallocate Release a c =
    Ok (set_stack c (<[Z.to_nat (stack_size_ c) := to_size_t (a - mem_ c)]> (freed_stack_ c))
                  (to_size_t (stack_size_ c + 1))) [].
Proof. intros H. unfold deallocate. simpl. by destruct (decide _). Qed.

(** A successful [deallocate] makes exactly the given address available
    again, whatever arena it came from. *)
Lemma deallocate_wf b a c c' log :
  wf c → 0 ≤ a < 2 ^ 64 → deallocate b a c = Ok c' log →
  wf c' ∧ same_buffer c c' ∧ avail c' ≡ₚ a :: avail c.
Proof.
  intros Hwf Ha Hd. apply deallocate_Ok in Hd as (_ & Hlt & ->).
  pose proof (wf_stack c Hwf) as Hstk. pose proof (wf_nslots_bound c Hwf) as Hb.
  rewrite (to_size_t_small (stack_size_ c + 1)) by lia.
  split; [|split].
  - destruct Hwf. split; unfold nslots in *; simpl; rewrite ?length_insert; try done; lia.
  - repeat split; unfold nslots; simpl. by rewrite length_insert.
  - unfold avail.
    assert (unbumped (set_stack c (<[Z.to_nat (stack_size_ c) := to_size_t (a - mem_ c)]>
                        (freed_stack_ c)) (stack_size_ c + 1)) = unbumped c) as ->.
    { unfold unbumped, bumped, nslots, slot. simpl. by rewrite length_insert. }
    unfold stack_addrs. simpl.
    replace (Z.to_nat (stack_size_ c + 1)) with (S (Z.to_nat (stack_size_ c))) by lia.
    rewrite (take_S_r _ _ (to_size_t (a - mem_ c)))
      by (by apply list_lookup_insert_eq).
    rewrite take_insert_ge by lia. rewrite fmap_app. simpl.
    rewrite ptr_add_offset by done.
    rewrite app_assoc. by rewrite <- Permutation_cons_append.
Qed.

Lemma deallocate_stack_addrs b a c c' log :
  wf c → 0 ≤ a < 2 ^ 64 → deallocate b a c = Ok c' log →
  stack_addrs c' = stack_addrs c ++ [a].
Proof.
  intros Hwf Ha Hd. apply deallocate_Ok in Hd as (_ & Hlt & ->).
  pose proof (wf_stack c Hwf) as Hstk. pose proof (wf_nslots_bound c Hwf) as Hb.
  rewrite (to_size_t_small (stack_size_ c + 1)) by lia.
  unfold stack_addrs. simpl.
  replace (Z.to_nat (stack_size_ c + 1)) with (S (Z.to_nat (stack_size_ c))) by lia.
  rewrite (take_S_r _ _ (to_size_t (a - mem_ c)))
    by (by apply list_lookup_insert_eq).
  rewrite take_insert_ge by lia. rewrite fmap_app. simpl.
  by rewrite ptr_add_offset.
Qed.

Lemma allocate_stack_addrs c a c' log x :
  wf c → allocate c = Ok (a, c') log → x ∈ stack_addrs c' → x ∈ stack_addrs c.
Proof.
  intros Hwf Ha. destruct (Z.lt_ge_cases (next_ c) (max_ c)) as [Hlt|Hge].
  { rewrite allocate_bump in Ha by done. by injection Ha as <- <- <-. }
  destruct (Z.lt_ge_cases 0 (stack_size_ c)) as [Hpos|Hzero].
  - destruct (wf_lookup_top c Hwf Hpos) as (Htop & off & Hoff).
    rewrite (allocate_pop c off) in Ha by (rewrite ?Htop; done).
    injection Ha as <- <- <-. rewrite Htop. unfold stack_addrs. simpl.
    replace (Z.to_nat (stack_size_ c)) with (S (Z.to_nat (stack_size_ c - 1))) by lia.
    rewrite (take_S_r _ _ _ Hoff), fmap_app. intros Hx. apply elem_of_app. by left.
  - rewrite allocate_exhausted in Ha by done. by injection Ha as <- <- <-.
Qed.

Lemma length_stack_addrs c :
  wf c → length (stack_addrs c) = Z.to_nat (stack_size_ c).
Proof.
  intros Hwf. pose proof (wf_stack c Hwf). unfold stack_addrs.
  rewrite length_fmap, length_take. unfold nslots in *. lia.
Qed.

(** *** reclaim *)

Lemma reclaim_wf c : wf c → wf (reclaim c) ∧ same_buffer c (reclaim c) ∧
                            avail (reclaim c) = all_slots c.
Proof.
  intros Hwf. assert (wf (reclaim c)) as Hwf'.
  { destruct Hwf. split; unfold nslots in *; simpl; try done; try lia.
    exists 0%nat. lia. }
  split; [done|]. split; [by repeat split|].
  unfold avail, unbumped, stack_addrs.
  rewrite (wf_bumped (reclaim c) 0 Hwf') by (simpl; lia).
  simpl. rewrite Nat.sub_0_r. by rewrite app_nil_r.
Qed.

(** *** Arenas under callers that respect ownership *)

Lemma inv_NoDup c0 c live : inv c0 c live → NoDup (avail c ++ live).
Proof.
  intros (Hwf & _ & Hp). rewrite Hp. apply NoDup_all_slots, (wf_obj c Hwf).
Qed.

Lemma inv_live_range c0 c live a : inv c0 c live → a ∈ live → 0 < a < 2 ^ 64.
Proof.
  intros (Hwf & _ & Hp) Ha.
  assert (a ∈ all_slots c) as Hs by (rewrite <- Hp; apply elem_of_app; by right).
  apply list_elem_of_fmap in Hs as (j & -> & Hj). apply elem_of_seq in Hj.
  apply slot_range; [done|lia].
Qed.

Lemma same_buffer_trans c1 c2 c3 : same_buffer c1 c2 → same_buffer c2 c3 → same_buffer c1 c3.
Proof. unfold same_buffer. intros (?&?&?&?&?) (?&?&?&?&?). repeat split; congruence. Qed.

Lemma step_inv b c0 cl c live c' live' :
  inv c0 c live →
  step allocate (deallocate b) (λ c, Ok (reclaim c) []) cl c live = Reached c' live' →
  inv c0 c' live'.
Proof.
  intros Hinv Hstep. pose proof Hinv as (Hwf & Hsb & Hp).
  destruct cl as [|a|]; simpl in Hstep.
  - destruct (allocate c) as [[a c1] log|] eqn:Ha; [|discriminate].
    injection Hstep as <- <-.
    destruct (allocate_wf _ _ _ _ Hwf Ha) as (_ & Hwf' & Hsb' & [(-> & -> & _)|Hav]).
    + done.
    + assert (0 < a < 2 ^ 64) as Hrange.
      { assert (a ∈ all_slots c) as Hs.
        { rewrite <- Hp, Hav. apply elem_of_app. left. apply elem_of_cons. by left. }
        apply list_elem_of_fmap in Hs as (j & -> & Hj). apply elem_of_seq in Hj.
        apply slot_range; [done|lia]. }
      destruct (Z.eqb_spec a 0); [lia|].
      split; [done|]. split; [by eapply same_buffer_trans|].
      rewrite (same_buffer_all_slots _ _ Hsb'), <- Hp, Hav.
      by rewrite <- Permutation_middle.
  - destruct (decide (a ∈ live)) as [Hin|]; [|discriminate].
    destruct (deallocate b a c) as [c1 log|] eqn:Hd; [|discriminate].
    injection Hstep as <- <-.
    pose proof (inv_live_range _ _ _ _ Hinv Hin) as Hrange.
    assert (0 ≤ a < 2 ^ 64) as Hrange' by lia.
    destruct (deallocate_wf _ _ _ _ _ Hwf Hrange' Hd) as (Hwf' & Hsb' & Hav).
    split; [done|]. split; [by eapply same_buffer_trans|].
    rewrite (same_buffer_all_slots _ _ Hsb'), <- Hp, Hav.
    assert (NoDup live) as Hnd.
    { pose proof (inv_NoDup _ _ _ Hinv) as Hn. by apply NoDup_app in Hn as (_ & _ & ?). }
    rewrite (live_remove live a Hnd Hin) at 2.
    by rewrite <- Permutation_middle.
  - injection Hstep as <- <-.
    destruct (reclaim_wf c Hwf) as (Hwf' & Hsb' & Hav).
    split; [done|]. split; [by eapply same_buffer_trans|].
    by rewrite Hav, app_nil_r, (same_buffer_all_slots _ _ Hsb').
Qed.

Lemma arena_run_inv b c0 cs c live c' live' :
  inv c0 c live → arena_run b cs c live = Reached c' live' → inv c0 c' live'.
Proof. apply (run_invariant _ _ _ (inv c0)). intros. by eapply step_inv. Qed.

(** Counting: live slots and freed offsets together are the slots the bump
    cursor has passed. *)
Lemma inv_count c0 c live :
  inv c0 c live →
  (Z.to_nat (stack_size_ c) + length live = bumped c)%nat ∧ (bumped c ≤ nslots c)%nat.
Proof.
  intros (Hwf & _ & Hp). apply Permutation_length in Hp.
  destruct (wf_next c Hwf) as (k & Hk & Hnext).
  pose proof (wf_stack c Hwf) as Hstk.
  rewrite (wf_bumped c k Hwf Hnext).
  unfold avail, unbumped, stack_addrs, all_slots in Hp.
  rewrite (wf_bumped c k Hwf Hnext) in Hp.
  rewrite !length_app, !length_fmap, !length_seq, length_take in Hp.
  unfold nslots in *. lia.
Qed.

(** In a release build an arena never faults under a caller that respects
    ownership. *)
Lemma arena_release_run_safe c0 cs : ∀ c live,
  inv c0 c live →
  match arena_run Release cs c live with
  | Failed _ => False
  | _ => True
  end.
Proof.
  intros c live.
  apply (run_safe _ _ _ (inv c0) (λ _, False)). clear c live.
  intros cl c live Hinv. pose proof Hinv as (Hwf & _).
  pose proof (step_inv Release c0 cl c live) as Hstep.
  destruct cl as [|a|]; simpl in *.
  - destruct (allocate_total c Hwf) as (a & c' & Ha). rewrite Ha in *. by eapply Hstep.
  - destruct (decide (a ∈ live)) as [Hin|]; [|done].
    destruct (inv_count _ _ _ Hinv) as [Hcount Hle].
    assert (0 < length live)%nat as Hlive.
    { destruct live; [by apply not_elem_of_nil in Hin | simpl; lia]. }
    rewrite deallocate_release in * by lia. by eapply Hstep.
  - by eapply Hstep.
Qed.

Lemma constructed_inv m S B c : constructed m S B c → inv c c [].
Proof.
  intros (log & Hc & HS & HB & Hm & Htop).
  destruct (cchunk_wf _ _ _ _ _ HS HB Hc Hm Htop) as (Hwf & Hav).
  split; [done|]. split; [apply same_buffer_refl|]. by rewrite app_nil_r, Hav.
Qed.

Lemma constructed_run_inv b m S B c0 cs c live :
  constructed m S B c0 → arena_run b cs c0 [] = Reached c live →
  inv c0 c live ∧ Z.of_nat (nslots c) = Z.max 1 (B / S) ∧
  pool_size_ c = Z.max 1 (B / S) * S ∧ obj_size_ c = S ∧ 0 < S.
Proof.
  intros Hc Hrun. pose proof (constructed_inv _ _ _ _ Hc) as Hinv0.
  pose proof (arena_run_inv _ _ _ _ _ _ _ Hinv0 Hrun) as Hinv.
  destruct Hc as (log & Hc & HS & HB & _).
  destruct (cchunk_Ok _ _ _ _ _ HS HB Hc) as (? & _ & _ & _ & ? & _ & ? & ? & _).
  pose proof Hinv as (Hwf & (_ & _ & Ho & Hp & Hn) & Hperm).
  split; [exact Hinv|]. rewrite Hn, Hp, Ho. done.
Qed.

Ltac concrete :=
  vm_compute; repeat split; try reflexivity; try discriminate;
  try (intros ?; discriminate).

Lemma constructed_16_64 : constructed 4096 16 64 arena_16_64.
Proof. exists []. concrete. Qed.

Lemma constructed_16_8 : constructed 4096 16 8 arena_16_8.
Proof. exists [PoolSizeCorrected]. concrete. Qed.

(** *** The contract of allocate *)

(** C3. Arena [allocate]: with the bump cursor below the capacity it returns
    the address at the cursor and advances the cursor by exactly one slot
    size; otherwise, with a non-empty freed stack, it pops the top offset and
    returns the address at that offset; otherwise it returns null, without
    fault and without changing the arena. *)
Theorem allocate_contract (c : t) :
  wf c →
  (bump_cursor c < pool_size_ c →
     ∃ c', allocate c = Ok (mem_ c + bump_cursor c, c') [] ∧
           bump_cursor c' = bump_cursor c + obj_size_ c ∧
           next_ c' = next_ c + obj_size_ c ∧
           stack_size_ c' = stack_size_ c ∧ freed_stack_ c' = freed_stack_ c ∧
           mem_ c' = mem_ c ∧ max_ c' = max_ c ∧
           obj_size_ c' = obj_size_ c ∧ pool_size_ c' = pool_size_ c) ∧
  (pool_size_ c ≤ bump_cursor c → 0 < stack_size_ c →
     ∃ off c', freed_stack_ c !! Z.to_nat (stack_size_ c - 1) = Some off ∧
               allocate c = Ok (ptr_add (mem_ c) off, c') [] ∧
               stack_size_ c' = stack_size_ c - 1 ∧
               freed_stack_ c' = freed_stack_ c ∧
               bump_cursor c' = bump_cursor c ∧ next_ c' = next_ c ∧
               mem_ c' = mem_ c ∧ max_ c' = max_ c ∧
               obj_size_ c' = obj_size_ c ∧ pool_size_ c' = pool_size_ c) ∧
  (pool_size_ c ≤ bump_cursor c → stack_size_ c = 0 → allocate c = Ok (0, c) []).
Proof.
  intros Hwf. unfold bump_cursor.
  pose proof (wf_obj c Hwf) as Hobj. pose proof (wf_max c Hwf) as Hmax.
  pose proof (wf_top c Hwf) as Htop. pose proof (wf_mem c Hwf) as Hmem.
  pose proof (wf_pool c Hwf) as Hpool.
  destruct (wf_next c Hwf) as (k & Hk & Hnext).
  split; [|split].
  - intros Hlt. rewrite allocate_bump by lia.
    assert (k < nslots c)%nat as Hk' by nia.
    rewrite ptr_add_small by nia.
    eexists. split; [do 3 f_equal; lia|]. simpl. repeat split; lia.
  - intros Hge Hpos. destruct (wf_lookup_top c Hwf Hpos) as (Htop' & off & Hoff).
    assert (allocate c = Ok (ptr_add (mem_ c) off,
                             set_stack c (freed_stack_ c) (stack_size_ c - 1)) [])
      as Ha.
    { rewrite (allocate_pop c off), Htop'; rewrite ?Htop'; done || lia. }
    exists off. eexists. split; [done|]. split; [exact Ha|]. simpl. repeat split; lia.
  - intros Hge Hz. apply allocate_exhausted; lia.
Qed.

Lemma allocate_contract_witness :
  wf arena_16_64 ∧
  (∃ c', allocate arena_16_64
           = Ok (mem_ arena_16_64 + bump_cursor arena_16_64, c') [] ∧
         bump_cursor c' = bump_cursor arena_16_64 + obj_size_ arena_16_64 ∧
         next_ c' = next_ arena_16_64 + obj_size_ arena_16_64 ∧
         stack_size_ c' = stack_size_ arena_16_64 ∧
         freed_stack_ c' = freed_stack_ arena_16_64 ∧
         mem_ c' = mem_ arena_16_64 ∧ max_ c' = max_ arena_16_64 ∧
         obj_size_ c' = obj_size_ arena_16_64 ∧
         pool_size_ c' = pool_size_ arena_16_64) ∧
  wf arena_16_64_freed ∧
  (∃ off c', freed_stack_ arena_16_64_freed
               !! Z.to_nat (stack_size_ arena_16_64_freed - 1) = Some off ∧
             allocate arena_16_64_freed
               = Ok (ptr_add (mem_ arena_16_64_freed) off, c') [] ∧
             stack_size_ c' = stack_size_ arena_16_64_freed - 1 ∧
             freed_stack_ c' = freed_stack_ arena_16_64_freed ∧
             bump_cursor c' = bump_cursor arena_16_64_freed ∧
             next_ c' = next_ arena_16_64_freed ∧
             mem_ c' = mem_ arena_16_64_freed ∧ max_ c' = max_ arena_16_64_freed ∧
             obj_size_ c' = obj_size_ arena_16_64_freed ∧
             pool_size_ c' = pool_size_ arena_16_64_freed) ∧
  wf arena_16_64_full ∧
  allocate arena_16_64_full = Ok (0, arena_16_64_full) [].
Proof.
  assert (wf arena_16_64) as Hwf1.
  { destruct (cchunk_wf 4096 16 64 arena_16_64 []) as [H _]; [concrete..|exact H]. }
  assert (wf arena_16_64_freed) as Hwf2.
  { apply (constructed_run_inv Release 4096 16 64 arena_16_64
             [Allocate; Allocate; Allocate; Allocate; Deallocate 4112]
             arena_16_64_freed [4144; 4128; 4096] constructed_16_64).
    reflexivity. }
  assert (wf arena_16_64_full) as Hwf3.
  { apply (constructed_run_inv Release 4096 16 64 arena_16_64
             [Allocate; Allocate; Allocate; Allocate]
             arena_16_64_full [4144; 4128; 4112; 4096] constructed_16_64).
    reflexivity. }
  split; [exact Hwf1|]. split.
  { destruct (allocate_contract arena_16_64 Hwf1) as (Hbump & _).
    apply Hbump. reflexivity. }
  split; [exact Hwf2|]. split.
  { destruct (allocate_contract arena_16_64_freed Hwf2) as (_ & Hpop & _).
    apply Hpop; [discriminate|reflexivity]. }
  split; [exact Hwf3|].
  destruct (allocate_contract arena_16_64_full Hwf3) as (_ & _ & Hnull).
  apply Hnull; [discriminate|reflexivity].
Defined.

(** *** Capacity *)

(** C5. An arena constructed with byte budget [B] and slot size [S] never has
    more than [floor(B/S)] live slots, or 1 when [floor(B/S)] is zero,
    whatever ownership-respecting sequence of calls it serves. *)
Theorem capacity_invariant (b : build) (m S B : Z) (c0 c : t) (cs : list call)
    (live : list Z) :
  constructed m S B c0 →
  arena_run b cs c0 [] = Reached c live →
  NoDup live ∧ Z.of_nat (length live) ≤ Z.max 1 (B / S).
Proof.
  intros Hc Hrun.
  destruct (constructed_run_inv _ _ _ _ _ _ _ _ Hc Hrun) as (Hinv & Hn & _).
  split.
  - pose proof (inv_NoDup _ _ _ Hinv) as Hnd. by apply NoDup_app in Hnd as (_ & _ & ?).
  - destruct (inv_count _ _ _ Hinv). lia.
Qed.

Lemma capacity_invariant_witness :
  constructed 4096 16 64 arena_16_64 ∧
  arena_run Release [Allocate; Allocate; Deallocate 4096; Allocate] arena_16_64 []
    = Reached (set_stack (set_next arena_16_64 4144) [0; 0; 0; 0] 1) [4128; 4112] ∧
  NoDup [4128; 4112] ∧ Z.of_nat (length [4128; 4112]) ≤ Z.max 1 (64 / 16).
Proof.
  split; [apply constructed_16_64|]. split; [reflexivity|].
  eapply (capacity_invariant Release 4096 16 64 arena_16_64 _
           [Allocate; Allocate; Deallocate 4096; Allocate]).
  - apply constructed_16_64.
  - reflexivity.
Defined.

(** *** The freed stack stays inside its array *)

(** C10, amended. Under callers that respect ownership every write into the
    freed-offset stack lands at an index strictly below the stack's allocated
    length.  The constructor computes that length from the corrected capacity
    [pool_size_], not from the requested budget: it is [max 1 (B / S)], hence
    1 when the requested budget was below one slot. *)
Theorem freed_stack_write_in_bounds (b : build) (m S B : Z) (c0 c : t)
    (cs : list call) (live : list Z) (a : Z) :
  constructed m S B c0 →
  arena_run b cs c0 [] = Reached c live →
  a ∈ live →
  (Z.to_nat (stack_size_ c) < length (freed_stack_ c))%nat ∧
  Z.of_nat (length (freed_stack_ c)) = pool_size_ c / S ∧
  Z.of_nat (length (freed_stack_ c)) = Z.max 1 (B / S) ∧
  deallocate b a c ≠ Err OutOfBounds.
Proof.
  intros Hc Hrun Ha.
  destruct (constructed_run_inv _ _ _ _ _ _ _ _ Hc Hrun) as (Hinv & Hn & Hp & Ho & HS).
  destruct (inv_count _ _ _ Hinv) as [Hcount Hle].
  assert (0 < length live)%nat as Hlive.
  { destruct live; [by apply not_elem_of_nil in Ha | simpl; lia]. }
  assert (Z.to_nat (stack_size_ c) < length (freed_stack_ c))%nat as Hlt
    by (unfold nslots in *; lia).
  split; [done|]. split; [|split; [done|]].
  - rewrite Hp, Z.div_mul by lia. done.
  - unfold deallocate, deallocate_check.
    destruct b; [destruct (mem_ c >=? a); [destruct (_ >=? _)|]|]; simpl;
      try discriminate; destruct (decide _); done.
Qed.

Lemma freed_stack_write_in_bounds_witness :
  constructed 4096 16 8 arena_16_8 ∧
  arena_run Release [Allocate] arena_16_8 [] = Reached (set_next arena_16_8 4112) [4096] ∧
  4096 ∈ [4096] ∧
  (Z.to_nat (stack_size_ (set_next arena_16_8 4112))
     < length (freed_stack_ (set_next arena_16_8 4112)))%nat ∧
  Z.of_nat (length (freed_stack_ (set_next arena_16_8 4112)))
    = pool_size_ (set_next arena_16_8 4112) / 16 ∧
  Z.of_nat (length (freed_stack_ (set_next arena_16_8 4112))) = Z.max 1 (8 / 16) ∧
  deallocate Release 4096 (set_next arena_16_8 4112) ≠ Err OutOfBounds.
Proof.
  split; [apply constructed_16_8|]. split; [reflexivity|].
  split; [apply list_elem_of_here|].
  apply (freed_stack_write_in_bounds Release 4096 16 8 arena_16_8 _ [Allocate] [4096]).
  - apply constructed_16_8.
  - reflexivity.
  - apply list_elem_of_here.
Defined.

(** C10 as stated fails for a requested budget below one slot: with [B = 8]
    and [S = 16] the requested budget divided by the slot size is 0, yet the
    stack has one element and the write of the first [deallocate] lands at
    index 0. *)
Lemma requested_budget_length_counterexample :
  constructed 4096 16 8 arena_16_8 ∧
  arena_run Release [Allocate] arena_16_8 [] = Reached (set_next arena_16_8 4112) [4096] ∧
  Z.of_nat (length (freed_stack_ (set_next arena_16_8 4112))) ≠ 8 / 16 ∧
  ¬ (stack_size_ (set_next arena_16_8 4112) < 8 / 16) ∧
  deallocate Release 4096 (set_next arena_16_8 4112)
    = Ok (set_stack (set_next arena_16_8 4112) [0] 1) [].
Proof.
  split; [apply constructed_16_8|]. split; [reflexivity|].
  split; [discriminate|]. split; [|reflexivity].
  intros H. vm_compute in H. discriminate.
Qed.

(** *** LIFO reuse *)

Lemma lifo_pops b X Y c c1 c2 l1 l2 :
  wf c → max_ c ≤ next_ c → 0 ≤ X < 2 ^ 64 → 0 ≤ Y < 2 ^ 64 →
  deallocate b X c = Ok c1 l1 → deallocate b Y c1 = Ok c2 l2 →
  free2_alloc2 b X Y c = Ok (Y, X) (l1 ++ l2).
Proof.
  intros Hwf Hge HX HY H1 H2. unfold free2_alloc2. rewrite H1. simpl. rewrite H2. simpl.
  apply deallocate_Ok in H1 as (_ & Hlt1 & ->).
  apply deallocate_Ok in H2 as (_ & Hlt2 & ->).
  pose proof (wf_stack c Hwf) as Hstk. pose proof (wf_nslots_bound c Hwf) as Hb.
  unfold nslots in *. simpl in *. rewrite length_insert in Hlt2.
  rewrite (to_size_t_small (stack_size_ c + 1)) in * by lia.
  rewrite (to_size_t_small (stack_size_ c + 1 + 1)) by lia.
  set (st1 := <[Z.to_nat (stack_size_ c) := to_size_t (X - mem_ c)]> (freed_stack_ c)).
  set (st2 := <[Z.to_nat (stack_size_ c + 1) := to_size_t (Y - mem_ c)]> st1).
  set (c2 := set_stack (set_stack c st1 (stack_size_ c + 1)) st2 (stack_size_ c + 1 + 1)).
  assert (to_size_t (stack_size_ c + 1 + 1 - 1) = stack_size_ c + 1) as Ht2
    by (rewrite to_size_t_small; lia).
  assert (to_size_t (stack_size_ c + 1 - 1) = stack_size_ c) as Ht1
    by (rewrite to_size_t_small; lia).
  rewrite (allocate_pop c2 (to_size_t (Y - mem_ c))); simpl; try lia.
  2:{ rewrite Ht2. subst st2. apply list_lookup_insert_eq.
      subst st1. rewrite length_insert. lia. }
  rewrite Ht2. simpl.
  rewrite (allocate_pop _ (to_size_t (X - mem_ c))); simpl; try lia.
  2:{ rewrite Ht1. subst st2. rewrite list_lookup_insert_ne by lia.
      subst st1. apply list_lookup_insert_eq. lia. }
  simpl. rewrite !ptr_add_offset by done. by rewrite app_nil_r.
Qed.

(** LIFO reuse where the calls complete.  In an arena whose bump cursor has
    reached the capacity, deallocating live addresses [X] and then [Y] makes
    the next two calls of [allocate] return [Y] and then [X]: in a release
    build the four calls always complete; in any build, when they complete,
    these are the two addresses. *)
Theorem lifo_reuse (b : build) (m S B : Z) (c0 c : t) (cs : list call)
    (live : list Z) (X Y : Z) :
  constructed m S B c0 →
  arena_run b cs c0 [] = Reached c live →
  pool_size_ c ≤ bump_cursor c →
  X ∈ live → Y ∈ live → X ≠ Y →
  (b = Release → free2_alloc2 b X Y c = Ok (Y, X) []) ∧
  (∀ r, value (free2_alloc2 b X Y c) = Some r → r = (Y, X)).
Proof.
  intros Hc Hrun Hfull HX HY Hne.
  destruct (constructed_run_inv _ _ _ _ _ _ _ _ Hc Hrun) as (Hinv & _).
  pose proof Hinv as (Hwf & _ & _).
  pose proof (inv_live_range _ _ _ _ Hinv HX) as HXr.
  pose proof (inv_live_range _ _ _ _ Hinv HY) as HYr.
  assert (max_ c ≤ next_ c) as Hge.
  { unfold bump_cursor in Hfull. pose proof (wf_max c Hwf). lia. }
  split.
  - intros ->.
    destruct (inv_count _ _ _ Hinv) as [Hcount Hle].
    assert (2 ≤ length live)%nat as Hlive.
    { destruct live as [|x [|y l]]; simpl; try lia.
      - by apply not_elem_of_nil in HX.
      - apply list_elem_of_singleton in HX, HY. congruence. }
    pose proof (wf_stack c Hwf) as Hstk. pose proof (wf_nslots_bound c Hwf) as Hb.
    assert (Z.to_nat (stack_size_ c) < nslots c)%nat as Hlt1 by lia.
    pose proof (deallocate_release X c Hlt1) as H1.
    set (c1 := set_stack c _ _) in H1.
    assert (Z.to_nat (stack_size_ c1) < nslots c1)%nat as Hlt2.
    { subst c1. unfold nslots in *. simpl. rewrite length_insert.
      rewrite to_size_t_small by lia. lia. }
    pose proof (deallocate_release Y c1 Hlt2) as H2.
    eapply (lifo_pops Release X Y c c1 _ [] []); try done; lia.
  - intros r Hr. unfold free2_alloc2 in Hr.
    destruct (deallocate b X c) as [c1 l1|] eqn:H1; [|discriminate].
    simpl in Hr.
    destruct (deallocate b Y c1) as [c2 l2|] eqn:H2; [|discriminate].
    assert (0 ≤ X < 2 ^ 64) as HX' by lia. assert (0 ≤ Y < 2 ^ 64) as HY' by lia.
    pose proof (lifo_pops b X Y c c1 c2 l1 l2 Hwf Hge HX' HY' H1 H2) as Hl.
    unfold free2_alloc2 in Hl. rewrite H1 in Hl. simpl in Hl. rewrite H2 in Hl.
    rewrite Hl in Hr. simpl in Hr. congruence.
Qed.

Lemma lifo_reuse_witness :
  constructed 4096 16 64 arena_16_64 ∧
  arena_run Release [Allocate; Allocate; Allocate; Allocate] arena_16_64 []
    = Reached arena_16_64_full [4144; 4128; 4112; 4096] ∧
  pool_size_ arena_16_64_full ≤ bump_cursor arena_16_64_full ∧
  4112 ∈ [4144; 4128; 4112; 4096] ∧ 4144 ∈ [4144; 4128; 4112; 4096] ∧ 4112 ≠ 4144 ∧
  free2_alloc2 Release 4112 4144 arena_16_64_full = Ok (4144, 4112) [].
Proof.
  split; [apply constructed_16_64|]. split; [reflexivity|].
  split; [discriminate|]. split; [set_solver|]. split; [set_solver|].
  split; [discriminate|].
  eapply (lifo_reuse Release 4096 16 64 arena_16_64 arena_16_64_full
            [Allocate; Allocate; Allocate; Allocate]
            [4144; 4128; 4112; 4096] 4112 4144).
  - apply constructed_16_64.
  - reflexivity.
  - discriminate.
  - set_solver.
  - set_solver.
  - discriminate.
  - reflexivity.
Defined.

(** *** What lies above the stack pointer is never read *)

Lemma take_le_take {A} (l : list A) n m : (n ≤ m)%nat → take n l = take n (take m l).
Proof. intros. by rewrite take_take, Nat.min_l. Qed.

Lemma allocate_upto_stack c1 c2 :
  same_upto_stack c1 c2 →
  match allocate c1, allocate c2 with
  | Ok (a1, c1') _, Ok (a2, c2') _ => a1 = a2 ∧ same_upto_stack c1' c2'
  | Err _, Err _ => True
  | _, _ => False
  end.
Proof.
  intros (Hm & Hn & Hx & Ho & Hp & Hs & Hs0 & Hl & Ht). unfold allocate.
  rewrite <- Hn, <- Hx, <- Hs, <- Hm, <- Ho.
  destruct (next_ c1 <? max_ c1).
  { split; [done|]. repeat split; simpl; try done; congruence. }
  destruct (Z.ltb_spec 0 (stack_size_ c1)) as [Hpos|].
  2:{ split; [done|]. by repeat split. }
  assert (0 ≤ to_size_t (stack_size_ c1 - 1) < stack_size_ c1) as Htop.
  { unfold to_size_t. pose proof (Z.mod_pos_bound (stack_size_ c1 - 1) (2 ^ 64)).
    pose proof (Z.mod_le (stack_size_ c1 - 1) (2 ^ 64)). lia. }
  set (top := to_size_t (stack_size_ c1 - 1)) in *.
  assert (freed_stack_ c1 !! Z.to_nat top = freed_stack_ c2 !! Z.to_nat top) as Hlook.
  { rewrite <- (lookup_take_lt (freed_stack_ c1) (Z.to_nat (stack_size_ c1))) by lia.
    rewrite <- (lookup_take_lt (freed_stack_ c2) (Z.to_nat (stack_size_ c1))) by lia.
    rewrite Ht, Hs. done. }
  rewrite <- Hlook. destruct (freed_stack_ c1 !! Z.to_nat top); [|done].
  split; [done|]. repeat split; simpl; try done; try lia.
  rewrite <- Hs in Ht.
  rewrite (take_le_take (freed_stack_ c1) _ (Z.to_nat (stack_size_ c1))) by lia.
  rewrite (take_le_take (freed_stack_ c2) _ (Z.to_nat (stack_size_ c1))) by lia.
  by rewrite Ht.
Qed.

Lemma deallocate_upto_stack b a c1 c2 :
  same_upto_stack c1 c2 →
  match deallocate b a c1, deallocate b a c2 with
  | Ok c1' _, Ok c2' _ => same_upto_stack c1' c2'
  | Err _, Err _ => True
  | _, _ => False
  end.
Proof.
  intros (Hm & Hn & Hx & Ho & Hp & Hs & Hs0 & Hl & Ht). unfold deallocate, deallocate_check.
  rewrite <- Hm, <- Hp, <- Hs, <- Hl.
  assert (∀ l : list diag,
    match (let* _ := Ok tt l in
           if decide (Z.to_nat (stack_size_ c1) < length (freed_stack_ c1))%nat
           then Ok (set_stack c1 (<[Z.to_nat (stack_size_ c1) := to_size_t (a - mem_ c1)]>
                                    (freed_stack_ c1)) (to_size_t (stack_size_ c1 + 1))) []
           else Err OutOfBounds),
          (let* _ := Ok tt l in
           if decide (Z.to_nat (stack_size_ c1) < length (freed_stack_ c1))%nat
           then Ok (set_stack c2 (<[Z.to_nat (stack_size_ c1) := to_size_t (a - mem_ c1)]>
                                    (freed_stack_ c2)) (to_size_t (stack_size_ c1 + 1))) []
           else Err OutOfBounds) with
    | Ok c1' _, Ok c2' _ => same_upto_stack c1' c2'
    | Err _, Err _ => True
    | _, _ => False
    end) as Hwrite.
  { intros l. simpl. destruct (decide _) as [Hlt|]; [|done].
    assert (0 ≤ to_size_t (stack_size_ c1 + 1) ≤ stack_size_ c1 + 1) as Hnew.
    { unfold to_size_t. pose proof (Z.mod_pos_bound (stack_size_ c1 + 1) (2 ^ 64)).
      pose proof (Z.mod_le (stack_size_ c1 + 1) (2 ^ 64)). lia. }
    repeat split; simpl; try done; try lia.
    { by rewrite !length_insert. }
    rewrite <- Hs in Ht.
    destruct (decide (to_size_t (stack_size_ c1 + 1) = stack_size_ c1 + 1)) as [->|Hne].
    - replace (Z.to_nat (stack_size_ c1 + 1)) with (S (Z.to_nat (stack_size_ c1))) by lia.
      rewrite !(take_S_r _ _ (to_size_t (a - mem_ c1)))
        by (apply list_lookup_insert_eq; lia).
      rewrite !take_insert_ge by lia. by rewrite Ht.
    - rewrite !take_insert_ge by lia.
      rewrite (take_le_take (freed_stack_ c1) _ (Z.to_nat (stack_size_ c1))) by lia.
      rewrite (take_le_take (freed_stack_ c2) _ (Z.to_nat (stack_size_ c1))) by lia.
      by rewrite Ht. }
  destruct b; [|apply Hwrite].
  destruct (mem_ c1 >=? a); [|done]. destruct (_ >=? _); apply Hwrite.
Qed.

Lemma returns_upto_stack b cs : ∀ c1 c2,
  same_upto_stack c1 c2 → returns b cs c1 = returns b cs c2.
Proof.
  induction cs as [|[|a|] cs IH]; intros c1 c2 Hs; simpl; [done|..].
  - pose proof (allocate_upto_stack c1 c2 Hs) as Ha.
    destruct (allocate c1) as [[a1 c1'] ?|], (allocate c2) as [[a2 c2'] ?|]; try done.
    destruct Ha as [-> Hs']. f_equal. by apply IH.
  - pose proof (deallocate_upto_stack b a c1 c2 Hs) as Hd.
    destruct (deallocate b a c1), (deallocate b a c2); try done. by apply IH.
  - apply IH. destruct Hs as (Hm & Hn & Hx & Ho & Hp & Hs & Hs0 & Hl & Ht).
    by repeat split.
Qed.

(** *** Debug checks *)

Lemma deallocate_debug_above_base a c :
  mem_ c < a → deallocate Debug a c = Err AssertionFailed.
Proof.
  intros H. unfold deallocate, deallocate_check.
  by destruct (Z.geb_spec (mem_ c) a); [lia|].
Qed.

(** The range test of the debug block itself is right: it reports exactly
    the addresses outside the buffer. *)
Lemma deallocate_check_report a c log :
  wf c → 0 ≤ a < 2 ^ 64 →
  deallocate_check Debug a c = Ok tt log →
  log = [] ↔ mem_ c ≤ a < mem_ c + pool_size_ c.
Proof.
  intros Hwf Ha. unfold deallocate_check.
  pose proof (wf_obj c Hwf). pose proof (wf_mem c Hwf). pose proof (wf_max c Hwf).
  pose proof (wf_top c Hwf). pose proof (wf_pool c Hwf). pose proof (wf_one c Hwf).
  assert (0 < pool_size_ c) as Hps by nia.
  destruct (Z.geb_spec (mem_ c) a) as [Hge|]; [|discriminate].
  assert (to_size_t (a - mem_ c) = if decide (a = mem_ c) then 0 else a - mem_ c + 2 ^ 64)
    as ->.
  { destruct (decide (a = mem_ c)) as [->|Hne].
    - by rewrite Z.sub_diag.
    - unfold to_size_t. symmetry.
      apply (Z.mod_unique (a - mem_ c) (2 ^ 64) (-1) (a - mem_ c + 2 ^ 64)); lia. }
  rewrite Z.geb_leb.
  destruct (decide (a = mem_ c)) as [Heq|Hne];
    (destruct (pool_size_ c <=? _) eqn:E;
     [apply Z.leb_le in E|apply Z.leb_gt in E]); intros [= <-];
    split; try done; try lia.
Qed.

(** In a debug build a caller that frees two live addresses never gets to
    allocate again: one of the two lies above the buffer start and
    [assert(mem_ >= addr)] stops the program at its deallocation. *)
Lemma lifo_debug_aborts m S B c0 c cs live X Y :
  constructed m S B c0 →
  arena_run Debug cs c0 [] = Reached c live →
  X ∈ live → Y ∈ live → X ≠ Y →
  free2_alloc2 Debug X Y c = Err AssertionFailed.
Proof.
  intros Hc Hrun HX HY Hne.
  destruct (constructed_run_inv _ _ _ _ _ _ _ _ Hc Hrun) as (Hinv & _).
  pose proof Hinv as (Hwf & _ & Hp).
  assert (∀ a, a ∈ live → mem_ c ≤ a) as Hge.
  { intros a Ha. assert (a ∈ all_slots c) as Hs by (rewrite <- Hp; apply elem_of_app; by right).
    apply list_elem_of_fmap in Hs as (j & -> & _). unfold slot.
    pose proof (wf_obj c Hwf). nia. }
  pose proof (Hge X HX). pose proof (Hge Y HY). unfold free2_alloc2.
  destruct (decide (mem_ c < X)) as [HXm|HXm].
  { by rewrite deallocate_debug_above_base. }
  destruct (deallocate Debug X c) as [c1 l1|f] eqn:H1.
  - simpl. apply deallocate_Ok in H1 as (_ & _ & ->).
    rewrite deallocate_debug_above_base by (simpl; lia). done.
  - exfalso. unfold deallocate, deallocate_check in H1.
    destruct (Z.geb_spec (mem_ c) X); [|lia].
    destruct (inv_count _ _ _ Hinv) as [Hcount Hle].
    assert (0 < length live)%nat.
    { destruct live; [by apply not_elem_of_nil in HX | simpl; lia]. }
    destruct (_ >=? _); simpl in H1; destruct (decide _) as [|Hn]; try done;
      unfold nslots in *; lia.
Qed.

(** C4 fails on the code in a debug build: in the arena [cchunk(16, 64)]
    whose four slots are live, so that the bump cursor has reached the
    capacity, deallocating the live addresses 4112 and then 4144 does not
    make the next two calls of [allocate] return 4144 and then 4112; the
    first [deallocate] stops at [assert(mem_ >= addr)] and no allocation
    follows.  A release build returns the two addresses in that order. *)
Theorem lifo_reuse_debug_assertion_fails :
  constructed 4096 16 64 arena_16_64 ∧
  arena_run Debug [Allocate; Allocate; Allocate; Allocate] arena_16_64 []
    = Reached arena_16_64_full [4144; 4128; 4112; 4096] ∧
  pool_size_ arena_16_64_full ≤ bump_cursor arena_16_64_full ∧
  4112 ∈ [4144; 4128; 4112; 4096] ∧ 4144 ∈ [4144; 4128; 4112; 4096] ∧
  deallocate Debug 4112 arena_16_64_full = Err AssertionFailed ∧
  free2_alloc2 Debug 4112 4144 arena_16_64_full = Err AssertionFailed ∧
  free2_alloc2 Release 4112 4144 arena_16_64_full = Ok (4144, 4112) [].
Proof.
  split; [apply constructed_16_64|]. split; [reflexivity|].
  split; [discriminate|]. split; [set_solver|]. split; [set_solver|].
  split; [reflexivity|]. split; reflexivity.
Qed.

(** C8 fails on the code: the address of the second slot satisfies the
    stated precondition of [deallocate], yet [assert(mem_ >= addr)] is false
    for it and a debug build stops there. *)
Theorem deallocate_debug_assertion_fails :
  mem_ arena_16_64_full ≤ 4112 < mem_ arena_16_64_full + pool_size_ arena_16_64_full ∧
  deallocate Debug 4112 arena_16_64_full = Err AssertionFailed ∧
  deallocate Release 4112 arena_16_64_full
    = Ok (set_stack arena_16_64_full [16; 0; 0; 0] 1) [].
Proof. concrete. Qed.

(** C9 fails on the code: the offset is truncated to 32 bits before the
    comparison, so an address 2^32 bytes past the buffer is reported as
    contained; and in a debug build [assert(mem_ >= addr)] stops the program
    for an address inside the buffer. *)
Theorem contains_wrong_outside_range :
  ¬ (mem_ arena_16_64 ≤ 4096 + 2 ^ 32 < mem_ arena_16_64 + pool_size_ arena_16_64) ∧
  contains Release (4096 + 2 ^ 32) arena_16_64 = Ok true [] ∧
  mem_ arena_16_64 ≤ 4112 < mem_ arena_16_64 + pool_size_ arena_16_64 ∧
  contains Debug 4112 arena_16_64 = Err AssertionFailed.
Proof.
  split; [intros [_ H]; vm_compute in H; discriminate|]. concrete.
Qed.

(** ** Further properties of an arena *)

Lemma to_size_t_add_l a b : to_size_t (to_size_t a + b) = to_size_t (a + b).
Proof. unfold to_size_t. by rewrite Z.add_mod_idemp_l. Qed.

Lemma to_size_t_add_r a b : to_size_t (a + to_size_t b) = to_size_t (a + b).
Proof. unfold to_size_t. by rewrite Z.add_mod_idemp_r. Qed.

Lemma cchunk_total m S B :
  0 < S < 2 ^ 64 → 0 ≤ B < 2 ^ 64 → B / S < 2 ^ 60 →
  ∃ c, cchunk (Some m) S B = Ok c (if B <? S then [PoolSizeCorrected] else []).
Proof.
  intros HS HB Hn. unfold cchunk.
  destruct (Z.eqb_spec S 0); [lia|].
  pose proof (Z.mod_pos_bound B S ltac:(lia)) as Hm.
  pose proof (Z.mod_le B S ltac:(lia) ltac:(lia)) as Hle.
  pose proof (Z.div_mod B S ltac:(lia)) as Hdm.
  rewrite to_size_t_small by lia.
  destruct (Z.ltb_spec B S) as [Hlt|Hge].
  - rewrite Z.mod_small by lia. rewrite Z.sub_diag.
    destruct (Z.ltb_spec 0 S); [|lia]. simpl.
    rewrite Z.div_same by lia. unfold new_array. simpl. by eexists.
  - assert (0 < B / S) by (apply Z.div_str_pos; lia).
    assert (B - B mod S = B / S * S) as Hr by lia.
    destruct (Z.ltb_spec (B - B mod S) S); [nia|]. simpl.
    rewrite Hr, Z.div_mul by lia. unfold new_array.
    destruct (Z.ltb_spec (8 * (B / S)) (2 ^ 63)); [|lia]. simpl. by eexists.
Qed.

(** X4.  The constructor always leaves room for at least one object: the
    arena [cchunk(S, B)] has [max 1 (B / S)] slots and as many stack
    entries, its capacity is that many times [S] (the budget rounded down,
    losing less than one slot), and the correction message is written
    exactly when the budget is below one object.  It starts with the bump
    cursor at the first address and an empty freed stack.  The sizes are
    those the two new-expressions accept: object size and budget below
    2^63 bytes, and fewer than 2^60 stack entries of eight bytes. *)
Theorem cchunk_ctor (m S B : Z) :
  0 < S < 2 ^ 63 → 0 ≤ B < 2 ^ 63 → B / S < 2 ^ 60 →
  ∃ c, cchunk (Some m) S B = Ok c (if B <? S then [PoolSizeCorrected] else []) ∧
       first_addr c = m ∧ bump_cursor c = 0 ∧ stack_size_ c = 0 ∧
       pool_size c = Z.max 1 (B / S) * S ∧
       Z.of_nat (length (freed_stack_ c)) = Z.max 1 (B / S) ∧
       S ≤ pool_size c ∧ (S ≤ B → B - S < pool_size c ≤ B).
Proof.
  intros HS HB Hn.
  destruct (cchunk_total m S B ltac:(lia) ltac:(lia) Hn) as (c & Hc).
  exists c. split; [done|].
  destruct (cchunk_Ok m S B c _ ltac:(lia) ltac:(lia) Hc)
    as (_ & Hmem & Hnext & _ & _ & Hstk & Hslots & Hpool & _).
  unfold first_addr, bump_cursor, pool_size, nslots in *.
  pose proof (Z.mod_pos_bound B S ltac:(lia)) as Hm.
  pose proof (Z.div_mod B S ltac:(lia)) as Hdm.
  assert (0 ≤ B / S) by (apply Z.div_pos; lia).
  split; [done|]. split; [lia|]. split; [done|]. split; [done|]. split; [done|].
  split; [nia|]. intros Hge.
  assert (0 < B / S) by (apply Z.div_str_pos; lia).
  rewrite Hpool, Z.max_r by lia. nia.
Qed.

Lemma cchunk_ctor_witness :
  0 < 16 < 2 ^ 63 ∧ 0 ≤ 8 < 2 ^ 63 ∧ 8 / 16 < 2 ^ 60 ∧
  ∃ c, cchunk (Some 4096) 16 8 = Ok c (if 8 <? 16 then [PoolSizeCorrected] else []) ∧
       first_addr c = 4096 ∧ bump_cursor c = 0 ∧ stack_size_ c = 0 ∧
       pool_size c = Z.max 1 (8 / 16) * 16 ∧
       Z.of_nat (length (freed_stack_ c)) = Z.max 1 (8 / 16) ∧
       16 ≤ pool_size c ∧ (16 ≤ 8 → 8 - 16 < pool_size c ≤ 8).
Proof.
  assert (0 < 16 < 2 ^ 63) as HS by lia.
  assert (0 ≤ 8 < 2 ^ 63) as HB by lia.
  assert (8 / 16 < 2 ^ 60) as Hn by (vm_compute; reflexivity).
  split; [exact HS|]. split; [exact HB|]. split; [exact Hn|].
  exact (cchunk_ctor 4096 16 8 HS HB Hn).
Defined.

Lemma set_next_next c : set_next c (next_ c) = c.
Proof. by destruct c. Qed.

(** [n] allocations while the bump cursor has [n] slots before it. *)
Lemma returns_bump b cs n : ∀ c k,
  wf c → next_ c = slot c k → (k + n ≤ nslots c)%nat →
  returns b (replicate n Allocate ++ cs) c
    = (slot c <$> seq k n) ++ returns b cs (set_next c (slot c (k + n))).
Proof.
  induction n as [|n IH]; intros c k Hwf Hnext Hk.
  - simpl. by rewrite Nat.add_0_r, <- Hnext, set_next_next.
  - pose proof (wf_max c Hwf) as Hmax. pose proof (wf_pool c Hwf) as Hpool.
    pose proof (wf_top c Hwf) as Htop. pose proof (wf_obj c Hwf) as Hobj.
    pose proof (wf_mem c Hwf) as Hmem.
    unfold slot in Hnext.
    assert (next_ c + obj_size_ c ≤ max_ c) as Hroom by nia.
    assert (ptr_add (next_ c) (obj_size_ c) = slot c (S k)) as Hadd.
    { rewrite ptr_add_small by nia. unfold slot. lia. }
    simpl. rewrite allocate_bump by lia. rewrite Hadd.
    set (c1 := set_next c (slot c (S k))).
    assert (allocate c = Ok (next_ c, c1) []) as Ha.
    { rewrite allocate_bump by lia. by rewrite Hadd. }
    destruct (allocate_wf c _ c1 [] Hwf Ha) as (_ & Hwf1 & _ & _).
    rewrite (IH c1 (S k) Hwf1); [| done | unfold nslots in *; simpl; lia].
    replace (S k + n)%nat with (k + S n)%nat by lia.
    change (slot c k) with (mem_ c + Z.of_nat k * obj_size_ c).
    rewrite <- Hnext. reflexivity.
Qed.

(** A full round of allocations from an arena whose cursor is at the first
    address and whose stack is empty. *)
Lemma returns_all_slots b c :
  wf c → next_ c = mem_ c → stack_size_ c = 0 →
  returns b (replicate (nslots c + 1) Allocate) c = all_slots c ++ [0].
Proof.
  intros Hwf Hnext Hstk. rewrite replicate_add.
  rewrite (returns_bump b _ (nslots c) c 0 Hwf); [| unfold slot; lia | lia].
  unfold all_slots. f_equal. simpl.
  rewrite allocate_exhausted; [done| |simpl; lia].
  simpl. rewrite (wf_max c Hwf), (wf_pool c Hwf). unfold slot. lia.
Qed.

(** X5.  A new arena hands out its slots in increasing address order: the
    first [max 1 (B / S)] calls of [allocate] return [m], [m + S],
    [m + 2 S], ... and the next call returns null. *)
Theorem fresh_arena_ascending (b : build) (m S B : Z) (c : t) :
  constructed m S B c →
  Z.of_nat (nslots c) = Z.max 1 (B / S) ∧
  returns b (replicate (nslots c + 1) Allocate) c
    = ((λ j : nat, m + Z.of_nat j * S) <$> seq 0 (nslots c)) ++ [0].
Proof.
  intros Hcons. pose proof (constructed_inv _ _ _ _ Hcons) as (Hwf & _).
  destruct Hcons as (log & Hc & HS & HB & Hm & Htop).
  destruct (cchunk_Ok m S B c log HS HB Hc)
    as (_ & Hmem & Hnext & _ & Hobj & Hstk & Hslots & _).
  split; [done|].
  rewrite (returns_all_slots b c Hwf) by congruence.
  unfold all_slots, slot. by rewrite Hmem, Hobj.
Qed.

Lemma fresh_arena_ascending_witness :
  constructed 4096 16 64 arena_16_64 ∧
  Z.of_nat (nslots arena_16_64) = Z.max 1 (64 / 16) ∧
  returns Debug (replicate (nslots arena_16_64 + 1) Allocate) arena_16_64
    = ((λ j : nat, 4096 + Z.of_nat j * 16) <$> seq 0 (nslots arena_16_64)) ++ [0].
Proof.
  split; [apply constructed_16_64|].
  apply (fresh_arena_ascending Debug 4096 16 64 arena_16_64 constructed_16_64).
Defined.

(** X6.  [reclaim] makes the whole arena available again: whatever was live
    or on the freed stack, the calls of [allocate] that follow return the
    addresses a new arena returns, every slot in increasing address order
    and then null. *)
Theorem reclaim_restores_all_slots (b : build) (m S B : Z) (c0 c : t)
    (cs : list call) (live : list Z) :
  constructed m S B c0 →
  arena_run b cs c0 [] = Reached c live →
  returns b (replicate (nslots c0 + 1) Allocate) (reclaim c)
    = returns b (replicate (nslots c0 + 1) Allocate) c0 ∧
  returns b (replicate (nslots c0 + 1) Allocate) (reclaim c)
    = ((λ j : nat, m + Z.of_nat j * S) <$> seq 0 (nslots c0)) ++ [0].
Proof.
  intros Hcons Hrun.
  destruct (fresh_arena_ascending b m S B c0 Hcons) as [_ Hfresh].
  destruct (constructed_run_inv b m S B c0 cs c live Hcons Hrun)
    as ((Hwf & Hsb & _) & _).
  destruct (reclaim_wf c Hwf) as (Hwfr & Hsbr & _).
  pose proof (same_buffer_trans _ _ _ Hsb Hsbr) as (Hmem & _ & Hobj & _ & Hn).
  assert (returns b (replicate (nslots c0 + 1) Allocate) (reclaim c)
          = all_slots (reclaim c) ++ [0]) as Hr.
  { rewrite <- Hn. by apply returns_all_slots. }
  assert (all_slots (reclaim c) = all_slots c0) as Hall.
  { apply same_buffer_all_slots. by eapply same_buffer_trans. }
  rewrite Hr, Hall, Hfresh.
  pose proof (constructed_inv _ _ _ _ Hcons) as (Hwf0 & _).
  destruct Hcons as (log & Hc & HS & HB & Hm & Htop).
  destruct (cchunk_Ok m S B c0 log HS HB Hc) as (_ & Hmem0 & _ & _ & Hobj0 & _).
  unfold all_slots, slot. by rewrite Hmem0, Hobj0.
Qed.

Lemma reclaim_restores_all_slots_witness :
  constructed 4096 16 64 arena_16_64 ∧
  arena_run Release [Allocate; Allocate; Deallocate 4096; Allocate] arena_16_64 []
    = Reached (set_stack (set_next arena_16_64 4144) [0; 0; 0; 0] 1) [4128; 4112] ∧
  returns Release (replicate (nslots arena_16_64 + 1) Allocate)
      (reclaim (set_stack (set_next arena_16_64 4144) [0; 0; 0; 0] 1))
    = returns Release (replicate (nslots arena_16_64 + 1) Allocate) arena_16_64 ∧
  returns Release (replicate (nslots arena_16_64 + 1) Allocate)
      (reclaim (set_stack (set_next arena_16_64 4144) [0; 0; 0; 0] 1))
    = ((λ j : nat, 4096 + Z.of_nat j * 16) <$> seq 0 (nslots arena_16_64)) ++ [0].
Proof.
  split; [apply constructed_16_64|]. split; [reflexivity|].
  apply (reclaim_restores_all_slots Release 4096 16 64 arena_16_64 _
           [Allocate; Allocate; Deallocate 4096; Allocate] [4128; 4112]
           constructed_16_64).
  reflexivity.
Defined.

(** X7.  [allocate] returns null exactly when the arena is full: after any
    run of a caller that respects ownership the call succeeds, and its
    result is null if and only if all [max 1 (B / S)] slots are live; a null
    result leaves the arena as it was. *)
Theorem allocate_null_iff_full (b : build) (m S B : Z) (c0 c : t)
    (cs : list call) (live : list Z) :
  constructed m S B c0 →
  arena_run b cs c0 [] = Reached c live →
  ∃ a c', allocate c = Ok (a, c') [] ∧
          (a = 0 ↔ Z.of_nat (length live) = Z.max 1 (B / S)) ∧
          (a = 0 → c' = c).
Proof.
  intros Hcons Hrun.
  destruct (constructed_run_inv b m S B c0 cs c live Hcons Hrun)
    as (Hinv & Hslots & _).
  pose proof Hinv as (Hwf & _ & Hp).
  destruct (allocate_total c Hwf) as (a & c' & Ha). exists a, c'. split; [done|].
  destruct (allocate_wf c a c' [] Hwf Ha) as (_ & _ & _ & Hcase).
  destruct (inv_count _ _ _ Hinv) as [Hcount Hle].
  pose proof (Permutation_length Hp) as Hlen.
  rewrite length_app in Hlen. unfold all_slots in Hlen.
  rewrite length_fmap, length_seq in Hlen.
  destruct Hcase as [(-> & -> & Hmax & Hstk)|Hperm].
  - split; [|done]. split; [intros _|done].
    destruct (wf_next c Hwf) as (k & Hk & Hnext).
    rewrite (wf_bumped c k Hwf Hnext) in Hcount.
    pose proof (wf_max c Hwf). pose proof (wf_pool c Hwf). pose proof (wf_obj c Hwf).
    assert (k = nslots c) by nia. lia.
  - assert (a ∈ all_slots c) as Hin.
    { rewrite <- Hp. apply elem_of_app. left. rewrite Hperm. apply list_elem_of_here. }
    apply list_elem_of_fmap in Hin as (j & -> & Hj). apply elem_of_seq in Hj.
    pose proof (slot_range c j Hwf ltac:(lia)) as Hr.
    apply Permutation_length in Hperm. simpl in Hperm.
    split; [|lia]. split; lia.
Qed.

Lemma allocate_null_iff_full_witness :
  constructed 4096 16 64 arena_16_64 ∧
  arena_run Release [Allocate; Allocate; Allocate; Allocate] arena_16_64 []
    = Reached arena_16_64_full [4144; 4128; 4112; 4096] ∧
  ∃ a c', allocate arena_16_64_full = Ok (a, c') [] ∧
          (a = 0 ↔ Z.of_nat (length [4144; 4128; 4112; 4096]) = Z.max 1 (64 / 16)) ∧
          (a = 0 → c' = arena_16_64_full).
Proof.
  split; [apply constructed_16_64|]. split; [reflexivity|].
  apply (allocate_null_iff_full Release 4096 16 64 arena_16_64 arena_16_64_full
           [Allocate; Allocate; Allocate; Allocate] [4144; 4128; 4112; 4096]
           constructed_16_64).
  reflexivity.
Defined.

(** X8.  In a release build an arena never faults under a caller that
    respects ownership: every run of [allocate], [deallocate] of live
    addresses and [reclaim] on a constructed arena runs to its end, with no
    access outside the freed-stack array. *)
Theorem arena_release_safe (m S B : Z) (c0 : t) (cs : list call) :
  constructed m S B c0 →
  ∃ c live, arena_run Release cs c0 [] = Reached c live ∨
            arena_run Release cs c0 [] = Misused.
Proof.
  intros Hcons.
  pose proof (arena_release_run_safe c0 cs c0 [] (constructed_inv _ _ _ _ Hcons)) as H.
  destruct (arena_run Release cs c0 []) as [c live| |f]; [| |done].
  - exists c, live. by left.
  - exists c0, []. by right.
Qed.

Lemma arena_release_safe_witness :
  constructed 4096 16 8 arena_16_8 ∧
  ∃ c live,
    arena_run Release [Allocate; Deallocate 4096; Allocate; Reclaim] arena_16_8 []
      = Reached c live ∨
    arena_run Release [Allocate; Deallocate 4096; Allocate; Reclaim] arena_16_8 []
      = Misused.
Proof.
  split; [apply constructed_16_8|].
  apply (arena_release_safe 4096 16 8 arena_16_8 _ constructed_16_8).
Defined.

(** X9.  The geometry of an arena is fixed at construction: no run of
    calls changes what [first_addr()], [pool_size()] and [mem()] return.
    [mem()] reports the object itself, the buffer and four bytes
    ([sizeof(int)]) for each entry of the freed stack, whose entries are
    eight-byte [size_t] values. *)
Theorem arena_geometry_fixed (b : build) (m S B : Z) (c0 c : t)
    (cs : list call) (live : list Z) :
  constructed m S B c0 →
  arena_run b cs c0 [] = Reached c live →
  first_addr c = m ∧
  pool_size c = Z.max 1 (B / S) * S ∧
  Z.of_nat (length (freed_stack_ c)) = Z.max 1 (B / S) ∧
  mem c = Ok (to_size_t (sizeof_cchunk + Z.max 1 (B / S) * S + 4 * Z.max 1 (B / S))) [].
Proof.
  intros Hcons Hrun.
  destruct (constructed_run_inv b m S B c0 cs c live Hcons Hrun)
    as ((Hwf & (Hmem & _) & _) & Hslots & Hpool & Hobj & HS).
  destruct Hcons as (log & Hc & HS' & HB & _).
  destruct (cchunk_Ok m S B c0 log HS' HB Hc) as (_ & Hmem0 & _).
  unfold first_addr, pool_size, nslots in *.
  split; [congruence|]. split; [done|]. split; [done|].
  unfold mem. rewrite Hobj. destruct (Z.eqb_spec S 0); [lia|].
  rewrite Hpool, Z.div_mul by lia.
  rewrite Z.mul_1_l, to_size_t_add_r, to_size_t_add_r, to_size_t_add_l.
  do 2 f_equal.
Qed.

Lemma arena_geometry_fixed_witness :
  constructed 4096 16 64 arena_16_64 ∧
  arena_run Release [Allocate; Allocate; Deallocate 4096; Allocate] arena_16_64 []
    = Reached (set_stack (set_next arena_16_64 4144) [0; 0; 0; 0] 1) [4128; 4112] ∧
  first_addr (set_stack (set_next arena_16_64 4144) [0; 0; 0; 0] 1) = 4096 ∧
  pool_size (set_stack (set_next arena_16_64 4144) [0; 0; 0; 0] 1)
    = Z.max 1 (64 / 16) * 16 ∧
  Z.of_nat (length (freed_stack_ (set_stack (set_next arena_16_64 4144) [0; 0; 0; 0] 1)))
    = Z.max 1 (64 / 16) ∧
  mem (set_stack (set_next arena_16_64 4144) [0; 0; 0; 0] 1)
    = Ok (to_size_t (sizeof_cchunk + Z.max 1 (64 / 16) * 16 + 4 * Z.max 1 (64 / 16))) [].
Proof.
  split; [apply constructed_16_64|]. split; [reflexivity|].
  apply (arena_geometry_fixed Release 4096 16 64 arena_16_64 _
           [Allocate; Allocate; Deallocate 4096; Allocate] [4128; 4112]
           constructed_16_64).
  reflexivity.
Defined.

Lemma to_unsigned_window d P :
  0 ≤ P → - (2 ^ 32 - P) ≤ d < 2 ^ 32 → to_unsigned d < P ↔ 0 ≤ d < P.
Proof.
  intros HP Hd. unfold to_unsigned.
  destruct (Z.le_gt_cases 0 d) as [Hpos|Hneg].
  - rewrite Z.mod_small by lia. lia.
  - assert (d mod 2 ^ 32 = d + 2 ^ 32) as ->; [|lia].
    symmetry. apply (Z.mod_unique_pos _ _ (-1)); lia.
Qed.

(** X10.  For an address less than 2^32 bytes above the buffer's first
    address and less than [2^32 - pool_size_] bytes below it, [contains]
    decides membership in the buffer: in a release build it returns true
    exactly for the addresses of [[mem_, mem_ + pool_size_)], and a debug
    build that returns gives the same answer. *)
Theorem contains_exact_near (c : t) (addr : Z) :
  wf c →
  mem_ c - (2 ^ 32 - pool_size_ c) ≤ addr < mem_ c + 2 ^ 32 →
  contains Release addr c
    = Ok (bool_decide (mem_ c ≤ addr < mem_ c + pool_size_ c)) [] ∧
  ∀ r log, contains Debug addr c = Ok r log →
           r = bool_decide (mem_ c ≤ addr < mem_ c + pool_size_ c).
Proof.
  intros Hwf Hnear.
  assert (0 ≤ pool_size_ c) as HP.
  { rewrite (wf_pool c Hwf). pose proof (wf_obj c Hwf). nia. }
  pose proof (to_unsigned_window (addr - mem_ c) (pool_size_ c) HP ltac:(lia)) as Hw.
  assert ((to_unsigned (addr - mem_ c) <? pool_size_ c)
          = bool_decide (mem_ c ≤ addr < mem_ c + pool_size_ c)) as Heq.
  { destruct (Z.ltb_spec (to_unsigned (addr - mem_ c)) (pool_size_ c)).
    - symmetry. apply bool_decide_eq_true. lia.
    - symmetry. apply bool_decide_eq_false. lia. }
  unfold contains. simpl. rewrite Heq. split; [done|].
  intros r log. destruct (mem_ c >=? addr); [|discriminate]. simpl. by intros [= <- _].
Qed.

Lemma contains_exact_near_witness :
  wf arena_16_64 ∧
  mem_ arena_16_64 - (2 ^ 32 - pool_size_ arena_16_64) ≤ 4160
    < mem_ arena_16_64 + 2 ^ 32 ∧
  contains Release 4160 arena_16_64
    = Ok (bool_decide (mem_ arena_16_64 ≤ 4160
                       < mem_ arena_16_64 + pool_size_ arena_16_64)) [] ∧
  ∀ r log, contains Debug 4160 arena_16_64 = Ok r log →
           r = bool_decide (mem_ arena_16_64 ≤ 4160
                            < mem_ arena_16_64 + pool_size_ arena_16_64).
Proof.
  assert (wf arena_16_64) as Hwf by apply (constructed_inv _ _ _ _ constructed_16_64).
  assert (mem_ arena_16_64 - (2 ^ 32 - pool_size_ arena_16_64) ≤ 4160
          < mem_ arena_16_64 + 2 ^ 32) as Hnear by (simpl; lia).
  split; [exact Hwf|]. split; [exact Hnear|].
  exact (contains_exact_near arena_16_64 4160 Hwf Hnear).
Defined.

End cchunk_facts.

Module cpool_facts.
Import cpool.

(** *** The array of arenas *)

Lemma omap_id_Some {A} (l : list A) : omap id (Some <$> l) = l.
Proof. induction l as [|x l IH]; [done|]. simpl. by f_equal. Qed.

Lemma omap_id_None {A} n : omap id (replicate n (@None A)) = [].
Proof. induction n as [|n IH]; [done|]. done. Qed.

Lemma arenas_layout cs n p :
  chunks_ p = (Some <$> cs) ++ replicate n None → arenas p = cs.
Proof.
  intros H. unfold arenas. rewrite H, omap_app, omap_id_Some, omap_id_None.
  apply app_nil_r.
Qed.

Lemma get_chunk_arena heap p i c :
  core heap p → arenas p !! i = Some c → get_chunk p i = Ok c [].
Proof.
  intros Hc Hi. pose proof (core_layout heap p Hc) as Hl.
  unfold get_chunk. rewrite Hl.
  rewrite lookup_app_l by (rewrite length_fmap; by eapply lookup_lt_Some).
  by rewrite list_lookup_fmap, Hi.
Qed.

Lemma get_chunk_Ok heap p i c log :
  core heap p → get_chunk p i = Ok c log → arenas p !! i = Some c ∧ log = [].
Proof.
  intros Hc. pose proof (core_layout heap p Hc) as Hl.
  unfold get_chunk. rewrite Hl.
  destruct (decide (i < length (arenas p))%nat) as [Hlt|Hge].
  - rewrite lookup_app_l by (by rewrite length_fmap).
    rewrite list_lookup_fmap.
    destruct (arenas p !! i) as [c1|] eqn:Hi; simpl; [|discriminate].
    by intros [= <- <-].
  - rewrite lookup_app_r by (rewrite length_fmap; lia).
    destruct (replicate _ None !! _) as [o|] eqn:Hr; [|discriminate].
    apply lookup_replicate in Hr as [-> _]. discriminate.
Qed.

Lemma set_chunk_arenas heap p i c' :
  core heap p → (i < length (arenas p))%nat →
  chunks_ (set_chunk p i c') =
    (Some <$> <[i := c']> (arenas p)) ++
      replicate (Z.to_nat (max_chunks_ p) - length (arenas p)) None ∧
  arenas (set_chunk p i c') = <[i := c']> (arenas p).
Proof.
  intros Hc Hi. pose proof (core_layout heap p Hc) as Hl.
  assert (chunks_ (set_chunk p i c') =
    (Some <$> <[i := c']> (arenas p)) ++
      replicate (Z.to_nat (max_chunks_ p) - length (arenas p)) None) as Heq.
  { unfold set_chunk. simpl. rewrite Hl at 1.
    rewrite insert_app_l by (by rewrite length_fmap).
    by rewrite list_fmap_insert. }
  split; [done|]. by eapply arenas_layout.
Qed.

Lemma set_chunk_same heap p i c :
  core heap p → arenas p !! i = Some c → set_chunk p i c = p.
Proof.
  intros Hc Hi. unfold set_chunk, set_chunks. destruct p as [chunks cur num mx obj csz].
  simpl in *. f_equal. apply list_insert_id.
  pose proof (core_layout heap _ Hc) as Hl. simpl in Hl. rewrite Hl.
  rewrite lookup_app_l by (rewrite length_fmap; by eapply lookup_lt_Some).
  by rewrite list_lookup_fmap, Hi.
Qed.

(** Replacing an arena by a later state of itself keeps [core]. *)
Lemma core_set_chunk heap p i c c' :
  core heap p → arenas p !! i = Some c →
  cchunk.wf c' → cchunk.same_buffer c c' →
  core heap (set_chunk p i c').
Proof.
  intros Hc Hi Hwf (Hm & _ & Ho & Hp & _).
  pose proof (lookup_lt_Some _ _ _ Hi) as Hlt.
  destruct (set_chunk_arenas heap p i c' Hc Hlt) as [Hl Ha].
  destruct Hc as [Hlay Hnum Hmax Hobj Hcs Har].
  split; rewrite ?Ha, ?length_insert; try done.
  intros j cj Hj. destruct (decide (j = i)) as [->|Hne].
  - rewrite list_lookup_insert_eq in Hj by done. injection Hj as <-.
    destruct (Har i c Hi) as (_ & Hh & Hos & Hps).
    rewrite Hm, Ho, Hp. done.
  - rewrite list_lookup_insert_ne in Hj by done. by apply Har.
Qed.

(** *** Available addresses of a pool *)

Lemma bind_insert_split {A B} (f : A → list B) (cs : list A) i c c' :
  cs !! i = Some c →
  cs ≫= f = (take i cs ≫= f) ++ f c ++ (drop (S i) cs ≫= f) ∧
  (<[i := c']> cs) ≫= f = (take i cs ≫= f) ++ f c' ++ (drop (S i) cs ≫= f).
Proof.
  intros Hi. pose proof (lookup_lt_Some _ _ _ Hi) as Hlt. split.
  - rewrite <- (take_drop_middle cs i c Hi) at 1. by rewrite bind_app, bind_cons.
  - rewrite insert_take_drop by done. by rewrite bind_app, bind_cons.
Qed.

Lemma bind_insert_cons {A B} (f : A → list B) (cs : list A) i c c' a :
  cs !! i = Some c → f c' ≡ₚ a :: f c → (<[i := c']> cs) ≫= f ≡ₚ a :: (cs ≫= f).
Proof.
  intros Hi Hf. destruct (bind_insert_split f cs i c c' Hi) as [-> ->].
  rewrite Hf. simpl. by rewrite <- Permutation_middle.
Qed.

Lemma bind_insert_uncons {A B} (f : A → list B) (cs : list A) i c c' a :
  cs !! i = Some c → f c ≡ₚ a :: f c' → cs ≫= f ≡ₚ a :: ((<[i := c']> cs) ≫= f).
Proof.
  intros Hi Hf. destruct (bind_insert_split f cs i c c' Hi) as [-> ->].
  rewrite Hf. simpl. by rewrite <- Permutation_middle.
Qed.

Lemma bind_insert_same {A B} (f : A → list B) (cs : list A) i c c' :
  cs !! i = Some c → f c' = f c → (<[i := c']> cs) ≫= f = cs ≫= f.
Proof.
  intros Hi Hf. destruct (bind_insert_split f cs i c c' Hi) as [-> ->]. by rewrite Hf.
Qed.

Lemma same_shape_set_chunk heap p i c c' :
  core heap p → arenas p !! i = Some c → cchunk.same_buffer c c' →
  same_shape p (set_chunk p i c').
Proof.
  intros Hc Hi Hsb. pose proof (lookup_lt_Some _ _ _ Hi) as Hlt.
  destruct (set_chunk_arenas heap p i c' Hc Hlt) as [_ Ha].
  repeat split; try done.
  - by rewrite Ha, length_insert.
  - unfold pool_slots. rewrite Ha. apply (bind_insert_same _ _ _ c); [done|].
    by apply cchunk_facts.same_buffer_all_slots.
Qed.

Lemma pool_slots_range heap p a :
  core heap p → a ∈ pool_slots p → 0 < a < 2 ^ 64.
Proof.
  intros Hc Ha. apply list_elem_of_bind in Ha as (c & Ha & Hin).
  apply list_elem_of_lookup in Hin as (i & Hi).
  destruct (core_arenas heap p Hc i c Hi) as (Hwf & _).
  apply list_elem_of_fmap in Ha as (j & -> & Hj). apply elem_of_seq in Hj.
  apply cchunk_facts.slot_range; [done|lia].
Qed.

Lemma inv_core_live_range heap p live a :
  inv_core heap p live → a ∈ live → 0 < a < 2 ^ 64.
Proof.
  intros (Hc & _ & Hsub) Ha. apply (pool_slots_range heap p); [done|].
  apply Hsub, elem_of_app. by right.
Qed.

(** *** allocate on one arena of the pool *)

Lemma allocate_at_Ok heap p i a p' log :
  core heap p → allocate_at p i = Ok (a, p') log →
  ∃ c c', arenas p !! i = Some c ∧ cchunk.allocate c = Ok (a, c') [] ∧
          p' = set_chunk p i c' ∧ log = [].
Proof.
  intros Hc H. unfold allocate_at in H.
  apply bind_Ok in H as (c & l1 & l2 & Hg & H & ->).
  apply (get_chunk_Ok heap) in Hg as [Hi ->]; [|done].
  apply bind_Ok in H as ([a1 c'] & l3 & l4 & Ha & H & ->).
  injection H as <- <- <-.
  destruct (core_arenas heap p Hc i c Hi) as (Hwf & _).
  destruct (cchunk_facts.allocate_wf _ _ _ _ Hwf Ha) as (-> & _).
  by exists c, c'.
Qed.

Lemma allocate_at_arena heap p i c a c' :
  core heap p → arenas p !! i = Some c → cchunk.allocate c = Ok (a, c') [] →
  allocate_at p i = Ok (a, set_chunk p i c') [].
Proof.
  intros Hc Hi Ha. unfold allocate_at.
  rewrite (get_chunk_arena heap p i c Hc Hi). simpl. by rewrite Ha.
Qed.

Lemma allocate_at_inv heap p live i a p' log :
  inv_core heap p live → allocate_at p i = Ok (a, p') log →
  log = [] ∧ same_shape p p' ∧
  ((a = 0 ∧ p' = p ∧ ∃ c, arenas p !! i = Some c ∧ cchunk.exhausted c) ∨
   (a ≠ 0 ∧ (a ∉ live) ∧ inv_core heap p' (a :: live))).
Proof.
  intros (Hc & Hnd & Hsub) H.
  destruct (allocate_at_Ok heap p i a p' log Hc H) as (c & c' & Hi & Ha & -> & ->).
  destruct (core_arenas heap p Hc i c Hi) as (Hwf & _).
  destruct (cchunk_facts.allocate_wf _ _ _ _ Hwf Ha) as (_ & Hwf' & Hsb & Hcase).
  pose proof (same_shape_set_chunk heap p i c c' Hc Hi Hsb) as Hshape.
  split; [done|]. split; [done|].
  destruct Hcase as [(-> & -> & Hex)|Hav].
  - left. split; [done|]. split; [by eapply set_chunk_same|]. by exists c.
  - right.
    pose proof (lookup_lt_Some _ _ _ Hi) as Hlt.
    destruct (set_chunk_arenas heap p i c' Hc Hlt) as [_ Har].
    assert (pool_avail p ≡ₚ a :: pool_avail (set_chunk p i c')) as Hperm.
    { unfold pool_avail. rewrite Har. by eapply bind_insert_uncons. }
    assert (a ∈ pool_avail p) as Hin by (rewrite Hperm; apply list_elem_of_here).
    assert (0 < a < 2 ^ 64) as Hr.
    { apply (pool_slots_range heap p); [done|]. apply Hsub, elem_of_app. by left. }
    split; [lia|]. split.
    { apply NoDup_app in Hnd as (_ & Hdis & _). by apply Hdis. }
    split; [by eapply core_set_chunk|]. split.
    + rewrite <- Permutation_middle. by rewrite app_comm_cons, <- Hperm.
    + intros x Hx. destruct Hshape as (_ & _ & _ & _ & _ & _ & ->).
      apply Hsub. rewrite <- Permutation_middle, app_comm_cons, <- Hperm in Hx. done.
Qed.

(** *** add_chunk *)

Lemma chunk_bytes_eq S :
  0 < S → let B := Z.max S DEFAULT_CHUNK_SIZE in
  chunk_bytes S = Z.max 1 (B / S) * S ∧ S ≤ chunk_bytes S ≤ B ∧ 1 ≤ B / S ≤ DEFAULT_CHUNK_SIZE.
Proof.
  intros HS B. unfold chunk_bytes. fold B.
  assert (S ≤ B) as HSB by (unfold B; lia).
  pose proof (Z.div_mod B S ltac:(lia)) as Hdm.
  pose proof (Z.mod_pos_bound B S HS) as Hmod.
  assert (1 ≤ B / S) as Hq by (apply Z.div_le_lower_bound; lia).
  assert (B / S ≤ DEFAULT_CHUNK_SIZE) as Hq'.
  { unfold B. destruct (Z.max_spec S DEFAULT_CHUNK_SIZE) as [[_ ->]|[_ ->]].
    - apply Z.div_le_upper_bound; [lia|]. unfold DEFAULT_CHUNK_SIZE in *. nia.
    - rewrite Z_div_same by lia. unfold DEFAULT_CHUNK_SIZE. lia. }
  rewrite Z.max_r by lia. repeat split; nia.
Qed.

(** The arena the pool creates in the buffer at [m]. *)
Lemma new_chunk_Ok heap S m :
  0 < S < 2 ^ 64 → heap_ok heap S → (∃ k, heap k = Some m) →
  ∃ cnew, cchunk.cchunk (Some m) S (Z.max S DEFAULT_CHUNK_SIZE) = Ok cnew [] ∧
          cchunk.wf cnew ∧ cchunk.avail cnew = cchunk.all_slots cnew ∧
          cchunk.mem_ cnew = m ∧ cchunk.next_ cnew = m ∧ cchunk.obj_size_ cnew = S ∧
          cchunk.pool_size_ cnew = chunk_bytes S ∧ cchunk.stack_size_ cnew = 0.
Proof.
  intros HS Hheap (k & Hk).
  destruct (chunk_bytes_eq S ltac:(lia)) as (Hcb & Hcb' & Hq).
  destruct (heap_range heap S Hheap k m Hk) as [Hm Htop].
  assert (0 ≤ Z.max S DEFAULT_CHUNK_SIZE < 2 ^ 64) as HB
    by (unfold DEFAULT_CHUNK_SIZE; lia).
  destruct (cchunk.cchunk (Some m) S (Z.max S DEFAULT_CHUNK_SIZE)) as [c log|f] eqn:Hc.
  - destruct (cchunk_facts.cchunk_Ok m S _ c log ltac:(lia) HB Hc)
      as (_ & Hmem & Hnext & _ & Hobj & Hstk & _ & Hps & Hlog).
    destruct (Z.ltb_spec (Z.max S DEFAULT_CHUNK_SIZE) S); [lia|]. subst log.
    rewrite <- Hcb in Hps.
    destruct (cchunk_facts.cchunk_wf m S _ c [] ltac:(lia) HB Hc Hm) as [Hwf Hav];
      [lia|].
    by exists c.
  - exfalso. unfold cchunk.cchunk in Hc.
    destruct (Z.eqb_spec S 0); [lia|].
    destruct (_ <? S); simpl in Hc; unfold new_array in Hc.
    + rewrite Z_div_same in Hc by lia. simpl in Hc. discriminate.
    + rewrite cchunk_facts.to_size_t_sub_mod in Hc by lia.
      destruct (Z.ltb_spec (8 * (Z.max S DEFAULT_CHUNK_SIZE / S)) (2 ^ 63)) as [|Hge];
        [simpl in Hc; discriminate|].
      unfold DEFAULT_CHUNK_SIZE in *. lia.
Qed.

(** The capacity of a new arena is the chunk budget rounded down to whole
    slots: the budget itself when the slot size divides it. *)
Lemma new_arena_capacity heap S m cnew log :
  0 < S < 2 ^ 64 → heap_ok heap S → (∃ k, heap k = Some m) →
  cchunk.cchunk (Some m) S (Z.max S DEFAULT_CHUNK_SIZE) = Ok cnew log →
  cchunk.pool_size_ cnew = chunk_bytes S ∧
  S ≤ chunk_bytes S ≤ Z.max S DEFAULT_CHUNK_SIZE ∧
  (Z.max S DEFAULT_CHUNK_SIZE mod S = 0 → chunk_bytes S = Z.max S DEFAULT_CHUNK_SIZE).
Proof.
  intros HS Hheap Hk Hc.
  destruct (new_chunk_Ok heap S m HS Hheap Hk) as (c & Hc' & _ & _ & _ & _ & _ & Hps & _).
  rewrite Hc' in Hc. injection Hc as <- <-.
  destruct (chunk_bytes_eq S ltac:(lia)) as (_ & Hcb & _).
  split; [done|]. split; [done|]. unfold chunk_bytes. lia.
Qed.

Lemma chunk_bytes_24 : chunk_bytes 24 = 1048560.
Proof. reflexivity. Qed.

Lemma core_length heap p :
  core heap p → length (chunks_ p) = Z.to_nat (max_chunks_ p).
Proof.
  intros Hc. pose proof (core_layout heap p Hc) as Hl. pose proof (core_num heap p Hc).
  pose proof (core_max heap p Hc). rewrite Hl at 1.
  rewrite length_app, length_fmap, length_replicate. lia.
Qed.

(** Storing a new arena in the first free element of the array. *)
Lemma store_new_chunk_spec heap p m :
  core heap p → heap_ok heap (obj_size_ p) →
  num_chunks_ p < max_chunks_ p → heap (length (arenas p)) = Some m →
  ∃ cnew p',
    store_new_chunk heap p (CHUNK_SIZE_ p) = Ok p' [] ∧
    cchunk.cchunk (Some m) (obj_size_ p) (Z.max (obj_size_ p) DEFAULT_CHUNK_SIZE)
      = Ok cnew [] ∧
    cchunk.avail cnew = cchunk.all_slots cnew ∧
    cchunk.next_ cnew = m ∧ cchunk.stack_size_ cnew = 0 ∧
    core heap p' ∧ arenas p' = arenas p ++ [cnew] ∧
    current_chunk_ p' = current_chunk_ p ∧ num_chunks_ p' = num_chunks_ p + 1 ∧
    max_chunks_ p' = max_chunks_ p ∧ obj_size_ p' = obj_size_ p.
Proof.
  intros Hc Hheap Hlt Hm.
  pose proof (core_obj heap p Hc) as Hobj. pose proof (core_num heap p Hc) as Hnum.
  pose proof (core_max heap p Hc) as Hmax. pose proof (core_layout heap p Hc) as Hlay.
  pose proof (core_chunk_size heap p Hc) as Hcs.
  pose proof (core_length heap p Hc) as Hlen.
  destruct (new_chunk_Ok heap (obj_size_ p) m Hobj Hheap ltac:(eauto))
    as (cnew & Hnew & Hwf & Hav & Hmem & Hnext & Hos & Hps & Hstk).
  set (n := length (arenas p)) in *.
  assert (Z.to_nat (num_chunks_ p) = n) as Hn by lia.
  exists cnew. eexists. unfold store_new_chunk.
  rewrite Hn, Hm, Hcs, Hnew. simpl.
  destruct (decide (n < length (chunks_ p))%nat) as [_|]; [|lia].
  split; [reflexivity|].
  assert (<[n := Some cnew]> (chunks_ p) =
            (Some <$> (arenas p ++ [cnew])) ++
              replicate (Z.to_nat (max_chunks_ p) - length (arenas p ++ [cnew])) None)
    as Hlay'.
  { rewrite Hlay at 1.
    rewrite insert_app_r_alt by (rewrite length_fmap; lia).
    rewrite length_fmap. fold n. rewrite Nat.sub_diag.
    replace (Z.to_nat (max_chunks_ p) - n)%nat
      with (S (Z.to_nat (max_chunks_ p) - length (arenas p ++ [cnew])))
      by (rewrite length_app; simpl; lia).
    simpl. rewrite fmap_app, <- app_assoc. done. }
  assert (arenas (mk (<[n := Some cnew]> (chunks_ p)) (current_chunk_ p)
                     (to_size_t (num_chunks_ p + 1)) (max_chunks_ p) (obj_size_ p)
                     (Z.max (obj_size_ p) DEFAULT_CHUNK_SIZE)) = arenas p ++ [cnew]) as Har.
  { by eapply arenas_layout. }
  rewrite (to_size_t_small (num_chunks_ p + 1)) in * by lia.
  do 4 (split; [done|]).
  split; [|by rewrite Har].
  split; simpl; rewrite ?Har; try done; try lia.
  - rewrite length_app. simpl. lia.
  - intros j cj Hj. apply lookup_app_Some in Hj as [Hj|[Hge Hj]].
    + by apply (core_arenas heap p Hc).
    + apply list_lookup_singleton_Some in Hj as [Hj <-].
      assert (j = n) as -> by (fold n in Hge; lia).
      rewrite Hmem, Hos, Hps. done.
Qed.

(** The copy loop of [add_chunk]. *)
Lemma copy_chunks_spec n : ∀ i (src dst : list (option cchunk.t)),
  (i + n ≤ length src)%nat → (i + n ≤ length dst)%nat →
  ∃ r, copy_chunks n i src dst = Ok r [] ∧ length r = length dst ∧
       ∀ j, r !! j = if decide (i ≤ j < i + n)%nat then src !! j else dst !! j.
Proof.
  induction n as [|n IH]; intros i src dst Hs Hd; simpl.
  - exists dst. split; [done|]. split; [done|]. intros j.
    destruct (decide _); [lia|done].
  - destruct (lookup_lt_is_Some_2 src i ltac:(lia)) as [x Hx]. rewrite Hx.
    destruct (decide (i < length dst)%nat); [|lia].
    destruct (IH (S i) src (<[i := x]> dst)) as (r & Hr & Hlen & Hlook);
      [lia|rewrite length_insert; lia|].
    exists r. split; [done|]. split; [by rewrite Hlen, length_insert|].
    intros j. rewrite Hlook.
    destruct (decide (S i ≤ j < S i + n)%nat), (decide (i ≤ j < i + S n)%nat);
      try done; try lia.
    + assert (j = i) as -> by lia. rewrite list_lookup_insert_eq by lia. done.
    + rewrite list_lookup_insert_ne by lia. done.
Qed.

(** [add_chunk]: when the array is full it first moves the pointers into an
    array twice as long; then it stores the new arena. *)
Lemma add_chunk_grow heap p :
  core heap p →
  num_chunks_ p < max_chunks_ p ∨ 1 ≤ max_chunks_ p < 2 ^ 32 →
  ∃ q, (∀ sz, add_chunk heap p sz = store_new_chunk heap q sz) ∧
       core heap q ∧ arenas q = arenas p ∧
       num_chunks_ q = num_chunks_ p ∧ num_chunks_ q < max_chunks_ q ∧
       obj_size_ q = obj_size_ p ∧ CHUNK_SIZE_ q = CHUNK_SIZE_ p ∧
       current_chunk_ q = current_chunk_ p ∧
       max_chunks_ q = (if num_chunks_ p <? max_chunks_ p
                        then max_chunks_ p else 2 * max_chunks_ p).
Proof.
  intros Hc Hroom. unfold add_chunk.
  destruct (Z.ltb_spec (num_chunks_ p) (max_chunks_ p)) as [Hlt|Hge].
  { exists p. by split_and!. }
  destruct Hroom as [|Hmax]; [lia|].
  pose proof (core_num heap p Hc) as Hnum. pose proof (core_max heap p Hc) as [Hle _].
  pose proof (core_layout heap p Hc) as Hlay. pose proof (core_length heap p Hc) as Hlen.
  assert (max_chunks_ p = num_chunks_ p) as Heq by lia.
  rewrite (to_size_t_small (max_chunks_ p * 2)) by lia.
  unfold new_array. destruct (Z.ltb_spec (8 * (max_chunks_ p * 2)) (2 ^ 63)); [|lia].
  simpl. rewrite Z.min_l by lia.
  destruct (copy_chunks_spec (Z.to_nat (max_chunks_ p)) 0 (chunks_ p)
              (replicate (Z.to_nat (max_chunks_ p * 2)) None))
    as (r & -> & Hrlen & Hr); [lia|rewrite length_replicate; lia|].
  simpl. destruct (Z.leb_spec (2 ^ 32) (max_chunks_ p)); [lia|].
  set (q := mk r (current_chunk_ p) (num_chunks_ p) (max_chunks_ p * 2)
               (obj_size_ p) (CHUNK_SIZE_ p)).
  assert (r = (Some <$> arenas p) ++
                replicate (Z.to_nat (max_chunks_ p * 2) - length (arenas p)) None) as Hr'.
  { apply list_eq. intros j. rewrite Hr.
    destruct (decide (0 ≤ j < 0 + Z.to_nat (max_chunks_ p))%nat) as [Hj|Hj].
    - rewrite Hlay at 1. rewrite !lookup_app_l by (rewrite length_fmap; lia). done.
    - rewrite lookup_app_r by (rewrite length_fmap; lia). rewrite length_fmap.
      destruct (decide (j < Z.to_nat (max_chunks_ p * 2))%nat).
      + rewrite !lookup_replicate_2 by lia. done.
      + rewrite !(proj1 (lookup_replicate_None _ _ _)) by lia. done. }
  assert (arenas q = arenas p) as Haq by (by eapply arenas_layout).
  assert (core heap q) as Hcq.
  { destruct Hc. split; simpl; rewrite ?Haq; try done; lia. }
  exists q. split.
  { intros sz. by destruct (store_new_chunk heap q sz). }
  split_and!; simpl; try done; lia.
Qed.

Lemma add_chunk_spec heap p m :
  core heap p → heap_ok heap (obj_size_ p) →
  num_chunks_ p < max_chunks_ p ∨ 1 ≤ max_chunks_ p < 2 ^ 32 →
  heap (length (arenas p)) = Some m →
  ∃ cnew p',
    add_chunk heap p (CHUNK_SIZE_ p) = Ok p' [] ∧
    cchunk.cchunk (Some m) (obj_size_ p) (Z.max (obj_size_ p) DEFAULT_CHUNK_SIZE)
      = Ok cnew [] ∧
    cchunk.avail cnew = cchunk.all_slots cnew ∧
    cchunk.next_ cnew = m ∧ cchunk.stack_size_ cnew = 0 ∧
    core heap p' ∧ arenas p' = arenas p ++ [cnew] ∧
    current_chunk_ p' = current_chunk_ p ∧ num_chunks_ p' = num_chunks_ p + 1 ∧
    max_chunks_ p' = (if num_chunks_ p <? max_chunks_ p
                      then max_chunks_ p else 2 * max_chunks_ p) ∧
    obj_size_ p' = obj_size_ p.
Proof.
  intros Hc Hheap Hroom Hm.
  destruct (add_chunk_grow heap p Hc Hroom)
    as (q & Hq & Hcq & Haq & Hnq & Hlt & Hoq & Hsq & Hcuq & Hmq).
  destruct (store_new_chunk_spec heap q m Hcq) as
    (cnew & p' & H1 & H2 & H3 & H4 & H5 & H6 & H7 & H8 & H9 & H10 & H11);
    [by rewrite Hoq|done|by rewrite Haq|].
  exists cnew, p'. rewrite Hq, <- Hsq, <- Hoq, <- Haq. split_and!; try done; congruence.
Qed.

(** Without a buffer from the allocator [add_chunk] ends in [BadAlloc]. *)
Lemma add_chunk_no_buffer heap p sz :
  core heap p →
  num_chunks_ p < max_chunks_ p ∨ 1 ≤ max_chunks_ p < 2 ^ 32 →
  heap (length (arenas p)) = None →
  add_chunk heap p sz = Err BadAlloc.
Proof.
  intros Hc Hroom Hm.
  destruct (add_chunk_grow heap p Hc Hroom)
    as (q & Hq & Hcq & Haq & Hnq & Hlt & Hoq & Hsq & Hcuq & Hmq).
  rewrite Hq. unfold store_new_chunk.
  pose proof (core_num heap q Hcq) as Hn. pose proof (core_obj heap q Hcq) as Ho.
  rewrite Hn, Nat2Z.id, Haq, Hm. unfold cchunk.cchunk.
  destruct (Z.eqb_spec (obj_size_ q) 0); [lia|].
  destruct (to_size_t (sz - sz mod obj_size_ q) <? obj_size_ q); reflexivity.
Qed.

Lemma cchunk_None S B c log : cchunk.cchunk None S B = Ok c log → False.
Proof.
  unfold cchunk.cchunk. destruct (S =? 0); [discriminate|].
  by destruct (_ <? S).
Qed.

(** [add_chunk] completes only when the allocator delivers the buffer. *)
Lemma add_chunk_heap heap p sz p' log :
  core heap p → add_chunk heap p sz = Ok p' log → is_Some (heap (length (arenas p))).
Proof.
  intros Hc H. pose proof (core_num heap p Hc) as Hnum.
  assert (∀ q l, num_chunks_ q = num_chunks_ p → obj_size_ q = obj_size_ p →
                 store_new_chunk heap q sz = Ok p' l →
                 is_Some (heap (length (arenas p)))) as Hstore.
  { intros q l Hq Hqo Hs. unfold store_new_chunk in Hs.
    apply bind_Ok in Hs as (c & l1 & l2 & Hs & _). rewrite Hq, Hnum, Nat2Z.id in Hs.
    destruct (heap (length (arenas p))); [done|]. by apply cchunk_None in Hs. }
  unfold add_chunk in H. destruct (_ <? _); [exact (Hstore p _ eq_refl eq_refl H)|].
  apply bind_Ok in H as (big & l1 & l2 & _ & H & _).
  apply bind_Ok in H as (big' & l3 & l4 & _ & H & _).
  destruct (_ <=? _); [discriminate|]. exact (Hstore (mk big' _ _ _ _ _) _ eq_refl eq_refl H).
Qed.

(** *** Slots of different arenas are different addresses *)

Lemma slot_in_buffer c a :
  cchunk.wf c → a ∈ cchunk.all_slots c →
  cchunk.mem_ c ≤ a < cchunk.mem_ c + cchunk.pool_size_ c.
Proof.
  intros Hwf Ha. apply list_elem_of_fmap in Ha as (j & -> & Hj).
  apply elem_of_seq in Hj. unfold cchunk.slot.
  pose proof (cchunk.wf_obj c Hwf). pose proof (cchunk.wf_pool c Hwf). nia.
Qed.

Lemma slots_NoDup heap S (cs : list cchunk.t) :
  heap_ok heap S →
  (∀ i c, cs !! i = Some c →
          cchunk.wf c ∧ heap i = Some (cchunk.mem_ c) ∧ cchunk.pool_size_ c = chunk_bytes S) →
  NoDup (cs ≫= cchunk.all_slots).
Proof.
  intros Hheap. induction cs as [|c cs IH] using rev_ind; intros Hcs.
  - apply NoDup_nil_2.
  - rewrite bind_app, bind_singleton. apply NoDup_app.
    destruct (Hcs (length cs) c) as (Hwf & Hh & Hps).
    { by rewrite lookup_app_r, Nat.sub_diag by lia. }
    split; [|split].
    + apply IH. intros i ci Hi. apply Hcs. by apply lookup_app_l_Some.
    + intros x Hx Hx'. apply list_elem_of_bind in Hx as (ci & Hx & Hin).
      apply list_elem_of_lookup in Hin as (i & Hi).
      pose proof (lookup_lt_Some _ _ _ Hi) as Hlt.
      destruct (Hcs i ci) as (Hwfi & Hhi & Hpsi); [by apply lookup_app_l_Some|].
      apply slot_in_buffer in Hx; [|done]. apply slot_in_buffer in Hx'; [|done].
      destruct (heap_disjoint heap S Hheap i (length cs) _ _ ltac:(lia) Hhi Hh); lia.
    + apply cchunk_facts.NoDup_all_slots, (cchunk.wf_obj c Hwf).
Qed.

Lemma pool_slots_NoDup heap p :
  core heap p → heap_ok heap (obj_size_ p) → NoDup (pool_slots p).
Proof.
  intros Hc Hheap. apply (slots_NoDup heap (obj_size_ p)); [done|].
  intros i c Hi. by destruct (core_arenas heap p Hc i c Hi) as (? & ? & _ & ?).
Qed.

(** With every arena untouched since construction or reclaim, the pool
    satisfies the invariant with no live address. *)
Lemma inv_core_fresh heap p :
  core heap p → heap_ok heap (obj_size_ p) → pool_avail p = pool_slots p →
  inv_core heap p [].
Proof.
  intros Hc Hheap Hav. split; [done|]. rewrite app_nil_r, Hav.
  split; [by eapply pool_slots_NoDup|done].
Qed.

Lemma add_chunk_inv heap p live m :
  inv_core heap p live → heap_ok heap (obj_size_ p) →
  num_chunks_ p < max_chunks_ p ∨ 1 ≤ max_chunks_ p < 2 ^ 32 →
  heap (length (arenas p)) = Some m →
  ∃ cnew p',
    add_chunk heap p (CHUNK_SIZE_ p) = Ok p' [] ∧
    cchunk.cchunk (Some m) (obj_size_ p) (Z.max (obj_size_ p) DEFAULT_CHUNK_SIZE)
      = Ok cnew [] ∧
    cchunk.avail cnew = cchunk.all_slots cnew ∧
    cchunk.next_ cnew = m ∧ cchunk.stack_size_ cnew = 0 ∧
    inv_core heap p' live ∧ arenas p' = arenas p ++ [cnew] ∧
    current_chunk_ p' = current_chunk_ p ∧ num_chunks_ p' = num_chunks_ p + 1 ∧
    max_chunks_ p' = (if num_chunks_ p <? max_chunks_ p
                      then max_chunks_ p else 2 * max_chunks_ p) ∧
    obj_size_ p' = obj_size_ p.
Proof.
  intros (Hc & Hnd & Hsub) Hheap Hroom Hm.
  destruct (add_chunk_spec heap p m Hc Hheap Hroom Hm)
    as (cnew & p' & H1 & H2 & H3 & H4 & H5 & H6 & H7 & H8 & H9 & H10 & H11).
  exists cnew, p'. split_and!; try done.
  assert (NoDup (pool_slots p')) as Hnd' by (apply (pool_slots_NoDup heap); by rewrite ?H11).
  unfold pool_slots in Hnd'. rewrite H7, bind_app, bind_singleton in Hnd'.
  apply NoDup_app in Hnd' as (_ & Hdis & Hnew).
  assert (pool_avail p' = pool_avail p ++ cchunk.all_slots cnew) as Hav.
  { unfold pool_avail. by rewrite H7, bind_app, bind_singleton, H3. }
  assert (pool_slots p' = pool_slots p ++ cchunk.all_slots cnew) as Hsl.
  { unfold pool_slots. by rewrite H7, bind_app, bind_singleton. }
  split; [done|]. rewrite Hav, Hsl. split.
  - rewrite <- app_assoc, (Permutation_app_comm (cchunk.all_slots cnew)), app_assoc.
    apply NoDup_app. split; [done|]. split; [|done].
    intros x Hx. by apply Hdis, Hsub.
  - intros x Hx. rewrite <- app_assoc, (Permutation_app_comm (cchunk.all_slots cnew)),
      app_assoc in Hx.
    apply elem_of_app in Hx as [Hx|Hx]; apply elem_of_app; auto.
Qed.

(** *** allocate *)

Lemma core_set_current heap p i : core heap p → core heap (set_current p i).
Proof. intros []. by split. Qed.

Lemma inv_core_set_current heap p live i :
  inv_core heap p live → inv_core heap (set_current p i) live.
Proof. intros (Hc & Hnd & Hsub). split; [by apply core_set_current|done]. Qed.

Lemma allocate_scan_inv heap live n : ∀ i p a p' log,
  inv_core heap p live → allocate_scan n i p = Ok (a, p') log →
  log = [] ∧ num_chunks_ p' = num_chunks_ p ∧ obj_size_ p' = obj_size_ p ∧
  ((a = 0 ∧ p' = p) ∨
   (a ≠ 0 ∧ (a ∉ live) ∧ pool_inv heap p' (a :: live))).
Proof.
  induction n as [|n IH]; intros i p a p' log Hinv H; simpl in H.
  - injection H as <- <- <-. split_and!; try done. by left.
  - apply bind_Ok in H as ([a1 p1] & l1 & l2 & Hat & H & ->).
    destruct (allocate_at_inv heap p live i a1 p1 l1 Hinv Hat)
      as (-> & Hshape & [(-> & -> & _)|(Hne & Hnl & Hinv1)]).
    + simpl in H. by apply (IH (S i)).
    + destruct (Z.eqb_spec a1 0); [done|]. injection H as <- <- <-.
      destruct Hshape as (_ & Hn & _ & Ho & _ & Hlen & _).
      split; [done|]. split; [done|]. split; [done|].
      right. split; [done|]. split; [done|].
      split; [by apply inv_core_set_current|]. simpl.
      destruct (allocate_at_Ok heap p i a1 p1 [] (proj1 Hinv) Hat) as (c & _ & Hi & _).
      apply lookup_lt_Some in Hi.
      change (arenas (set_current p1 i)) with (arenas p1). lia.
Qed.

(** [allocate] returns a non-null address that is not live, and keeps the
    invariant. *)
Lemma allocate_inv heap p live a p' log :
  heap_ok heap (obj_size_ p) →
  pool_inv heap p live → allocate heap p = Ok (a, p') log →
  a ≠ 0 ∧ (a ∉ live) ∧ pool_inv heap p' (a :: live) ∧ obj_size_ p' = obj_size_ p.
Proof.
  intros Hheap [Hinv Hcur] H. unfold allocate in H.
  apply bind_Ok in H as ([a1 p1] & l1 & l2 & Hat & H & ->).
  destruct (allocate_at_inv heap p live _ a1 p1 l1 Hinv Hat)
    as (-> & Hshape & [(-> & -> & _)|(Hne & Hnl & Hinv1)]).
  2:{ destruct (Z.eqb_spec a1 0); [done|]. injection H as <- <- <-.
      destruct Hshape as (Hc & _ & _ & Ho & _ & Hlen & _).
      split_and!; try done. split; [done|]. lia. }
  simpl in H.
  apply bind_Ok in H as ([a2 p2] & l3 & l4 & Hscan & H & ->).
  destruct (allocate_scan_inv heap live _ _ _ _ _ _ Hinv Hscan)
    as (-> & Hnum & Hobj & [(-> & ->)|(Hne & Hnl & Hinv2)]).
  2:{ destruct (Z.eqb_spec a2 0); [done|]. injection H as <- <- <-.
      split_and!; done. }
  simpl in H. destruct (Z.leb_spec (2 ^ 32) (num_chunks_ p)) as [|Hlt]; [discriminate|].
  apply bind_Ok in H as (p3 & l5 & l6 & Hadd & H & ->).
  pose proof Hinv as (Hc & _).
  destruct (add_chunk_heap heap p _ p3 l5 Hc Hadd) as [m Hm].
  pose proof (core_num heap p Hc) as Hn. pose proof (core_max heap p Hc) as [Hle _].
  destruct (add_chunk_inv heap p live m Hinv Hheap) as
    (cnew & p3' & H1 & H2 & H3 & H4 & H5 & H6 & H7 & H8 & H9 & H10 & H11);
    [lia|done|].
  rewrite H1 in Hadd. injection Hadd as <- <-.
  set (p4 := set_current p3' _) in H.
  destruct (allocate_at_inv heap p4 live _ a p' l6
              (inv_core_set_current heap p3' live _ H6) H)
      as (-> & Hshape4 & [(-> & -> & c & Hi & Hex)|(Hne & Hnl & Hinv1)]).
  - exfalso. subst p4. simpl in Hi.
    change (arenas (set_current p3' _)) with (arenas p3') in Hi.
    rewrite H9, H7, Hn in Hi.
    rewrite to_size_t_small in Hi by lia.
    replace (Z.to_nat (Z.of_nat (length (arenas p)) + 1 - 1)) with (length (arenas p))
      in Hi by lia.
    rewrite lookup_app_r, Nat.sub_diag in Hi by lia. injection Hi as <-.
    destruct Hex as [Hex _].
    destruct H6 as (Hc3 & _).
    destruct (core_arenas heap p3' Hc3 (length (arenas p)) cnew) as (Hwf & _).
    { by rewrite H7, lookup_app_r, Nat.sub_diag by lia. }
    pose proof (cchunk.wf_max cnew Hwf). pose proof (cchunk.wf_pool cnew Hwf).
    pose proof (cchunk.wf_one cnew Hwf). pose proof (cchunk.wf_obj cnew Hwf).
    destruct (cchunk.wf_next cnew Hwf) as (k & Hk & Hnext).
    assert (cchunk.mem_ cnew = m) as Hmem.
    { destruct (core_arenas heap p3' Hc3 (length (arenas p)) cnew) as (_ & Hh & _).
      { by rewrite H7, lookup_app_r, Nat.sub_diag by lia. }
      congruence. }
    nia.
  - destruct Hshape4 as (Hcu & _ & _ & Ho & _ & Hlen & _).
    split_and!; try done; [|subst p4; simpl in *; congruence].
    split; [done|]. rewrite Hcu, Hlen. subst p4. simpl.
    change (arenas (set_current p3' _)) with (arenas p3').
    rewrite H9, H7, Hn, length_app. rewrite to_size_t_small by lia. simpl. lia.
Qed.

Lemma allocate_at_exhausted heap p j c :
  core heap p → arenas p !! j = Some c → cchunk.exhausted c →
  allocate_at p j = Ok (0, p) [].
Proof.
  intros Hc Hj [Hge Hz].
  rewrite (allocate_at_arena heap p j c 0 c Hc Hj)
    by (apply cchunk_facts.allocate_exhausted; lia).
  by rewrite (set_chunk_same heap p j c).
Qed.

Lemma allocate_at_room heap p live k c :
  inv_core heap p live → arenas p !! k = Some c → ¬ cchunk.exhausted c →
  ∃ a c', cchunk.allocate c = Ok (a, c') [] ∧ a ≠ 0 ∧
          allocate_at p k = Ok (a, set_chunk p k c') [].
Proof.
  intros Hinv Hk Hroom. pose proof Hinv as (Hc & _).
  destruct (core_arenas heap p Hc k c Hk) as (Hwf & _).
  destruct (cchunk_facts.allocate_total c Hwf) as (a & c' & Ha).
  pose proof (allocate_at_arena heap p k c a c' Hc Hk Ha) as Hat.
  exists a, c'. split; [done|]. split; [|done].
  destruct (allocate_at_inv heap p live k a _ [] Hinv Hat)
    as (_ & _ & [(_ & _ & c1 & Hk1 & Hex)|(Hne & _)]); [|done].
  rewrite Hk in Hk1. by injection Hk1 as <-.
Qed.

Lemma allocate_scan_none heap p n : ∀ i,
  core heap p → (i + n ≤ length (arenas p))%nat →
  (∀ j c, (i ≤ j < i + n)%nat → arenas p !! j = Some c → cchunk.exhausted c) →
  allocate_scan n i p = Ok (0, p) [].
Proof.
  induction n as [|n IH]; intros i Hc Hlen Hex; simpl; [done|].
  destruct (lookup_lt_is_Some_2 (arenas p) i ltac:(lia)) as [c Hi].
  rewrite (allocate_at_exhausted heap p i c Hc Hi) by (apply (Hex i); [lia|done]).
  simpl. rewrite (IH (S i)); [done|done|lia|]. intros j cj Hj. apply Hex. lia.
Qed.

Lemma allocate_scan_found heap p live n : ∀ i k c,
  inv_core heap p live → (i ≤ k < i + n)%nat →
  arenas p !! k = Some c → ¬ cchunk.exhausted c →
  (∀ j cj, (i ≤ j < k)%nat → arenas p !! j = Some cj → cchunk.exhausted cj) →
  ∃ a c', cchunk.allocate c = Ok (a, c') [] ∧ a ≠ 0 ∧
          allocate_scan n i p = Ok (a, set_current (set_chunk p k c') k) [].
Proof.
  induction n as [|n IH]; intros i k c Hinv Hik Hk Hroom Hbefore; [lia|].
  pose proof Hinv as (Hc & _). simpl.
  destruct (decide (i = k)) as [->|Hne].
  - destruct (allocate_at_room heap p live k c Hinv Hk Hroom) as (a & c' & Ha & Hnz & ->).
    exists a, c'. split; [done|]. split; [done|]. simpl.
    by destruct (Z.eqb_spec a 0).
  - pose proof (lookup_lt_Some _ _ _ Hk) as Hlt.
    destruct (lookup_lt_is_Some_2 (arenas p) i ltac:(lia)) as [ci Hi].
    rewrite (allocate_at_exhausted heap p i ci Hc Hi) by (apply (Hbefore i); [lia|done]).
    simpl. destruct (IH (S i) k c Hinv ltac:(lia) Hk Hroom) as (a & c' & Ha & Hnz & ->).
    { intros j cj Hj. apply Hbefore. lia. }
    by exists a, c'.
Qed.

(** *** deallocate *)

Lemma deallocate_scan_Some heap b a p n : ∀ i p' log,
  core heap p → deallocate_scan b a n i p = Ok (Some p') log →
  ∃ k c c', arenas p !! k = Some c ∧ claims c a ∧
            cchunk.deallocate b a c = Ok c' log ∧ p' = set_chunk p k c'.
Proof.
  induction n as [|n IH]; intros i p' log Hc H; simpl in H; [discriminate|].
  apply bind_Ok in H as (c & l1 & l2 & Hg & H & ->).
  apply (get_chunk_Ok heap) in Hg as [Hi ->]; [|done].
  destruct (Z.ltb_spec (to_unsigned (a - cchunk.first_addr c)) (cchunk.pool_size c)).
  - apply bind_Ok in H as (c' & l3 & l4 & Hd & H & ->). injection H as <- <-.
    exists i, c, c'. rewrite app_nil_r. done.
  - by apply (IH (S i)).
Qed.

Lemma deallocate_scan_None heap b a p n : ∀ i,
  core heap p → (i + n ≤ length (arenas p))%nat →
  (∀ j c, (i ≤ j < i + n)%nat → arenas p !! j = Some c → ¬ claims c a) →
  deallocate_scan b a n i p = Ok None [].
Proof.
  induction n as [|n IH]; intros i Hc Hlen Hno; simpl; [done|].
  destruct (lookup_lt_is_Some_2 (arenas p) i ltac:(lia)) as [c Hi].
  rewrite (get_chunk_arena heap p i c Hc Hi). simpl.
  pose proof (Hno i c ltac:(lia) Hi) as Hn. unfold claims in Hn.
  destruct (Z.ltb_spec (to_unsigned (a - cchunk.first_addr c)) (cchunk.pool_size c));
    [done|].
  rewrite (IH (S i)); [done|done|lia|]. intros j cj Hj. apply Hno. lia.
Qed.

Lemma deallocate_scan_log heap b a p n : ∀ i log,
  core heap p → deallocate_scan b a n i p = Ok None log → log = [].
Proof.
  induction n as [|n IH]; intros i log Hc H; simpl in H; [by injection H|].
  apply bind_Ok in H as (c & l1 & l2 & Hg & H & ->).
  apply (get_chunk_Ok heap) in Hg as [Hi ->]; [|done].
  destruct (_ <? _).
  - apply bind_Ok in H as (c' & l3 & l4 & Hd & H & ->). discriminate.
  - by apply (IH (S i)).
Qed.

Lemma deallocate_inv heap b p live a p' log :
  pool_inv heap p live → a ∈ live → deallocate b a p = Ok p' log →
  pool_inv heap p' (filter (λ x, x ≠ a) live) ∧ obj_size_ p' = obj_size_ p.
Proof.
  intros [Hinv Hcur] Ha H. pose proof Hinv as (Hc & Hnd & Hsub).
  pose proof (inv_core_live_range heap p live a Hinv Ha) as Hr.
  assert (NoDup live) as Hndl by (by apply NoDup_app in Hnd as (_ & _ & ?)).
  pose proof (live_remove live a Hndl Ha) as Hlive.
  unfold deallocate in H. apply bind_Ok in H as (r & l1 & l2 & Hscan & H & ->).
  destruct r as [p1|].
  - injection H as <- <-.
    destruct (deallocate_scan_Some heap b a p _ _ _ _ Hc Hscan)
      as (k & c & c' & Hk & _ & Hd & ->).
    destruct (core_arenas heap p Hc k c Hk) as (Hwf & _).
    destruct (cchunk_facts.deallocate_wf b a c c' l1 Hwf ltac:(lia) Hd)
      as (Hwf' & Hsb & Hav).
    destruct (same_shape_set_chunk heap p k c c' Hc Hk Hsb)
      as (Hcu & _ & _ & Ho & _ & Hlen & Hsl).
    pose proof (lookup_lt_Some _ _ _ Hk) as Hlt.
    destruct (set_chunk_arenas heap p k c' Hc Hlt) as [_ Har].
    assert (pool_avail (set_chunk p k c') ≡ₚ a :: pool_avail p) as Hperm.
    { unfold pool_avail. rewrite Har. by eapply bind_insert_cons. }
    split; [|done]. split; [|lia]. split; [by eapply core_set_chunk|].
    assert (pool_avail (set_chunk p k c') ++ filter (λ x, x ≠ a) live
              ≡ₚ pool_avail p ++ live) as Hall.
    { rewrite Hperm. rewrite Hlive at 2. simpl. apply Permutation_middle. }
    split; [by rewrite Hall|]. intros x Hx. rewrite Hsl. apply Hsub. by rewrite <- Hall.
  - destruct (_ <=? _); [discriminate|]. injection H as <- <-.
    split; [|done]. split; [|done]. split; [done|]. split.
    + rewrite Hlive in Hnd. rewrite <- Permutation_middle in Hnd.
      by apply NoDup_cons in Hnd as [_ ?].
    + intros x Hx. apply Hsub. apply elem_of_app in Hx as [Hx|Hx]; apply elem_of_app;
        [by left|right]. by apply list_elem_of_filter in Hx as [_ ?].
Qed.

(** *** reclaim *)

Lemma reclaim_from_spec heap n : ∀ i p,
  core heap p → (i + n ≤ length (arenas p))%nat →
  ∃ p', reclaim_from n i p = Ok p' [] ∧ core heap p' ∧
        same_shape p p' ∧ length (arenas p') = length (arenas p) ∧
        ∀ j, arenas p' !! j =
             if decide (i ≤ j < i + n)%nat
             then cchunk.reclaim <$> arenas p !! j else arenas p !! j.
Proof.
  induction n as [|n IH]; intros i p Hc Hlen; simpl.
  - exists p. split_and!; try done. intros j. destruct (decide _); [lia|done].
  - destruct (lookup_lt_is_Some_2 (arenas p) i ltac:(lia)) as [c Hi].
    rewrite (get_chunk_arena heap p i c Hc Hi). simpl.
    destruct (core_arenas heap p Hc i c Hi) as (Hwf & _).
    destruct (cchunk_facts.reclaim_wf c Hwf) as (Hwf' & Hsb & _).
    pose proof (core_set_chunk heap p i c _ Hc Hi Hwf' Hsb) as Hc1.
    pose proof (same_shape_set_chunk heap p i c _ Hc Hi Hsb) as Hsh1.
    destruct (set_chunk_arenas heap p i (cchunk.reclaim c) Hc ltac:(lia)) as [_ Har].
    destruct (IH (S i) (set_chunk p i (cchunk.reclaim c)) Hc1)
      as (p' & -> & Hc' & Hsh & Hl & Hlook).
    { rewrite Har, length_insert. lia. }
    exists p'. split; [done|]. split; [done|]. split.
    { destruct Hsh1 as (?&?&?&?&?&?&?), Hsh as (?&?&?&?&?&?&?).
      repeat split; congruence. }
    split; [by rewrite Hl, Har, length_insert|].
    intros j. rewrite Hlook, Har.
    destruct (decide (S i ≤ j < S i + n)%nat), (decide (i ≤ j < i + S n)%nat);
      try lia.
    + by rewrite list_lookup_insert_ne by lia.
    + assert (j = i) as -> by lia. rewrite list_lookup_insert_eq by lia. by rewrite Hi.
    + by rewrite list_lookup_insert_ne by lia.
Qed.

Lemma reclaim_spec heap p :
  core heap p →
  ∃ p', reclaim p = Ok p' [] ∧ core heap p' ∧ same_shape p p' ∧
        arenas p' = cchunk.reclaim <$> arenas p.
Proof.
  intros Hc. pose proof (core_num heap p Hc) as Hn. unfold reclaim.
  destruct (reclaim_from_spec heap (Z.to_nat (num_chunks_ p)) 0 p Hc ltac:(lia))
    as (p' & Hr & Hc' & Hsh & Hl & Hlook).
  exists p'. split_and!; try done. apply list_eq. intros j.
  rewrite Hlook, list_lookup_fmap. destruct (decide _) as [|Hj]; [done|].
  rewrite lookup_ge_None_2 by lia. done.
Qed.

Lemma reclaim_inv heap p live p' log :
  heap_ok heap (obj_size_ p) → pool_inv heap p live → reclaim p = Ok p' log →
  pool_inv heap p' [] ∧ obj_size_ p' = obj_size_ p.
Proof.
  intros Hheap [(Hc & _) Hcur] H.
  destruct (reclaim_spec heap p Hc) as (p1 & Hr & Hc1 & Hsh & Har).
  rewrite Hr in H. injection H as <- <-.
  destruct Hsh as (Hcu & _ & _ & Ho & _ & Hlen & Hsl).
  split; [|done]. split; [|lia].
  apply inv_core_fresh; [done|by rewrite Ho|].
  unfold pool_avail, pool_slots. rewrite Har.
  assert (Forall cchunk.wf (arenas p)) as Hwf.
  { apply Forall_lookup. intros i c Hi. by destruct (core_arenas heap p Hc i c Hi). }
  clear -Hwf. induction Hwf as [|c cs Hw _ IH]; [done|].
  rewrite fmap_cons, !bind_cons. f_equal; [|done].
  destruct (cchunk_facts.reclaim_wf c Hw) as (_ & Hsb & ->).
  symmetry. by apply cchunk_facts.same_buffer_all_slots.
Qed.

(** *** The constructor *)

Lemma add_chunks_spec heap n : ∀ p p' log,
  core heap p → heap_ok heap (obj_size_ p) → pool_avail p = pool_slots p →
  num_chunks_ p + Z.of_nat n ≤ max_chunks_ p →
  add_chunks heap n p = Ok p' log →
  log = [] ∧ core heap p' ∧ pool_avail p' = pool_slots p' ∧
  num_chunks_ p' = num_chunks_ p + Z.of_nat n ∧ obj_size_ p' = obj_size_ p ∧
  max_chunks_ p' = max_chunks_ p.
Proof.
  induction n as [|n IH]; intros p p' log Hc Hheap Hav Hle H; simpl in H.
  - injection H as <- <-. split_and!; try done. lia.
  - apply bind_Ok in H as (p1 & l1 & l2 & Hadd & H & ->).
    destruct (add_chunk_heap heap p _ p1 l1 Hc Hadd) as [m Hm].
    destruct (add_chunk_spec heap p m Hc Hheap ltac:(lia) Hm)
      as (cnew & p1' & H1 & H2 & H3 & H4 & H5 & H6 & H7 & H8 & H9 & H10 & H11).
    rewrite H1 in Hadd. injection Hadd as <- <-.
    destruct (Z.ltb_spec (num_chunks_ p) (max_chunks_ p)); [|lia].
    destruct (IH p1' p' l2 H6) as (-> & Hc' & Hav' & Hn' & Ho' & Hm').
    + by rewrite H11.
    + unfold pool_avail, pool_slots in *. by rewrite H7, !bind_app, !bind_singleton, Hav, H3.
    + lia.
    + done.
    + split_and!; try done; lia.
Qed.

Lemma to_int_le n : 0 ≤ n → to_int n ≤ n.
Proof.
  intros Hn. unfold to_int. pose proof (Z.mod_le n (2 ^ 32) Hn ltac:(lia)).
  destruct (_ <? _); lia.
Qed.

(** A constructed pool satisfies the invariant, with no live address. *)
Lemma cpool_inv heap S n p log :
  heap_ok heap S → 0 < S < 2 ^ 64 → 0 ≤ n < 2 ^ 64 →
  cpool heap S n = Ok p log →
  log = [] ∧ pool_inv heap p [] ∧ obj_size_ p = S ∧
  max_chunks_ p = n ∧ num_chunks_ p = Z.max 0 (to_int n) ∧ current_chunk_ p = 0%nat.
Proof.
  intros Hheap HS Hn H. unfold cpool, init in H. simpl in H.
  apply bind_Ok in H as (chunks & l1 & l2 & Hnew & H & ->).
  apply new_array_Ok in Hnew as (-> & -> & Hsz).
  apply bind_Ok in H as (p2 & l3 & l4 & Hadd & H & ->).
  apply bind_Ok in H as (c0 & l5 & l6 & Hget & H & ->).
  injection H as <- <-.
  set (p1 := mk _ _ _ _ _ _) in Hadd.
  assert (arenas p1 = []) as Har1.
  { apply (arenas_layout [] (Z.to_nat n)). done. }
  assert (core heap p1) as Hc1.
  { split; simpl; rewrite ?Har1; simpl; try done; try lia.
    by rewrite Nat.sub_0_r. }
  pose proof (to_int_le n ltac:(lia)) as Hint.
  destruct (add_chunks_spec heap (Z.to_nat (to_int n)) p1 p2 l3 Hc1 Hheap) as
    (-> & Hc2 & Hav & Hnum & Hobj & Hmax);
    [by unfold pool_avail, pool_slots; rewrite Har1|simpl; lia|done|].
  apply (get_chunk_Ok heap) in Hget as [Hi ->]; [|done].
  apply lookup_lt_Some in Hi.
  split; [done|]. split; [|subst p1; simpl in *; split_and!; try done; lia].
  split; [|exact Hi]. apply inv_core_set_current.
  apply inv_core_fresh; [done|by rewrite Hobj|done].
Qed.

(** *** Pools under callers that respect ownership *)

Lemma pool_run_inv heap b S cs : ∀ p live p' live',
  heap_ok heap S →
  pool_inv heap p live ∧ obj_size_ p = S →
  pool_run heap b cs p live = Reached p' live' →
  pool_inv heap p' live' ∧ obj_size_ p' = S.
Proof.
  intros p live p' live' Hheap.
  apply (run_invariant _ _ _ (λ p live, pool_inv heap p live ∧ obj_size_ p = S)).
  clear p live p' live'. intros cl p live p' live' [Hinv Ho] Hstep.
  destruct cl as [|a|]; simpl in Hstep.
  - destruct (allocate heap p) as [[a p1] log|] eqn:Ha; [|discriminate].
    injection Hstep as <- <-.
    destruct (allocate_inv heap p live a p1 log ltac:(by rewrite Ho) Hinv Ha)
      as (Hne & _ & Hinv' & Ho').
    destruct (Z.eqb_spec a 0); [done|]. split; [done|congruence].
  - destruct (decide (a ∈ live)) as [Hin|]; [|discriminate].
    destruct (deallocate b a p) as [p1 log|] eqn:Hd; [|discriminate].
    injection Hstep as <- <-.
    destruct (deallocate_inv heap b p live a p1 log Hinv Hin Hd) as [Hinv' Ho'].
    split; [done|congruence].
  - destruct (reclaim p) as [p1 log|] eqn:Hr; [|discriminate].
    injection Hstep as <- <-.
    destruct (reclaim_inv heap p live p1 log ltac:(by rewrite Ho) Hinv Hr) as [Hinv' Ho'].
    split; [done|congruence].
Qed.

Lemma heap_4MiB_ok : heap_ok heap_4MiB (2 ^ 19).
Proof.
  assert (chunk_bytes (2 ^ 19) = 2 ^ 20) as Hb by reflexivity.
  split; rewrite Hb; unfold heap_4MiB.
  - intros k m. destruct (Nat.ltb_spec k 4); [|discriminate]. intros [= <-]. lia.
  - intros i j mi mj Hne.
    destruct (Nat.ltb_spec i 4), (Nat.ltb_spec j 4); try discriminate.
    intros [= <-] [= <-]. lia.
Qed.

Lemma pool_2slots_constructed : pool_constructed heap_4MiB (2 ^ 19) 1 pool_2slots.
Proof. exists []. split; [reflexivity|]. split; [apply heap_4MiB_ok|]. lia. Qed.

Lemma pool_constructed_inv heap S n p :
  pool_constructed heap S n p → pool_inv heap p [] ∧ obj_size_ p = S.
Proof.
  intros (log & Hp & Hheap & HS & Hn).
  by destruct (cpool_inv heap S n p log Hheap HS Hn Hp) as (_ & ? & ? & _).
Qed.

(** The slowest path of [allocate]: every arena is exhausted. *)
Lemma allocate_fresh_arena heap p live cur m :
  pool_inv heap p live → heap_ok heap (obj_size_ p) → num_chunks_ p < 2 ^ 32 →
  arenas p !! current_chunk_ p = Some cur → cchunk.exhausted cur →
  (∀ j cj, arenas p !! j = Some cj → cchunk.exhausted cj) →
  heap (length (arenas p)) = Some m →
  ∃ cnew p',
    cchunk.cchunk (Some m) (obj_size_ p) (Z.max (obj_size_ p) DEFAULT_CHUNK_SIZE)
      = Ok cnew [] ∧
    allocate heap p = Ok (m, p') [] ∧ m ≠ 0 ∧
    arenas p' = arenas p ++ [cchunk.set_next cnew (m + obj_size_ p)] ∧
    current_chunk_ p' = length (arenas p) ∧
    num_chunks_ p' = num_chunks_ p + 1 ∧
    max_chunks_ p' = (if num_chunks_ p <? max_chunks_ p
                      then max_chunks_ p else 2 * max_chunks_ p) ∧
    cchunk.stack_size_ cnew = 0.
Proof.
  intros [Hinv Hcur] Hheap Hnum Hcu Hex Hall Hm. pose proof Hinv as (Hc & _).
  pose proof (core_num heap p Hc) as Hn. pose proof (core_max heap p Hc) as [Hle _].
  destruct (add_chunk_inv heap p live m Hinv Hheap ltac:(lia) Hm)
    as (cnew & p3 & H1 & H2 & H3 & H4 & H5 & H6 & H7 & H8 & H9 & H10 & H11).
  pose proof H6 as (Hc3 & _).
  set (n := length (arenas p)) in *.
  assert (arenas p3 !! n = Some cnew) as Hnew.
  { rewrite H7. subst n. by rewrite lookup_app_r, Nat.sub_diag by lia. }
  destruct (core_arenas heap p3 Hc3 n cnew Hnew) as (Hwf & Hh & Ho & Hps).
  assert (cchunk.mem_ cnew = m) as Hmem by congruence.
  pose proof (cchunk.wf_max cnew Hwf). pose proof (cchunk.wf_pool cnew Hwf).
  pose proof (cchunk.wf_one cnew Hwf). pose proof (cchunk.wf_obj cnew Hwf).
  pose proof (cchunk.wf_top cnew Hwf). pose proof (cchunk.wf_mem cnew Hwf).
  assert (cchunk.allocate cnew = Ok (m, cchunk.set_next cnew (m + obj_size_ p)) [])
    as Ha.
  { rewrite cchunk_facts.allocate_bump by nia.
    rewrite ptr_add_small by nia. rewrite H4, Ho, H11. done. }
  set (p4 := set_current p3 n).
  assert (core heap p4) as Hc4 by (by apply core_set_current).
  exists cnew, (set_chunk p4 n (cchunk.set_next cnew (m + obj_size_ p))).
  split; [done|]. split; [|split; [lia|]].
  + unfold allocate.
    rewrite (allocate_at_exhausted heap p _ cur Hc Hcu Hex). simpl.
    rewrite (allocate_scan_none heap p); [|done|lia|].
    2:{ intros j cj _. apply Hall. }
    simpl. destruct (Z.leb_spec (2 ^ 32) (num_chunks_ p)); [lia|].
    rewrite H1. simpl. rewrite H9, to_size_t_small by lia.
    replace (Z.to_nat (num_chunks_ p + 1 - 1)) with n by lia.
    fold p4. by rewrite (allocate_at_arena heap p4 n cnew _ _ Hc4 Hnew Ha).
  + destruct (set_chunk_arenas heap p4 n (cchunk.set_next cnew (m + obj_size_ p)) Hc4)
      as [_ Har]; [apply lookup_lt_Some in Hnew; done|].
    rewrite Har. change (arenas p4) with (arenas p3). rewrite H7.
    split.
    { subst n. rewrite insert_app_r_alt, Nat.sub_diag by lia. done. }
    split; [done|]. split; [done|]. done.
Qed.

(** *** The contract of the pool's allocate *)

(** C2. Pool [allocate] first tries the current arena.  When that is
    exhausted it scans the arenas in insertion order and the first one with
    room serves the request and becomes current.  When no arena has room it
    appends an arena built from the budget [max(obj_size, DEFAULT_CHUNK_SIZE)],
    makes it current and allocates its first slot: a non-null address, also
    when the array of arenas was full and is doubled first.  (The system
    allocator is assumed to deliver the new buffer, and the arena count to
    fit the 32-bit loop counters.) *)
Theorem pool_allocate_contract (heap : nat → option Z) (p : t) (live : list Z) :
  pool_inv heap p live → heap_ok heap (obj_size_ p) → num_chunks_ p < 2 ^ 32 →
  ∃ cur, arenas p !! current_chunk_ p = Some cur ∧
  (¬ cchunk.exhausted cur →
     ∃ a c', cchunk.allocate cur = Ok (a, c') [] ∧ a ≠ 0 ∧
             allocate heap p = Ok (a, set_chunk p (current_chunk_ p) c') []) ∧
  (cchunk.exhausted cur →
     (∀ k c, arenas p !! k = Some c → ¬ cchunk.exhausted c →
             (∀ j cj, (j < k)%nat → arenas p !! j = Some cj → cchunk.exhausted cj) →
        ∃ a c', cchunk.allocate c = Ok (a, c') [] ∧ a ≠ 0 ∧
                allocate heap p = Ok (a, set_current (set_chunk p k c') k) []) ∧
     ((∀ j cj, arenas p !! j = Some cj → cchunk.exhausted cj) →
      ∀ m, heap (length (arenas p)) = Some m →
        ∃ cnew p',
          cchunk.cchunk (Some m) (obj_size_ p) (Z.max (obj_size_ p) DEFAULT_CHUNK_SIZE)
            = Ok cnew [] ∧
          allocate heap p = Ok (m, p') [] ∧ m ≠ 0 ∧
          arenas p' = arenas p ++ [cchunk.set_next cnew (m + obj_size_ p)] ∧
          current_chunk_ p' = length (arenas p) ∧
          num_chunks_ p' = num_chunks_ p + 1 ∧
          max_chunks_ p' = (if num_chunks_ p <? max_chunks_ p
                            then max_chunks_ p else 2 * max_chunks_ p))).
Proof.
  intros [Hinv Hcur] Hheap Hnum. pose proof Hinv as (Hc & _).
  pose proof (core_num heap p Hc) as Hn. pose proof (core_max heap p Hc) as [Hle _].
  destruct (lookup_lt_is_Some_2 (arenas p) (current_chunk_ p) Hcur) as [cur Hcu].
  exists cur. split; [done|]. split.
  { intros Hroom.
    destruct (allocate_at_room heap p live _ cur Hinv Hcu Hroom) as (a & c' & Ha & Hnz & Hat).
    exists a, c'. split; [done|]. split; [done|]. unfold allocate. rewrite Hat. simpl.
    by destruct (Z.eqb_spec a 0). }
  intros Hex. split.
  - intros k c Hk Hroom Hbefore.
    pose proof (lookup_lt_Some _ _ _ Hk) as Hlt.
    destruct (allocate_scan_found heap p live (Z.to_nat (Z.min (num_chunks_ p) (2 ^ 32)))
                0 k c Hinv ltac:(lia) Hk Hroom) as (a & c' & Ha & Hnz & Hscan).
    { intros j cj Hj. apply Hbefore. lia. }
    exists a, c'. split; [done|]. split; [done|]. unfold allocate.
    rewrite (allocate_at_exhausted heap p _ cur Hc Hcu Hex). simpl.
    rewrite Hscan. simpl. by destruct (Z.eqb_spec a 0).
  - intros Hall m Hm.
    destruct (allocate_fresh_arena heap p live cur m (conj Hinv Hcur) Hheap Hnum
                Hcu Hex Hall Hm) as (cnew & p' & H1 & H2 & H3 & H4 & H5 & H6 & H7 & _).
    by exists cnew, p'.
Qed.

Lemma pool_allocate_contract_witness :
  pool_inv heap_4MiB pool_2slots [] ∧ heap_ok heap_4MiB (obj_size_ pool_2slots) ∧
  num_chunks_ pool_2slots < 2 ^ 32 ∧
  ∃ cur, arenas pool_2slots !! current_chunk_ pool_2slots = Some cur ∧
  (¬ cchunk.exhausted cur →
     ∃ a c', cchunk.allocate cur = Ok (a, c') [] ∧ a ≠ 0 ∧
             allocate heap_4MiB pool_2slots
               = Ok (a, set_chunk pool_2slots (current_chunk_ pool_2slots) c') []) ∧
  (cchunk.exhausted cur →
     (∀ k c, arenas pool_2slots !! k = Some c → ¬ cchunk.exhausted c →
             (∀ j cj, (j < k)%nat → arenas pool_2slots !! j = Some cj →
                      cchunk.exhausted cj) →
        ∃ a c', cchunk.allocate c = Ok (a, c') [] ∧ a ≠ 0 ∧
                allocate heap_4MiB pool_2slots
                  = Ok (a, set_current (set_chunk pool_2slots k c') k) []) ∧
     ((∀ j cj, arenas pool_2slots !! j = Some cj → cchunk.exhausted cj) →
      ∀ m, heap_4MiB (length (arenas pool_2slots)) = Some m →
        ∃ cnew p',
          cchunk.cchunk (Some m) (obj_size_ pool_2slots)
            (Z.max (obj_size_ pool_2slots) DEFAULT_CHUNK_SIZE) = Ok cnew [] ∧
          allocate heap_4MiB pool_2slots = Ok (m, p') [] ∧ m ≠ 0 ∧
          arenas p' = arenas pool_2slots
                        ++ [cchunk.set_next cnew (m + obj_size_ pool_2slots)] ∧
          current_chunk_ p' = length (arenas pool_2slots) ∧
          num_chunks_ p' = num_chunks_ pool_2slots + 1 ∧
          max_chunks_ p' = (if num_chunks_ pool_2slots <? max_chunks_ pool_2slots
                            then max_chunks_ pool_2slots
                            else 2 * max_chunks_ pool_2slots))).
Proof.
  assert (pool_inv heap_4MiB pool_2slots []) as Hinv.
  { apply (pool_constructed_inv heap_4MiB (2 ^ 19) 1), pool_2slots_constructed. }
  split; [exact Hinv|]. split; [apply heap_4MiB_ok|]. split; [reflexivity|].
  apply (pool_allocate_contract heap_4MiB pool_2slots [] Hinv heap_4MiB_ok). reflexivity.
Defined.

(** *** No aliasing of live slots *)

(** No aliasing where the calls complete.  Whatever ownership-respecting
    sequence of allocate, deallocate and reclaim calls a pool has served
    without a fault, the live addresses are pairwise distinct and the next
    [allocate] returns an address that is not live (nor null). *)
Theorem no_aliasing (heap : nat → option Z) (b : build) (S n : Z) (p0 p : t)
    (cs : list call) (live : list Z) :
  pool_constructed heap S n p0 →
  pool_run heap b cs p0 [] = Reached p live →
  NoDup live ∧
  ∀ a p' log, allocate heap p = Ok (a, p') log → a ≠ 0 ∧ a ∉ live.
Proof.
  intros Hc Hrun. pose proof Hc as (log0 & _ & Hheap & _).
  pose proof (pool_constructed_inv heap S n p0 Hc) as Hinv0.
  destruct (pool_run_inv heap b S cs p0 [] p live Hheap Hinv0 Hrun) as [Hinv Ho].
  split.
  - destruct Hinv as [(_ & Hnd & _) _]. by apply NoDup_app in Hnd as (_ & _ & ?).
  - intros a p' log Ha.
    destruct (allocate_inv heap p live a p' log ltac:(by rewrite Ho) Hinv Ha)
      as (? & ? & _).
    done.
Qed.

Lemma no_aliasing_witness :
  pool_constructed heap_4MiB (2 ^ 19) 1 pool_2slots ∧
  pool_run heap_4MiB Release
    [Allocate; Allocate; Allocate; Deallocate (4096 + 2 ^ 19)] pool_2slots []
    = Reached pool_2slots_used.1 pool_2slots_used.2 ∧
  NoDup pool_2slots_used.2 ∧
  ∀ a p' log, allocate heap_4MiB pool_2slots_used.1 = Ok (a, p') log →
              a ≠ 0 ∧ a ∉ pool_2slots_used.2.
Proof.
  split; [apply pool_2slots_constructed|]. split; [reflexivity|].
  apply (no_aliasing heap_4MiB Release (2 ^ 19) 1 pool_2slots pool_2slots_used.1
           [Allocate; Allocate; Allocate; Deallocate (4096 + 2 ^ 19)]).
  - apply pool_2slots_constructed.
  - reflexivity.
Defined.

(** *** Reclaim *)

(** C6. [reclaim] on the pool completes and resets every arena, and changes
    nothing else: each arena keeps its buffer and its geometry, its bump
    cursor is back at the start of the buffer and its freed stack is empty,
    so the next [allocate] of each arena returns the first slot address of
    that arena and moves the cursor one slot on; and whatever was on the
    stack before has no influence on any later call (no offset freed before
    the reclaim is ever popped). *)
Theorem reclaim_resets (heap : nat → option Z) (p : t) (live : list Z) :
  pool_inv heap p live →
  ∃ p', reclaim p = Ok p' [] ∧ length (arenas p') = length (arenas p) ∧
    num_chunks_ p' = num_chunks_ p ∧ max_chunks_ p' = max_chunks_ p ∧
    current_chunk_ p' = current_chunk_ p ∧
    ∀ i c, arenas p !! i = Some c →
      ∃ c', arenas p' !! i = Some c' ∧
        cchunk.first_addr c' = cchunk.first_addr c ∧
        cchunk.max_ c' = cchunk.max_ c ∧
        cchunk.obj_size_ c' = cchunk.obj_size_ c ∧
        cchunk.pool_size c' = cchunk.pool_size c ∧
        length (cchunk.freed_stack_ c') = length (cchunk.freed_stack_ c) ∧
        cchunk.next_ c' = cchunk.first_addr c ∧
        cchunk.bump_cursor c' = 0 ∧ cchunk.stack_size_ c' = 0 ∧
        (∃ c'', cchunk.allocate c' = Ok (cchunk.first_addr c, c'') [] ∧
                cchunk.next_ c'' = cchunk.first_addr c + cchunk.obj_size_ c ∧
                cchunk.stack_size_ c'' = 0) ∧
        ∀ (b : build) (cs : list call) (c2 : cchunk.t),
          cchunk.mem_ c2 = cchunk.mem_ c' → cchunk.next_ c2 = cchunk.next_ c' →
          cchunk.max_ c2 = cchunk.max_ c' →
          cchunk.obj_size_ c2 = cchunk.obj_size_ c' →
          cchunk.pool_size_ c2 = cchunk.pool_size_ c' →
          cchunk.stack_size_ c2 = 0 →
          length (cchunk.freed_stack_ c2) = length (cchunk.freed_stack_ c') →
          cchunk.returns b cs c2 = cchunk.returns b cs c'.
Proof.
  intros [(Hc & _) _].
  destruct (reclaim_spec heap p Hc) as (p' & Hr & Hc' & Hsh & Har).
  destruct Hsh as (Hcu & Hnum & Hmax & _).
  exists p'. split; [done|]. split; [by rewrite Har, length_fmap|].
  split; [done|]. split; [done|]. split; [done|].
  intros i c Hpi. exists (cchunk.reclaim c).
  split; [by rewrite Har, list_lookup_fmap, Hpi|].
  destruct (core_arenas heap p Hc i c Hpi) as (Hwf & _).
  unfold cchunk.first_addr, cchunk.pool_size, cchunk.bump_cursor.
  do 5 (split; [done|]). split; [done|]. split; [simpl; lia|]. split; [done|]. split.
  - pose proof (cchunk.wf_pool c Hwf). pose proof (cchunk.wf_one c Hwf).
    pose proof (cchunk.wf_obj c Hwf). pose proof (cchunk.wf_max c Hwf).
    pose proof (cchunk.wf_top c Hwf). pose proof (cchunk.wf_mem c Hwf).
    rewrite cchunk_facts.allocate_bump by (simpl; nia).
    simpl. rewrite ptr_add_small by nia. eexists. split; [done|]. by simpl.
  - intros b cs c2 H1 H2 H3 H4 H5 H6 H7. apply cchunk_facts.returns_upto_stack.
    unfold cchunk.same_upto_stack. rewrite H1, H2, H3, H4, H5, H6, H7. simpl.
    by repeat split.
Qed.

Lemma reclaim_resets_witness :
  pool_inv heap_4MiB pool_2slots_used.1 pool_2slots_used.2 ∧
  ∃ p', reclaim pool_2slots_used.1 = Ok p' [] ∧
    length (arenas p') = length (arenas pool_2slots_used.1) ∧
    num_chunks_ p' = num_chunks_ pool_2slots_used.1 ∧
    max_chunks_ p' = max_chunks_ pool_2slots_used.1 ∧
    current_chunk_ p' = current_chunk_ pool_2slots_used.1 ∧
    ∀ i c, arenas pool_2slots_used.1 !! i = Some c →
      ∃ c', arenas p' !! i = Some c' ∧
        cchunk.first_addr c' = cchunk.first_addr c ∧
        cchunk.max_ c' = cchunk.max_ c ∧
        cchunk.obj_size_ c' = cchunk.obj_size_ c ∧
        cchunk.pool_size c' = cchunk.pool_size c ∧
        length (cchunk.freed_stack_ c') = length (cchunk.freed_stack_ c) ∧
        cchunk.next_ c' = cchunk.first_addr c ∧
        cchunk.bump_cursor c' = 0 ∧ cchunk.stack_size_ c' = 0 ∧
        (∃ c'', cchunk.allocate c' = Ok (cchunk.first_addr c, c'') [] ∧
                cchunk.next_ c'' = cchunk.first_addr c + cchunk.obj_size_ c ∧
                cchunk.stack_size_ c'' = 0) ∧
        ∀ (b : build) (cs : list call) (c2 : cchunk.t),
          cchunk.mem_ c2 = cchunk.mem_ c' → cchunk.next_ c2 = cchunk.next_ c' →
          cchunk.max_ c2 = cchunk.max_ c' →
          cchunk.obj_size_ c2 = cchunk.obj_size_ c' →
          cchunk.pool_size_ c2 = cchunk.pool_size_ c' →
          cchunk.stack_size_ c2 = 0 →
          length (cchunk.freed_stack_ c2) = length (cchunk.freed_stack_ c') →
          cchunk.returns b cs c2 = cchunk.returns b cs c'.
Proof.
  assert (pool_inv heap_4MiB pool_2slots_used.1 pool_2slots_used.2) as Hinv.
  { apply (pool_run_inv heap_4MiB Release (2 ^ 19)
             [Allocate; Allocate; Allocate; Deallocate (4096 + 2 ^ 19)]
             pool_2slots [] _ _ heap_4MiB_ok).
    - apply (pool_constructed_inv heap_4MiB (2 ^ 19) 1), pool_2slots_constructed.
    - reflexivity. }
  split; [exact Hinv|].
  apply (reclaim_resets heap_4MiB pool_2slots_used.1 pool_2slots_used.2 Hinv).
Defined.

(** *** Misuse of deallocate in a debug build *)

Lemma claims_near c a :
  0 ≤ cchunk.pool_size_ c →
  - (2 ^ 32 - cchunk.pool_size_ c) ≤ a - cchunk.mem_ c < 2 ^ 32 →
  claims c a ↔ cchunk.mem_ c ≤ a < cchunk.mem_ c + cchunk.pool_size_ c.
Proof.
  intros Hps Hr. unfold claims, cchunk.first_addr, cchunk.pool_size, to_unsigned.
  destruct (Z.lt_ge_cases (a - cchunk.mem_ c) 0).
  - rewrite <- (Z_mod_plus_full _ 1), Z.mod_small by lia. lia.
  - rewrite Z.mod_small by lia. lia.
Qed.

(** C7, amended. In a debug build, [deallocate] of an address that no arena
    claims writes the diagnostic and changes nothing: the pool afterwards is
    the pool before. *)
Theorem deallocate_unclaimed_is_noop (heap : nat → option Z) (p : t) (live : list Z)
    (a : Z) :
  pool_inv heap p live → num_chunks_ p < 2 ^ 32 →
  (∀ i c, arenas p !! i = Some c → ¬ claims c a) →
  deallocate Debug a p = Ok p [FreeNotInAnyChunk].
Proof.
  intros [(Hc & _) _] Hnum Hno. pose proof (core_num heap p Hc) as Hn.
  unfold deallocate.
  rewrite (deallocate_scan_None heap Debug a p); [|done|lia|].
  2:{ intros j c _. apply Hno. }
  simpl. by destruct (Z.leb_spec (2 ^ 32) (num_chunks_ p)); [lia|].
Qed.

Lemma deallocate_unclaimed_is_noop_witness :
  pool_inv heap_4MiB pool_2slots [] ∧ num_chunks_ pool_2slots < 2 ^ 32 ∧
  (∀ i c, arenas pool_2slots !! i = Some c → ¬ claims c 64) ∧
  deallocate Debug 64 pool_2slots = Ok pool_2slots [FreeNotInAnyChunk].
Proof.
  assert (pool_inv heap_4MiB pool_2slots []) as Hinv.
  { apply (pool_constructed_inv heap_4MiB (2 ^ 19) 1), pool_2slots_constructed. }
  assert (∀ i c, arenas pool_2slots !! i = Some c → ¬ claims c 64) as Hno.
  { intros [|i] c Hi; [|discriminate]. injection Hi as <-.
    intros H. vm_compute in H. discriminate. }
  split; [exact Hinv|]. split; [reflexivity|]. split; [exact Hno|].
  apply (deallocate_unclaimed_is_noop heap_4MiB pool_2slots [] 64 Hinv); [reflexivity|].
  exact Hno.
Defined.

(** C7 as stated fails for a double free: freeing the first slot a second
    time in a debug build writes no diagnostic and pushes the offset again,
    so the arena changes. *)
Lemma double_free_counterexample :
  pool_run heap_4MiB Debug [Allocate; Deallocate 4096] pool_2slots []
    = Reached pool_2slots_freed [] ∧
  deallocate Debug 4096 pool_2slots_freed = Ok pool_2slots_freed_twice [] ∧
  pool_2slots_freed_twice ≠ pool_2slots_freed.
Proof. split; [reflexivity|]. split; [reflexivity|]. discriminate. Qed.

(** *** Memory safety of release builds *)

Lemma own_stacks_set_chunk heap p k c c' :
  core heap p → own_stacks p → arenas p !! k = Some c →
  cchunk.same_buffer c c' →
  (∀ x, x ∈ cchunk.stack_addrs c' → x ∈ cchunk.stack_addrs c ∨ x ∈ cchunk.all_slots c) →
  own_stacks (set_chunk p k c').
Proof.
  intros Hc Hown Hk Hsb Hst i ci a Hi Ha.
  pose proof (lookup_lt_Some _ _ _ Hk) as Hlt.
  destruct (set_chunk_arenas heap p k c' Hc Hlt) as [_ Har]. rewrite Har in Hi.
  destruct (decide (i = k)) as [->|Hne].
  - rewrite list_lookup_insert_eq in Hi by done. injection Hi as <-.
    rewrite (cchunk_facts.same_buffer_all_slots _ _ Hsb).
    destruct (Hst a Ha) as [Hold|Hnew]; [by apply (Hown k)|done].
  - rewrite list_lookup_insert_ne in Hi by done. by apply (Hown i).
Qed.

(** Under the window assumption the routing test is exact. *)
Lemma claims_own heap p i j ci cj a :
  core heap p → heap_ok heap (obj_size_ p) → heap_window heap (obj_size_ p) →
  arenas p !! i = Some ci → arenas p !! j = Some cj → a ∈ cchunk.all_slots cj →
  claims ci a ↔ i = j.
Proof.
  intros Hc Hheap [base Hwin] Hi Hj Ha.
  destruct (core_arenas heap p Hc i ci Hi) as (Hwfi & Hhi & _ & Hpi).
  destruct (core_arenas heap p Hc j cj Hj) as (Hwfj & Hhj & _ & Hpj).
  destruct (Hwin _ _ Hhi) as [Hbi Hti]. destruct (Hwin _ _ Hhj) as [Hbj Htj].
  pose proof (slot_in_buffer cj a Hwfj Ha) as Hin.
  destruct (chunk_bytes_eq (obj_size_ p)) as (_ & Hcb & _);
    [by destruct (core_obj heap p Hc)|].
  pose proof (core_obj heap p Hc) as Hobj.
  rewrite claims_near by lia. split.
  - intros Hr. destruct (decide (i = j)) as [|Hne]; [done|].
    destruct (heap_disjoint heap _ Hheap i j _ _ Hne Hhi Hhj); lia.
  - intros ->. rewrite Hi in Hj. injection Hj as ->. lia.
Qed.

Lemma deallocate_scan_found heap b a p n : ∀ i j c,
  core heap p → (i ≤ j < i + n)%nat → arenas p !! j = Some c → claims c a →
  (∀ k ck, (i ≤ k < j)%nat → arenas p !! k = Some ck → ¬ claims ck a) →
  deallocate_scan b a n i p =
    (let* c' := cchunk.deallocate b a c in Ok (Some (set_chunk p j c')) []).
Proof.
  induction n as [|n IH]; intros i j c Hc Hij Hj Hcl Hbefore; [lia|]. simpl.
  destruct (decide (i = j)) as [->|Hne].
  - rewrite (get_chunk_arena heap p j c Hc Hj). simpl. unfold claims in Hcl.
    destruct (Z.ltb_spec (to_unsigned (a - cchunk.first_addr c)) (cchunk.pool_size c));
      [|lia].
    by destruct (cchunk.deallocate b a c).
  - pose proof (lookup_lt_Some _ _ _ Hj) as Hlt.
    destruct (lookup_lt_is_Some_2 (arenas p) i ltac:(lia)) as [ci Hi].
    rewrite (get_chunk_arena heap p i ci Hc Hi). simpl.
    pose proof (Hbefore i ci ltac:(lia) Hi) as Hno. unfold claims in Hno.
    destruct (Z.ltb_spec (to_unsigned (a - cchunk.first_addr ci)) (cchunk.pool_size ci));
      [done|].
    rewrite (IH (S i) j c); [|done|lia|done|done|].
    + by destruct (cchunk.deallocate b a c).
    + intros k ck Hk. apply Hbefore. lia.
Qed.

(** The freed stack of the arena that owns a live address is not full. *)
Lemma own_stack_room heap p live j c a :
  safe_inv heap p live → arenas p !! j = Some c →
  a ∈ live → a ∈ cchunk.all_slots c →
  (Z.to_nat (cchunk.stack_size_ c) < cchunk.nslots c)%nat.
Proof.
  intros [[(Hc & Hnd & _) _] Hown] Hj Ha Hslot.
  destruct (core_arenas heap p Hc j c Hj) as (Hwf & _).
  apply NoDup_app in Hnd as (Hnda & Hdis & _).
  unfold pool_avail in Hnda, Hdis.
  destruct (bind_insert_split cchunk.avail (arenas p) j c c Hj) as [Hsplit _].
  assert (∀ x, x ∈ cchunk.stack_addrs c → x ∈ arenas p ≫= cchunk.avail) as Hsub.
  { intros x Hx. rewrite Hsplit. apply elem_of_app. right. apply elem_of_app. left.
    unfold cchunk.avail. apply elem_of_app. by right. }
  assert (NoDup (cchunk.stack_addrs c)) as Hnds.
  { rewrite Hsplit in Hnda. apply NoDup_app in Hnda as (_ & _ & Hnda).
    apply NoDup_app in Hnda as (Hnda & _ & _). unfold cchunk.avail in Hnda.
    by apply NoDup_app in Hnda as (_ & _ & ?). }
  assert (NoDup (a :: cchunk.stack_addrs c)) as Hnd'.
  { apply NoDup_cons. split; [|done]. intros Hin. by apply (Hdis a (Hsub a Hin)). }
  assert (a :: cchunk.stack_addrs c ⊆+ cchunk.all_slots c) as Hincl.
  { apply NoDup_submseteq; [done|]. intros x Hx.
    apply elem_of_cons in Hx as [->|Hx]; [done|]. by apply (Hown j c). }
  apply submseteq_length in Hincl. simpl in Hincl.
  rewrite cchunk_facts.length_stack_addrs in Hincl by done.
  unfold cchunk.all_slots in Hincl. rewrite length_fmap, length_seq in Hincl. lia.
Qed.

Lemma deallocate_safe heap p live a :
  heap_ok heap (obj_size_ p) → heap_window heap (obj_size_ p) →
  safe_inv heap p live → a ∈ live →
  match deallocate Release a p with
  | Ok p' _ => own_stacks p'
  | Err f => system_fault f
  end.
Proof.
  intros Hheap Hwin Hsafe Ha. pose proof Hsafe as [[Hinv Hcur] Hown].
  pose proof Hinv as (Hc & _ & Hsub). pose proof (core_num heap p Hc) as Hn.
  assert (a ∈ pool_slots p) as Hslot by (apply Hsub, elem_of_app; by right).
  apply list_elem_of_bind in Hslot as (c & Hslot & Hin).
  apply list_elem_of_lookup in Hin as (j & Hj).
  pose proof (lookup_lt_Some _ _ _ Hj) as Hlt.
  pose proof (own_stack_room heap p live j c a Hsafe Hj Ha Hslot) as Hroom.
  pose proof (cchunk_facts.deallocate_release a c Hroom) as Hd.
  destruct (core_arenas heap p Hc j c Hj) as (Hwf & _).
  pose proof (inv_core_live_range heap p live a Hinv Ha) as Hr.
  assert (0 ≤ a < 2 ^ 64) as Hr' by lia.
  unfold deallocate.
  set (n := Z.to_nat (Z.min (num_chunks_ p) (2 ^ 32))).
  destruct (decide (j < n)%nat) as [Hjn|Hjn].
  - rewrite (deallocate_scan_found heap Release a p n 0 j c Hc ltac:(lia) Hj).
    + rewrite Hd. simpl.
      destruct (cchunk_facts.deallocate_wf _ _ _ _ _ Hwf Hr' Hd) as (_ & Hsb & _).
      apply (own_stacks_set_chunk heap p j c); try done.
      intros x Hx.
      rewrite (cchunk_facts.deallocate_stack_addrs _ _ _ _ _ Hwf Hr' Hd) in Hx.
      apply elem_of_app in Hx as [Hx|Hx]; [by left|].
      apply list_elem_of_singleton in Hx as ->. by right.
    + by apply (claims_own heap p j j c c a).
    + intros k ck Hk Hck Hcl.
      apply (claims_own heap p k j ck c a Hc Hheap Hwin Hck Hj Hslot) in Hcl. lia.
  - rewrite (deallocate_scan_None heap Release a p n 0 Hc); [|subst n; lia|].
    + simpl. destruct (Z.leb_spec (2 ^ 32) (num_chunks_ p)); [by right|]. subst n. lia.
    + intros k ck Hk Hck Hcl.
      apply (claims_own heap p k j ck c a Hc Hheap Hwin Hck Hj Hslot) in Hcl. lia.
Qed.

Lemma allocate_at_own heap p live k c :
  safe_inv heap p live → arenas p !! k = Some c → ¬ cchunk.exhausted c →
  ∃ a c', allocate_at p k = Ok (a, set_chunk p k c') [] ∧ a ≠ 0 ∧
          own_stacks (set_chunk p k c').
Proof.
  intros [[Hinv _] Hown] Hk Hroom. pose proof Hinv as (Hc & _).
  destruct (allocate_at_room heap p live k c Hinv Hk Hroom) as (a & c' & Ha & Hnz & Hat).
  exists a, c'. split; [done|]. split; [done|].
  destruct (core_arenas heap p Hc k c Hk) as (Hwf & _).
  destruct (cchunk_facts.allocate_wf _ _ _ _ Hwf Ha) as (_ & _ & Hsb & _).
  apply (own_stacks_set_chunk heap p k c); try done.
  intros x Hx. left. by eapply cchunk_facts.allocate_stack_addrs.
Qed.

Lemma own_stacks_snoc p p' c :
  own_stacks p → arenas p' = arenas p ++ [c] → cchunk.stack_addrs c = [] →
  own_stacks p'.
Proof.
  intros Hown Har Hst i ci a Hi Ha. rewrite Har in Hi.
  apply lookup_app_Some in Hi as [Hi|[_ Hi]]; [by apply (Hown i ci)|].
  apply list_lookup_singleton_Some in Hi as [_ <-]. rewrite Hst in Ha.
  by apply not_elem_of_nil in Ha.
Qed.

Lemma allocate_safe heap p live :
  heap_ok heap (obj_size_ p) → safe_inv heap p live →
  match allocate heap p with
  | Ok (_, p') _ => own_stacks p'
  | Err f => system_fault f
  end.
Proof.
  intros Hheap Hsafe. pose proof Hsafe as [[Hinv Hcur] Hown].
  pose proof Hinv as (Hc & _). pose proof (core_num heap p Hc) as Hn.
  destruct (lookup_lt_is_Some_2 (arenas p) (current_chunk_ p) Hcur) as [cur Hcu].
  destruct (decide (cchunk.exhausted cur)) as [Hex|Hroom].
  2:{ destruct (allocate_at_own heap p live _ cur Hsafe Hcu Hroom)
        as (a & c' & Hat & Hnz & Hown').
      unfold allocate. rewrite Hat. simpl. by destruct (Z.eqb_spec a 0). }
  set (n := Z.to_nat (Z.min (num_chunks_ p) (2 ^ 32))).
  destruct (list_find (λ c, ¬ cchunk.exhausted c) (take n (arenas p)))
    as [[k c]|] eqn:Hfind.
  - apply list_find_Some in Hfind as (Hk & Hroom & Hbefore).
    apply lookup_take_Some in Hk as [Hk Hkn].
    destruct (allocate_scan_found heap p live n 0 k c Hinv ltac:(lia) Hk Hroom)
      as (a & c' & Ha & Hnz & Hscan).
    { intros j cj Hj Hcj. destruct (decide (cchunk.exhausted cj)) as [|Hn']; [done|].
      exfalso. apply (Hbefore j cj); [|lia|done].
      apply lookup_take_Some. split; [done|lia]. }
    destruct (core_arenas heap p Hc k c Hk) as (Hwf & _).
    destruct (cchunk_facts.allocate_wf _ _ _ _ Hwf Ha) as (_ & _ & Hsb & _).
    assert (own_stacks (set_chunk p k c')) as Hown'.
    { apply (own_stacks_set_chunk heap p k c); try done.
      intros x Hx. left. by eapply cchunk_facts.allocate_stack_addrs. }
    unfold allocate. rewrite (allocate_at_exhausted heap p _ cur Hc Hcu Hex). simpl.
    fold n. rewrite Hscan. simpl. destruct (Z.eqb_spec a 0); [done|]. exact Hown'.
  - apply list_find_None in Hfind. rewrite Forall_lookup in Hfind.
    assert (∀ j cj, (j < n)%nat → arenas p !! j = Some cj → cchunk.exhausted cj) as Hpre.
    { intros j cj Hj Hcj. destruct (decide (cchunk.exhausted cj)) as [|Hn']; [done|].
      exfalso. apply (Hfind j cj); [|done]. apply lookup_take_Some. by split. }
    unfold allocate. rewrite (allocate_at_exhausted heap p _ cur Hc Hcu Hex). simpl.
    fold n. rewrite (allocate_scan_none heap p n 0 Hc); [|subst n; lia|].
    2:{ intros j cj Hj. apply Hpre. lia. }
    simpl. destruct (Z.leb_spec (2 ^ 32) (num_chunks_ p)) as [|Hlt]; [by right|].
    assert (n = length (arenas p)) as Hnn by (subst n; lia).
    pose proof (core_max heap p Hc) as [Hle _].
    destruct (heap (length (arenas p))) as [m|] eqn:Hm.
    + destruct (allocate_fresh_arena heap p live cur m (conj Hinv Hcur) Hheap Hlt
                  Hcu Hex) as (cnew & p' & _ & Hal & _ & Har & _ & _ & _ & Hst); [|done|].
      { intros j cj Hcj. apply (Hpre j); [|done]. apply lookup_lt_Some in Hcj. lia. }
      unfold allocate in Hal.
      rewrite (allocate_at_exhausted heap p _ cur Hc Hcu Hex) in Hal. simpl in Hal.
      fold n in Hal. rewrite (allocate_scan_none heap p n 0 Hc) in Hal; [|subst n; lia|].
      2:{ intros j cj Hj. apply Hpre. lia. }
      simpl in Hal. destruct (Z.leb_spec (2 ^ 32) (num_chunks_ p)); [lia|].
      rewrite Hal. apply (own_stacks_snoc p p' _ Hown Har).
      unfold cchunk.stack_addrs. simpl. by rewrite Hst.
    + rewrite (add_chunk_no_buffer heap p) by (done || lia). by left.
Qed.

Lemma reclaim_safe heap p live :
  safe_inv heap p live →
  match reclaim p with
  | Ok p' _ => own_stacks p'
  | Err f => system_fault f
  end.
Proof.
  intros [[(Hc & _) _] _].
  destruct (reclaim_spec heap p Hc) as (p' & -> & _ & _ & Har).
  intros i c a Hi Ha. rewrite Har, list_lookup_fmap in Hi.
  destruct (arenas p !! i); [|discriminate]. injection Hi as <-.
  by apply not_elem_of_nil in Ha.
Qed.

Lemma add_chunks_own heap n : ∀ p p' log,
  core heap p → heap_ok heap (obj_size_ p) →
  num_chunks_ p + Z.of_nat n ≤ max_chunks_ p → own_stacks p →
  add_chunks heap n p = Ok p' log → own_stacks p'.
Proof.
  induction n as [|n IH]; intros p p' log Hc Hheap Hle Hown H; simpl in H.
  - by injection H as <- <-.
  - apply bind_Ok in H as (p1 & l1 & l2 & Hadd & H & ->).
    destruct (add_chunk_heap heap p _ p1 l1 Hc Hadd) as [m Hm].
    destruct (add_chunk_spec heap p m Hc Hheap ltac:(lia) Hm)
      as (cnew & p1' & H1 & H2 & H3 & H4 & H5 & H6 & H7 & H8 & H9 & H10 & H11).
    rewrite H1 in Hadd. injection Hadd as <- <-.
    destruct (Z.ltb_spec (num_chunks_ p) (max_chunks_ p)); [|lia].
    apply (IH p1' p' l2 H6); [by rewrite H11|lia| |done].
    apply (own_stacks_snoc p p1' cnew Hown H7).
    unfold cchunk.stack_addrs. by rewrite H5.
Qed.

Lemma pool_constructed_safe heap S n p :
  pool_constructed heap S n p → safe_inv heap p [] ∧ obj_size_ p = S.
Proof.
  intros Hcons. destruct (pool_constructed_inv heap S n p Hcons) as [Hinv Ho].
  split; [|done]. split; [done|].
  destruct Hcons as (log & H & Hheap & HS & Hn).
  unfold cpool, init in H. simpl in H.
  apply bind_Ok in H as (chunks & l1 & l2 & Hnew & H & ->).
  apply new_array_Ok in Hnew as (-> & -> & Hsz).
  apply bind_Ok in H as (p2 & l3 & l4 & Hadd & H & ->).
  apply bind_Ok in H as (c0 & l5 & l6 & Hget & H & ->).
  injection H as <- <-.
  set (p1 := mk _ _ _ _ _ _) in Hadd.
  assert (arenas p1 = []) as Har1 by (by apply (arenas_layout [] (Z.to_nat n))).
  assert (core heap p1) as Hc1.
  { split; simpl; rewrite ?Har1; simpl; try done; try lia. by rewrite Nat.sub_0_r. }
  pose proof (to_int_le n ltac:(lia)) as Hint.
  assert (own_stacks p2) as Hown; [|exact Hown].
  apply (add_chunks_own heap (Z.to_nat (to_int n)) p1 p2 l3 Hc1 Hheap); [simpl; lia| |done].
  intros i c a Hi. rewrite Har1 in Hi. discriminate.
Qed.

(** X18.  In a release build, over an allocator whose buffers lie in one
    window of 2^32 bytes, a caller that respects ownership never makes the
    pool fault: a run stops early only when the allocator has no more memory
    (or there are 2^32 arenas). *)
Theorem release_run_safe (heap : nat → option Z) (S n : Z) (p0 : t) (cs : list call) :
  pool_constructed heap S n p0 → heap_window heap S →
  match pool_run heap Release cs p0 [] with
  | Failed f => system_fault f
  | _ => True
  end.
Proof.
  intros Hcons Hwin. pose proof Hcons as (_ & _ & Hheap & _).
  apply (run_safe _ _ _ (λ p live, safe_inv heap p live ∧ obj_size_ p = S));
    [|by apply (pool_constructed_safe heap S n)].
  intros cl p live [Hsafe Ho]. pose proof Hsafe as [Hinv Hown].
  destruct cl as [|a|]; simpl.
  - pose proof (allocate_safe heap p live ltac:(by rewrite Ho) Hsafe) as Hs.
    destruct (allocate heap p) as [[a p1] log|] eqn:Ha; [|done].
    destruct (allocate_inv heap p live a p1 log ltac:(by rewrite Ho) Hinv Ha)
      as (Hne & _ & Hinv' & Ho').
    destruct (Z.eqb_spec a 0); [done|]. split; [done|congruence].
  - destruct (decide (a ∈ live)) as [Hin|]; [|done].
    pose proof (deallocate_safe heap p live a ltac:(by rewrite Ho) ltac:(by rewrite Ho)
                  Hsafe Hin) as Hs.
    destruct (deallocate Release a p) as [p1 log|] eqn:Hd; [|done].
    destruct (deallocate_inv heap Release p live a p1 log Hinv Hin Hd) as [Hinv' Ho'].
    split; [done|congruence].
  - pose proof (reclaim_safe heap p live Hsafe) as Hs.
    destruct (reclaim p) as [p1 log|] eqn:Hr; [|done].
    destruct (reclaim_inv heap p live p1 log ltac:(by rewrite Ho) Hinv Hr) as [Hinv' Ho'].
    split; [done|congruence].
Qed.

Lemma heap_4MiB_window : heap_window heap_4MiB (2 ^ 19).
Proof.
  assert (chunk_bytes (2 ^ 19) = 2 ^ 20) as Hb by reflexivity.
  exists 4096. rewrite Hb. unfold heap_4MiB. intros k m.
  destruct (Nat.ltb_spec k 4); [|discriminate]. intros [= <-]. lia.
Qed.

Lemma release_run_safe_witness :
  pool_constructed heap_4MiB (2 ^ 19) 1 pool_2slots ∧ heap_window heap_4MiB (2 ^ 19) ∧
  match pool_run heap_4MiB Release
          [Allocate; Allocate; Deallocate 4096; Allocate; Allocate; Reclaim;
           Allocate; Deallocate 4096] pool_2slots [] with
  | Failed f => system_fault f
  | _ => True
  end.
Proof.
  split; [apply pool_2slots_constructed|]. split; [apply heap_4MiB_window|].
  apply (release_run_safe heap_4MiB (2 ^ 19) 1).
  - apply pool_2slots_constructed.
  - apply heap_4MiB_window.
Defined.

Lemma heap_2pow32_apart_ok : heap_ok heap_2pow32_apart (2 ^ 20).
Proof.
  assert (chunk_bytes (2 ^ 20) = 2 ^ 20) as Hb by reflexivity.
  split; rewrite Hb; unfold heap_2pow32_apart.
  - intros k m. destruct (Nat.ltb_spec k 2); [|discriminate]. intros [= <-]. lia.
  - intros i j mi mj Hne.
    destruct (Nat.ltb_spec i 2), (Nat.ltb_spec j 2); try discriminate.
    intros [= <-] [= <-]. lia.
Qed.

(** Without the window assumption the routing test of [deallocate] sends an
    address to the wrong arena: with two one-slot arenas 2^32 bytes apart,
    freeing both live addresses writes past the end of the first arena's
    freed stack, although the caller respects ownership. *)
Lemma misrouted_free_overflows :
  pool_constructed heap_2pow32_apart (2 ^ 20) 1 pool_1slot ∧
  pool_run heap_2pow32_apart Release
    [Allocate; Allocate; Deallocate 4096; Deallocate (4096 + 2 ^ 32)] pool_1slot []
    = Failed OutOfBounds.
Proof.
  split; [|reflexivity].
  exists []. split; [reflexivity|]. split; [apply heap_2pow32_apart_ok|]. lia.
Qed.

(** C1 fails on the code for a caller that respects ownership.  In a release
    build, over two one-slot arenas whose buffers lie 2^32 bytes apart, both
    slots are allocated and the first address is freed.  The second address
    is live and is freed next: the 32-bit routing test of [deallocate] makes
    the first arena claim it, and [cchunk::deallocate] writes element 1 of
    that arena's freed stack, an array of one element.  From that write on
    nothing determines what [allocate] returns. *)
Theorem no_aliasing_run_overflows :
  pool_constructed heap_2pow32_apart (2 ^ 20) 1 pool_1slot ∧
  pool_run heap_2pow32_apart Release [Allocate; Allocate; Deallocate 4096] pool_1slot []
    = Reached pool_1slot_freed [4096 + 2 ^ 32] ∧
  (∃ c0 c1, arenas pool_1slot_freed = [c0; c1] ∧
            cchunk.first_addr c0 = 4096 ∧ cchunk.first_addr c1 = 4096 + 2 ^ 32 ∧
            cchunk.pool_size c0 = 2 ^ 20 ∧
            length (cchunk.freed_stack_ c0) = 1%nat ∧ cchunk.stack_size_ c0 = 1 ∧
            claims c0 (4096 + 2 ^ 32) ∧
            cchunk.deallocate Release (4096 + 2 ^ 32) c0 = Err OutOfBounds) ∧
  deallocate Release (4096 + 2 ^ 32) pool_1slot_freed = Err OutOfBounds ∧
  pool_run heap_2pow32_apart Release
    [Allocate; Allocate; Deallocate 4096; Deallocate (4096 + 2 ^ 32)] pool_1slot []
    = Failed OutOfBounds.
Proof.
  split.
  { exists []. split; [reflexivity|]. split; [apply heap_2pow32_apart_ok|]. lia. }
  split; [reflexivity|]. split.
  { eexists _, _. split; [reflexivity|]. unfold claims. vm_compute.
    repeat split; reflexivity. }
  split; reflexivity.
Qed.

(** X19.  Every live address lies in the buffer of exactly one arena. *)
Lemma live_in_one_buffer heap p live a :
  pool_inv heap p live → heap_ok heap (obj_size_ p) → a ∈ live →
  ∃ j c, arenas p !! j = Some c ∧
         cchunk.mem_ c ≤ a < cchunk.mem_ c + cchunk.pool_size_ c ∧
         ∀ i ci, arenas p !! i = Some ci →
                 cchunk.mem_ ci ≤ a < cchunk.mem_ ci + cchunk.pool_size_ ci → i = j.
Proof.
  intros [(Hc & _ & Hsub) _] Hheap Ha.
  assert (a ∈ pool_slots p) as Hslot by (apply Hsub, elem_of_app; by right).
  apply list_elem_of_bind in Hslot as (c & Hslot & Hin).
  apply list_elem_of_lookup in Hin as (j & Hj).
  destruct (core_arenas heap p Hc j c Hj) as (Hwf & Hh & _ & Hp).
  pose proof (slot_in_buffer c a Hwf Hslot) as Hr.
  exists j, c. split; [done|]. split; [done|].
  intros i ci Hi Hri. destruct (decide (i = j)) as [|Hne]; [done|].
  destruct (core_arenas heap p Hc i ci Hi) as (_ & Hhi & _ & Hpi).
  destruct (heap_disjoint heap _ Hheap i j _ _ Hne Hhi Hh); lia.
Qed.

Lemma live_in_one_buffer_witness :
  pool_inv heap_4MiB pool_2slots_used.1 pool_2slots_used.2 ∧
  heap_ok heap_4MiB (obj_size_ pool_2slots_used.1) ∧
  4096 + 2 ^ 20 ∈ pool_2slots_used.2 ∧
  ∃ j c, arenas pool_2slots_used.1 !! j = Some c ∧
         cchunk.mem_ c ≤ 4096 + 2 ^ 20 < cchunk.mem_ c + cchunk.pool_size_ c ∧
         ∀ i ci, arenas pool_2slots_used.1 !! i = Some ci →
                 cchunk.mem_ ci ≤ 4096 + 2 ^ 20 < cchunk.mem_ ci + cchunk.pool_size_ ci →
                 i = j.
Proof.
  assert (pool_inv heap_4MiB pool_2slots_used.1 pool_2slots_used.2) as Hinv.
  { apply (pool_run_inv heap_4MiB Release (2 ^ 19)
             [Allocate; Allocate; Allocate; Deallocate (4096 + 2 ^ 19)]
             pool_2slots [] _ _ heap_4MiB_ok).
    - apply (pool_constructed_inv heap_4MiB (2 ^ 19) 1), pool_2slots_constructed.
    - reflexivity. }
  assert (heap_ok heap_4MiB (obj_size_ pool_2slots_used.1)) as Hheap
    by exact heap_4MiB_ok.
  assert (4096 + 2 ^ 20 ∈ pool_2slots_used.2) as Hin.
  { vm_compute. apply list_elem_of_here. }
  split; [exact Hinv|]. split; [exact Hheap|]. split; [exact Hin|].
  exact (live_in_one_buffer heap_4MiB pool_2slots_used.1 pool_2slots_used.2
           (4096 + 2 ^ 20) Hinv Hheap Hin).
Defined.

(** In a debug build an address outside every buffer, but 2^32 bytes below
    an arena's first slot, is claimed by that arena: the check reports it
    and the offset is pushed all the same. *)
Lemma reported_free_still_pushes :
  (∀ i c, arenas pool_above_4GiB !! i = Some c →
          ¬ (cchunk.mem_ c ≤ 4096 < cchunk.mem_ c + cchunk.pool_size_ c)) ∧
  ∃ p', deallocate Debug 4096 pool_above_4GiB = Ok p' [FreeOutsideChunk] ∧
        p' ≠ pool_above_4GiB.
Proof.
  split.
  - intros [|i] c Hi; [|discriminate]. injection Hi as <-. intros [H _].
    vm_compute in H. by apply H.
  - eexists. split; [reflexivity|]. discriminate.
Qed.

(** ** Further properties of a pool *)

(** *** The constructors *)

Lemma add_chunks_total heap n : ∀ p,
  core heap p → heap_ok heap (obj_size_ p) →
  num_chunks_ p + Z.of_nat n ≤ max_chunks_ p →
  (∀ k, (length (arenas p) ≤ k < length (arenas p) + n)%nat → is_Some (heap k)) →
  (∀ i c, arenas p !! i = Some c →
          cchunk.next_ c = cchunk.mem_ c ∧ cchunk.stack_size_ c = 0) →
  ∃ p', add_chunks heap n p = Ok p' [] ∧
        ∀ i c, arenas p' !! i = Some c →
               cchunk.next_ c = cchunk.mem_ c ∧ cchunk.stack_size_ c = 0.
Proof.
  induction n as [|n IH]; intros p Hc Hheap Hle Hh Hfresh; simpl.
  - by exists p.
  - destruct (Hh (length (arenas p))) as [m Hm]; [lia|].
    destruct (add_chunk_spec heap p m Hc Hheap ltac:(lia) Hm)
      as (cnew & p1 & H1 & H2 & H3 & H4 & H5 & H6 & H7 & H8 & H9 & H10 & H11).
    destruct (Z.ltb_spec (num_chunks_ p) (max_chunks_ p)); [|lia].
    destruct (IH p1 H6) as (p' & Hadd & Hf').
    + by rewrite H11.
    + lia.
    + rewrite H7, length_app. simpl. intros k Hk. apply Hh. lia.
    + intros i c. rewrite H7. intros Hi.
      apply lookup_app_Some in Hi as [Hi|[_ Hi]]; [by eapply Hfresh|].
      apply list_lookup_singleton_Some in Hi as [_ <-]. split; [|done].
      destruct (core_arenas heap p1 H6 (length (arenas p)) cnew) as (_ & Hh' & _).
      { by rewrite H7, lookup_app_r, Nat.sub_diag by lia. }
      congruence.
    + exists p'. rewrite H1. simpl. by rewrite Hadd.
Qed.

Lemma add_chunks_bad_alloc heap n : ∀ p,
  core heap p → heap_ok heap (obj_size_ p) →
  num_chunks_ p + Z.of_nat n ≤ max_chunks_ p →
  (∃ k, (length (arenas p) ≤ k < length (arenas p) + n)%nat ∧ heap k = None) →
  add_chunks heap n p = Err BadAlloc.
Proof.
  induction n as [|n IH]; intros p Hc Hheap Hle (k & Hk & Hnone); [lia|]. simpl.
  destruct (heap (length (arenas p))) as [m|] eqn:Hm.
  - destruct (add_chunk_spec heap p m Hc Hheap ltac:(lia) Hm)
      as (cnew & p1 & H1 & H2 & H3 & H4 & H5 & H6 & H7 & H8 & H9 & H10 & H11).
    destruct (Z.ltb_spec (num_chunks_ p) (max_chunks_ p)); [|lia].
    rewrite H1. simpl. rewrite (IH p1 H6); [done|by rewrite H11|lia|].
    exists k. split; [|done]. rewrite H7, length_app. simpl.
    assert (k ≠ length (arenas p)) by congruence. lia.
  - by rewrite (add_chunk_no_buffer heap p _ Hc ltac:(lia) Hm).
Qed.

(** The pool before [init] has filled its pointer array. *)
Lemma init_core heap S n :
  0 < S < 2 ^ 64 → 0 ≤ n → 8 * n < 2 ^ 64 →
  let p1 := {| chunks_ := replicate (Z.to_nat n) None; current_chunk_ := 0%nat;
               num_chunks_ := 0; max_chunks_ := n; obj_size_ := S;
               CHUNK_SIZE_ := Z.max S DEFAULT_CHUNK_SIZE |} in
  arenas p1 = [] ∧ core heap p1.
Proof.
  intros HS Hn Hsz p1.
  assert (arenas p1 = []) as Har1 by (by apply (arenas_layout [] (Z.to_nat n))).
  split; [done|].
  split; simpl; rewrite ?Har1; simpl; try done; try lia. by rewrite Nat.sub_0_r.
Qed.

Lemma cpool_total heap S n :
  heap_ok heap S → 0 < S < 2 ^ 64 → 0 ≤ n < 2 ^ 60 → 1 ≤ to_int n →
  (∀ k, (k < Z.to_nat (to_int n))%nat → is_Some (heap k)) →
  ∃ p, cpool heap S n = Ok p [] ∧
       num_chunks_ p = to_int n ∧ max_chunks_ p = n ∧ obj_size_ p = S ∧
       current_chunk_ p = 0%nat ∧ pool_inv heap p [] ∧
       ∀ i c, arenas p !! i = Some c →
              cchunk.next_ c = cchunk.mem_ c ∧ cchunk.stack_size_ c = 0.
Proof.
  intros Hheap HS Hn Hint Hh.
  destruct (init_core heap S n HS ltac:(lia) ltac:(lia)) as [Har1 Hc1].
  pose proof (to_int_le n ltac:(lia)) as Hle.
  destruct (add_chunks_total heap (Z.to_nat (to_int n)) _ Hc1 Hheap) as (p2 & Hadd & Hf).
  { simpl. lia. }
  { rewrite Har1. simpl. intros k Hk. apply Hh. lia. }
  { intros i c. rewrite Har1. discriminate. }
  destruct (add_chunks_spec heap (Z.to_nat (to_int n)) _ p2 [] Hc1 Hheap)
    as (_ & Hc2 & Hav & Hnum & Hobj & Hmax);
    [by unfold pool_avail, pool_slots; rewrite Har1|simpl; lia|done|].
  simpl in Hnum, Hobj, Hmax.
  pose proof (core_num heap p2 Hc2) as Hlen.
  destruct (lookup_lt_is_Some_2 (arenas p2) 0 ltac:(lia)) as [c0 Hc0].
  assert (cpool heap S n = Ok (set_current p2 0) []) as Hp.
  { unfold cpool, init, new_array. simpl.
    destruct (Z.ltb_spec (8 * n) (2 ^ 63)); [|lia]. simpl.
    rewrite Hadd. simpl. by rewrite (get_chunk_arena heap p2 0 c0 Hc2 Hc0). }
  exists (set_current p2 0). split; [done|].
  destruct (cpool_inv heap S n _ [] Hheap HS ltac:(lia) Hp) as (_ & Hinv & _).
  simpl. split_and!; try done. lia.
Qed.

(** X11.  [cpool(S, n)] creates [(int)n] arenas at once.  When the
    pointer array is one [new] accepts (fewer than 2^60 pointers, an object
    size below 2^63) and the allocator delivers [(int)n] buffers, the
    constructor succeeds without a message: the pool has [(int)n] arenas
    and a pointer array of [n] elements, the current arena is the first,
    arena [i] lies in the [i]-th buffer, holds the chunk budget rounded down
    to whole slots, and is unused. *)
Theorem cpool_ctor (heap : nat → option Z) (S n : Z) :
  heap_ok heap S → 0 < S < 2 ^ 63 → 0 ≤ n < 2 ^ 60 → 1 ≤ to_int n →
  (∀ k, (k < Z.to_nat (to_int n))%nat → is_Some (heap k)) →
  ∃ p, cpool heap S n = Ok p [] ∧
       num_chunks_ p = to_int n ∧ max_chunks_ p = n ∧
       Z.of_nat (length (arenas p)) = to_int n ∧ current_chunk_ p = 0%nat ∧
       ∀ i c, arenas p !! i = Some c →
              heap i = Some (cchunk.first_addr c) ∧
              cchunk.pool_size c = chunk_bytes S ∧ cchunk.obj_size_ c = S ∧
              cchunk.bump_cursor c = 0 ∧ cchunk.stack_size_ c = 0.
Proof.
  intros Hheap HS Hn Hint Hh.
  destruct (cpool_total heap S n Hheap ltac:(lia) Hn Hint Hh)
    as (p & Hp & Hnum & Hmax & Hobj & Hcur & [(Hc & _) _] & Hf).
  exists p. split; [done|]. split; [done|]. split; [done|].
  split; [by rewrite <- (core_num heap p Hc)|]. split; [done|].
  intros i c Hi. destruct (core_arenas heap p Hc i c Hi) as (_ & Hhi & Ho & Hps).
  destruct (Hf i c Hi) as [Hnext Hstk].
  unfold cchunk.first_addr, cchunk.pool_size, cchunk.bump_cursor.
  rewrite Hobj in *. split_and!; try done. lia.
Qed.

Lemma cpool_ctor_witness :
  heap_ok heap_4MiB (2 ^ 19) ∧ 0 < 2 ^ 19 < 2 ^ 63 ∧ 0 ≤ 3 < 2 ^ 60 ∧ 1 ≤ to_int 3 ∧
  (∀ k, (k < Z.to_nat (to_int 3))%nat → is_Some (heap_4MiB k)) ∧
  ∃ p, cpool heap_4MiB (2 ^ 19) 3 = Ok p [] ∧
       num_chunks_ p = to_int 3 ∧ max_chunks_ p = 3 ∧
       Z.of_nat (length (arenas p)) = to_int 3 ∧ current_chunk_ p = 0%nat ∧
       ∀ i c, arenas p !! i = Some c →
              heap_4MiB i = Some (cchunk.first_addr c) ∧
              cchunk.pool_size c = chunk_bytes (2 ^ 19) ∧ cchunk.obj_size_ c = 2 ^ 19 ∧
              cchunk.bump_cursor c = 0 ∧ cchunk.stack_size_ c = 0.
Proof.
  assert (0 < 2 ^ 19 < 2 ^ 63) as HS by lia.
  assert (0 ≤ 3 < 2 ^ 60) as Hn by lia.
  assert (1 ≤ to_int 3) as Hint by (vm_compute; discriminate).
  assert (∀ k, (k < Z.to_nat (to_int 3))%nat → is_Some (heap_4MiB k)) as Hh.
  { intros k Hk. change (Z.to_nat (to_int 3)) with 3%nat in Hk.
    unfold heap_4MiB. destruct (Nat.ltb_spec k 4); [by eexists|lia]. }
  split; [apply heap_4MiB_ok|]. split; [exact HS|]. split; [exact Hn|].
  split; [exact Hint|]. split; [exact Hh|].
  exact (cpool_ctor heap_4MiB (2 ^ 19) 3 heap_4MiB_ok HS Hn Hint Hh).
Defined.

(** X12.  A pool needs at least one arena: when [(int)max_chunks] is zero
    or negative the loop of [init] creates none and the constructor never
    yields a pool.  For 2^60 pointers or more [new] refuses the array
    ([bad_array_new_length]); otherwise the constructor faults at
    [current_chunk_ = chunks_[0]], which reads past an array of no elements
    when [max_chunks] is 0 and an element never written otherwise. *)
Theorem cpool_ctor_without_arena (heap : nat → option Z) (S n : Z) :
  0 ≤ n < 2 ^ 64 → to_int n ≤ 0 →
  cpool heap S n
    = Err (if n =? 0 then OutOfBounds
           else if n <? 2 ^ 60 then Uninitialised else BadAlloc).
Proof.
  intros Hn Hint. unfold cpool, init, new_array. simpl.
  destruct (Z.ltb_spec n (2 ^ 60)) as [Hn60|Hn60];
    destruct (Z.ltb_spec (8 * n) (2 ^ 63)) as [Hsz|Hsz]; try lia.
  - simpl. replace (Z.to_nat (to_int n)) with 0%nat by lia. simpl.
    unfold get_chunk. simpl.
    destruct (Z.eqb_spec n 0) as [->|Hne]; [done|].
    by rewrite lookup_replicate_2 by lia.
  - simpl. by destruct (Z.eqb_spec n 0) as [->|Hne]; [lia|].
Qed.

Lemma cpool_ctor_without_arena_witness :
  0 ≤ 2 ^ 32 < 2 ^ 64 ∧ to_int (2 ^ 32) ≤ 0 ∧
  cpool heap_4MiB 16 (2 ^ 32)
    = Err (if 2 ^ 32 =? 0 then OutOfBounds
           else if 2 ^ 32 <? 2 ^ 60 then Uninitialised else BadAlloc).
Proof.
  assert (0 ≤ 2 ^ 32 < 2 ^ 64) as Hn by lia.
  assert (to_int (2 ^ 32) ≤ 0) as Hint by (vm_compute; discriminate).
  split; [exact Hn|]. split; [exact Hint|].
  exact (cpool_ctor_without_arena heap_4MiB 16 (2 ^ 32) Hn Hint).
Defined.

(** X13.  An object size of zero makes the constructor divide by zero: once
    [new] has delivered the pointer array (fewer than 2^60 pointers), the
    first arena computes [pool_size % obj_size]. *)
Theorem cpool_ctor_zero_size (heap : nat → option Z) (n : Z) :
  0 ≤ n < 2 ^ 60 → 1 ≤ to_int n →
  cpool heap 0 n = Err DivisionByZero.
Proof.
  intros Hn Hint. pose proof (to_int_le n ltac:(lia)) as Hle.
  unfold cpool, init, new_array. simpl.
  destruct (Z.ltb_spec (8 * n) (2 ^ 63)); [|lia]. simpl.
  destruct (Z.to_nat (to_int n)) as [|k] eqn:Hk; [lia|]. simpl.
  unfold add_chunk. simpl. destruct (Z.ltb_spec 0 n); [|lia].
  unfold store_new_chunk. simpl. done.
Qed.

Lemma cpool_ctor_zero_size_witness :
  0 ≤ 20 < 2 ^ 60 ∧ 1 ≤ to_int 20 ∧ cpool heap_4MiB 0 20 = Err DivisionByZero.
Proof.
  assert (0 ≤ 20 < 2 ^ 60) as Hn by lia.
  assert (1 ≤ to_int 20) as Hint by (vm_compute; discriminate).
  split; [exact Hn|]. split; [exact Hint|].
  exact (cpool_ctor_zero_size heap_4MiB 20 Hn Hint).
Defined.

Lemma cpool_bad_alloc heap S n k :
  heap_ok heap S → 0 < S < 2 ^ 64 → 0 ≤ n < 2 ^ 61 →
  (k < Z.to_nat (to_int n))%nat → heap k = None →
  cpool heap S n = Err BadAlloc.
Proof.
  intros Hheap HS Hn Hk Hnone.
  destruct (init_core heap S n HS ltac:(lia) ltac:(lia)) as [Har1 Hc1].
  pose proof (to_int_le n ltac:(lia)) as Hle.
  unfold cpool, init, new_array. simpl.
  destruct (Z.ltb_spec (8 * n) (2 ^ 63)); [|done]. simpl.
  rewrite (add_chunks_bad_alloc heap _ _ Hc1 Hheap); [done|simpl; lia|].
  exists k. rewrite Har1. simpl. split; [lia|done].
Qed.

(** X14.  The constructor gives up at the first buffer the allocator does
    not deliver: when [new] fails for one of the [(int)n] arenas,
    [cpool(S, n)] ends with that [bad_alloc] and there is no pool. *)
Theorem cpool_ctor_bad_alloc (heap : nat → option Z) (S n : Z) (k : nat) :
  heap_ok heap S → 0 < S < 2 ^ 64 → 0 ≤ n < 2 ^ 61 →
  (k < Z.to_nat (to_int n))%nat → heap k = None →
  cpool heap S n = Err BadAlloc.
Proof. apply cpool_bad_alloc. Qed.

Lemma cpool_ctor_bad_alloc_witness :
  heap_ok heap_4MiB (2 ^ 19) ∧ 0 < 2 ^ 19 < 2 ^ 64 ∧ 0 ≤ 5 < 2 ^ 61 ∧
  (4 < Z.to_nat (to_int 5))%nat ∧ heap_4MiB 4 = None ∧
  cpool heap_4MiB (2 ^ 19) 5 = Err BadAlloc.
Proof.
  assert (0 < 2 ^ 19 < 2 ^ 64) as HS by lia.
  assert (0 ≤ 5 < 2 ^ 61) as Hn by lia.
  assert (4 < Z.to_nat (to_int 5))%nat as Hk by (vm_compute; lia).
  assert (heap_4MiB 4 = None) as Hnone by reflexivity.
  split; [apply heap_4MiB_ok|]. split; [exact HS|]. split; [exact Hn|].
  split; [exact Hk|]. split; [exact Hnone|].
  exact (cpool_ctor_bad_alloc heap_4MiB (2 ^ 19) 5 4 heap_4MiB_ok HS Hn Hk Hnone).
Defined.

(** Every arena of a pool has the same number of slots. *)
Lemma arena_nslots heap p i c :
  core heap p → arenas p !! i = Some c →
  Z.of_nat (cchunk.nslots c) = chunk_bytes (obj_size_ p) / obj_size_ p.
Proof.
  intros Hc Hi. destruct (core_arenas heap p Hc i c Hi) as (Hwf & _ & Ho & Hps).
  pose proof (cchunk.wf_pool c Hwf) as Hpool. pose proof (cchunk.wf_obj c Hwf).
  rewrite <- Hps, Hpool, <- Ho. by rewrite Z.div_mul by lia.
Qed.

Lemma length_bind_const {A B} (f : A → list B) (l : list A) (k : nat) :
  (∀ i x, l !! i = Some x → length (f x) = k) → length (l ≫= f) = (length l * k)%nat.
Proof.
  induction l as [|x l IH]; intros H; [done|].
  rewrite bind_cons, length_app, (H 0%nat x eq_refl), IH; [simpl; lia|].
  intros i y Hi. by apply (H (S i)).
Qed.

Lemma bind_ext_lookup {A B} (f g : A → list B) (l : list A) :
  (∀ i x, l !! i = Some x → f x = g x) → l ≫= f = l ≫= g.
Proof.
  induction l as [|x l IH]; intros H; [done|].
  rewrite !bind_cons, (H 0%nat x eq_refl), IH; [done|].
  intros i y Hi. by apply (H (S i)).
Qed.

Lemma length_pool_slots heap p :
  core heap p →
  Z.of_nat (length (pool_slots p))
    = num_chunks_ p * (chunk_bytes (obj_size_ p) / obj_size_ p).
Proof.
  intros Hc. unfold pool_slots.
  pose proof (core_obj heap p Hc) as Ho.
  assert (0 ≤ chunk_bytes (obj_size_ p) / obj_size_ p) as Hk.
  { destruct (chunk_bytes_eq (obj_size_ p) ltac:(lia)) as (_ & ? & _).
    apply Z.div_pos; lia. }
  rewrite (length_bind_const _ _ (Z.to_nat (chunk_bytes (obj_size_ p) / obj_size_ p))).
  - rewrite (core_num heap p Hc). lia.
  - intros i c Hi. pose proof (arena_nslots heap p i c Hc Hi) as Hn.
    unfold cchunk.all_slots. rewrite length_fmap, length_seq. lia.
Qed.

(** X15.  The one-argument constructor [cpool(S)] reserves twenty arenas
    before the first allocation: it needs twenty buffers from the
    allocator, fails with [bad_alloc] when one of them is refused, and
    otherwise yields a pool of twenty unused arenas with room for
    [20 * (chunk_bytes S / S)] objects. *)
Theorem cpool_default_reserves_20 (heap : nat → option Z) (S : Z) :
  heap_ok heap S → 0 < S < 2 ^ 64 →
  ((∀ k, (k < 20)%nat → is_Some (heap k)) →
   ∃ p, cpool_default heap S = Ok p [] ∧
        num_chunks_ p = 20 ∧ max_chunks_ p = 20 ∧ length (arenas p) = 20%nat ∧
        pool_avail p = pool_slots p ∧
        Z.of_nat (length (pool_slots p)) = 20 * (chunk_bytes S / S)) ∧
  (∀ k, (k < 20)%nat → heap k = None → cpool_default heap S = Err BadAlloc).
Proof.
  intros Hheap HS. unfold cpool_default.
  assert (to_int 20 = 20) as Hint by reflexivity.
  split.
  - intros Hh.
    destruct (cpool_total heap S 20 Hheap HS ltac:(lia) ltac:(lia))
      as (p & Hp & Hnum & Hmax & Hobj & Hcur & [(Hc & Hnd & _) _] & Hf).
    { rewrite Hint. intros k Hk. apply Hh. lia. }
    exists p. rewrite Hint in Hnum.
    pose proof (core_num heap p Hc) as Hlen.
    pose proof (length_pool_slots heap p Hc) as Hslots.
    rewrite Hobj, Hnum in Hslots.
    split_and!; try done; [lia|].
    unfold pool_avail, pool_slots. apply bind_ext_lookup. intros i c Hi.
    destruct (core_arenas heap p Hc i c Hi) as (Hwf & _).
    destruct (Hf i c Hi) as [Hnext Hstk].
    unfold cchunk.avail, cchunk.unbumped, cchunk.stack_addrs, cchunk.all_slots.
    rewrite Hstk. simpl. rewrite app_nil_r.
    rewrite (cchunk_facts.wf_bumped c 0 Hwf) by (simpl; lia).
    by rewrite Nat.sub_0_r.
  - intros k Hk Hnone.
    apply (cpool_bad_alloc heap S 20 k Hheap HS); [lia| |done].
    rewrite Hint. lia.
Qed.

Lemma heap_32MiB_ok : heap_ok heap_32MiB (2 ^ 19).
Proof.
  assert (chunk_bytes (2 ^ 19) = 2 ^ 20) as Hb by reflexivity.
  split; rewrite Hb; unfold heap_32MiB.
  - intros k m. destruct (Nat.ltb_spec k 32); [|discriminate]. intros [= <-]. lia.
  - intros i j mi mj Hne.
    destruct (Nat.ltb_spec i 32), (Nat.ltb_spec j 32); try discriminate.
    intros [= <-] [= <-]. lia.
Qed.

Lemma cpool_default_reserves_20_witness :
  heap_ok heap_32MiB (2 ^ 19) ∧ 0 < 2 ^ 19 < 2 ^ 64 ∧
  ((∀ k, (k < 20)%nat → is_Some (heap_32MiB k)) →
   ∃ p, cpool_default heap_32MiB (2 ^ 19) = Ok p [] ∧
        num_chunks_ p = 20 ∧ max_chunks_ p = 20 ∧ length (arenas p) = 20%nat ∧
        pool_avail p = pool_slots p ∧
        Z.of_nat (length (pool_slots p)) = 20 * (chunk_bytes (2 ^ 19) / 2 ^ 19)) ∧
  (∀ k, (k < 20)%nat → heap_32MiB k = None →
        cpool_default heap_32MiB (2 ^ 19) = Err BadAlloc).
Proof.
  assert (0 < 2 ^ 19 < 2 ^ 64) as HS by lia.
  split; [apply heap_32MiB_ok|]. split; [exact HS|].
  exact (cpool_default_reserves_20 heap_32MiB (2 ^ 19) heap_32MiB_ok HS).
Defined.

(** *** No slot is lost *)

Lemma exhausted_avail c : cchunk.wf c → cchunk.exhausted c → cchunk.avail c = [].
Proof.
  intros Hwf [Hmax Hstk].
  destruct (cchunk.wf_next c Hwf) as (k & Hk & Hnext).
  pose proof (cchunk.wf_max c Hwf). pose proof (cchunk.wf_pool c Hwf).
  pose proof (cchunk.wf_obj c Hwf).
  assert (k = cchunk.nslots c) as -> by nia.
  unfold cchunk.avail, cchunk.unbumped, cchunk.stack_addrs.
  rewrite (cchunk_facts.wf_bumped c _ Hwf Hnext), Hstk, Nat.sub_diag. done.
Qed.

Lemma bind_nil_lookup {A B} (f : A → list B) (l : list A) :
  (∀ i x, l !! i = Some x → f x = []) → l ≫= f = [].
Proof.
  induction l as [|x l IH]; intros H; [done|].
  rewrite bind_cons, (H 0%nat x eq_refl), IH; [done|].
  intros i y Hi. by apply (H (S i)).
Qed.

(** What a successful [chunks_[i]->allocate()] takes from the pool. *)
Lemma allocate_at_delta heap p i a p' log :
  core heap p → allocate_at p i = Ok (a, p') log → a ≠ 0 →
  pool_avail p ≡ₚ a :: pool_avail p' ∧ pool_slots p' = pool_slots p ∧
  num_chunks_ p' = num_chunks_ p ∧ max_chunks_ p' = max_chunks_ p.
Proof.
  intros Hc H Hne.
  destruct (allocate_at_Ok heap p i a p' log Hc H) as (c & c' & Hi & Ha & -> & ->).
  destruct (core_arenas heap p Hc i c Hi) as (Hwf & _).
  destruct (cchunk_facts.allocate_wf _ _ _ _ Hwf Ha) as (_ & Hwf' & Hsb & Hcase).
  destruct (same_shape_set_chunk heap p i c c' Hc Hi Hsb)
    as (_ & Hnum & Hmax & _ & _ & _ & Hsl).
  destruct Hcase as [(-> & _)|Hav]; [done|].
  pose proof (lookup_lt_Some _ _ _ Hi) as Hlt.
  destruct (set_chunk_arenas heap p i c' Hc Hlt) as [_ Har].
  split; [|done]. unfold pool_avail. rewrite Har. by eapply bind_insert_uncons.
Qed.

Lemma allocate_scan_delta heap live n : ∀ i p a p' log,
  inv_core heap p live → allocate_scan n i p = Ok (a, p') log →
  (a = 0 ∧ p' = p ∧
   ∀ j c, (i ≤ j < i + n)%nat → arenas p !! j = Some c → cchunk.exhausted c) ∨
  (a ≠ 0 ∧ pool_avail p ≡ₚ a :: pool_avail p' ∧ pool_slots p' = pool_slots p ∧
   num_chunks_ p' = num_chunks_ p ∧ max_chunks_ p' = max_chunks_ p).
Proof.
  induction n as [|n IH]; intros i p a p' log Hinv H; simpl in H.
  - injection H as <- <- <-. left. split; [done|]. split; [done|]. intros j c Hj. lia.
  - apply bind_Ok in H as ([a1 p1] & l1 & l2 & Hat & H & ->).
    destruct (allocate_at_inv heap p live i a1 p1 l1 Hinv Hat)
      as (-> & _ & [(-> & -> & c & Hi & Hex)|(Hne & _)]).
    + simpl in H. destruct (IH (S i) p a p' l2 Hinv H) as [(-> & -> & Hall)|Hfound].
      * left. split; [done|]. split; [done|]. intros j cj Hj Hcj.
        destruct (decide (j = i)) as [->|]; [congruence|]. apply (Hall j); [lia|done].
      * by right.
    + destruct (Z.eqb_spec a1 0); [done|]. injection H as <- <- <-.
      right. split; [done|].
      exact (allocate_at_delta heap p i a1 p1 [] (proj1 Hinv) Hat Hne).
Qed.

(** [allocate] either takes an available slot and leaves the number of
    arenas as it is, or finds none available and adds an arena, whose first
    slot it takes. *)
Lemma allocate_delta heap p live a p' log :
  heap_ok heap (obj_size_ p) → pool_inv heap p live →
  allocate heap p = Ok (a, p') log →
  (pool_avail p ≡ₚ a :: pool_avail p' ∧ pool_slots p' = pool_slots p ∧
   num_chunks_ p' = num_chunks_ p ∧ max_chunks_ p' = max_chunks_ p) ∨
  (pool_avail p = [] ∧ num_chunks_ p' = num_chunks_ p + 1 ∧
   heap (length (arenas p)) = Some a ∧
   ∃ new_slots, pool_slots p' = pool_slots p ++ new_slots ∧
                new_slots ≡ₚ a :: pool_avail p').
Proof.
  intros Hheap [Hinv Hcur] H. pose proof Hinv as (Hc & _).
  pose proof H as H0. unfold allocate in H.
  apply bind_Ok in H as ([a1 p1] & l1 & l2 & Hat & H & ->).
  destruct (allocate_at_inv heap p live _ a1 p1 l1 Hinv Hat)
    as (-> & _ & [(-> & -> & cur & Hcu & Hex)|(Hne & _)]).
  2:{ destruct (Z.eqb_spec a1 0); [done|]. injection H as <- <- <-.
      left. exact (allocate_at_delta heap p _ a1 p1 [] Hc Hat Hne). }
  simpl in H.
  apply bind_Ok in H as ([a2 p2] & l3 & l4 & Hscan & H & ->).
  destruct (allocate_scan_delta heap live _ _ _ _ _ _ Hinv Hscan)
    as [(-> & -> & Hall)|(Hne & Hfound)].
  2:{ destruct (Z.eqb_spec a2 0); [done|]. injection H as <- <- <-. by left. }
  simpl in H. destruct (Z.leb_spec (2 ^ 32) (num_chunks_ p)) as [|Hlt]; [discriminate|].
  apply bind_Ok in H as (p3 & l5 & l6 & Hadd & _).
  destruct (add_chunk_heap heap p _ p3 l5 Hc Hadd) as [m Hm].
  pose proof (core_num heap p Hc) as Hn.
  assert (∀ j cj, arenas p !! j = Some cj → cchunk.exhausted cj) as Hall'.
  { intros j cj Hj. apply (Hall j); [|done]. apply lookup_lt_Some in Hj. lia. }
  destruct (allocate_fresh_arena heap p live cur m (conj Hinv Hcur) Hheap Hlt
              Hcu Hex Hall' Hm) as (cnew & p'' & H1 & H2 & H3 & H4 & H5 & H6 & H7 & H8).
  rewrite H2 in H0. injection H0 as <- <- _.
  right. split.
  { apply bind_nil_lookup. intros j cj Hj.
    destruct (core_arenas heap p Hc j cj Hj) as (Hwf & _).
    by apply exhausted_avail, (Hall' j). }
  split; [done|]. split; [done|].
  destruct (new_chunk_Ok heap (obj_size_ p) m (core_obj heap p Hc) Hheap)
    as (cnew' & Hnew & Hwf & Hav & Hmem & Hnext & Hobj & _); [by eexists|].
  rewrite H1 in Hnew. injection Hnew as <-.
  pose proof (cchunk.wf_max cnew Hwf). pose proof (cchunk.wf_pool cnew Hwf).
  pose proof (cchunk.wf_one cnew Hwf). pose proof (cchunk.wf_obj cnew Hwf).
  pose proof (cchunk.wf_top cnew Hwf). pose proof (cchunk.wf_mem cnew Hwf).
  assert (cchunk.allocate cnew = Ok (m, cchunk.set_next cnew (m + obj_size_ p)) [])
    as Ha.
  { rewrite cchunk_facts.allocate_bump by nia.
    rewrite ptr_add_small by nia. by rewrite Hnext, Hobj. }
  destruct (cchunk_facts.allocate_wf _ _ _ _ Hwf Ha) as (_ & _ & Hsb & Hcase).
  destruct Hcase as [(-> & _)|Hperm]; [lia|].
  exists (cchunk.all_slots cnew). unfold pool_slots, pool_avail.
  rewrite H4, !bind_app, !bind_singleton.
  rewrite (cchunk_facts.same_buffer_all_slots _ _ Hsb).
  split; [done|].
  assert (arenas p ≫= cchunk.avail = []) as ->.
  { apply bind_nil_lookup. intros j cj Hj.
    destruct (core_arenas heap p Hc j cj Hj) as (Hwfj & _).
    by apply exhausted_avail, (Hall' j). }
  simpl. by rewrite <- Hav.
Qed.

Lemma deallocate_scan_unclaimed heap b a p n : ∀ i log,
  core heap p → deallocate_scan b a n i p = Ok None log →
  ∀ j c, (i ≤ j < i + n)%nat → arenas p !! j = Some c → ¬ claims c a.
Proof.
  induction n as [|n IH]; intros i log Hc H j c Hj Hjc; [lia|]. simpl in H.
  apply bind_Ok in H as (ci & l1 & l2 & Hget & H & ->).
  apply (get_chunk_Ok heap) in Hget as [Hi ->]; [|done].
  destruct (Z.ltb_spec (to_unsigned (a - cchunk.first_addr ci)) (cchunk.pool_size ci))
    as [Hcl|Hcl].
  - apply bind_Ok in H as (c' & l3 & l4 & _ & H & _). discriminate.
  - destruct (decide (j = i)) as [->|Hne].
    + rewrite Hi in Hjc. injection Hjc as <-. unfold claims. lia.
    + apply (IH (S i) l2 Hc H j c); [lia|done].
Qed.

(** The arena whose buffer holds an address claims it. *)
Lemma claims_own_slot c a : cchunk.wf c → a ∈ cchunk.all_slots c → claims c a.
Proof.
  intros Hwf Ha. pose proof (slot_in_buffer c a Hwf Ha) as Hr.
  unfold claims, to_unsigned, cchunk.first_addr, cchunk.pool_size.
  pose proof (Z.mod_le (a - cchunk.mem_ c) (2 ^ 32) ltac:(lia) ltac:(lia)). lia.
Qed.

(** A completed [deallocate] of a live address puts it on a freed stack. *)
Lemma deallocate_delta heap b p live a p' log :
  pool_inv heap p live → a ∈ live → deallocate b a p = Ok p' log →
  pool_avail p' ≡ₚ a :: pool_avail p ∧ pool_slots p' = pool_slots p.
Proof.
  intros [Hinv Hcur] Ha H. pose proof Hinv as (Hc & Hnd & Hsub).
  pose proof (inv_core_live_range heap p live a Hinv Ha) as Hr.
  unfold deallocate in H. apply bind_Ok in H as (r & l1 & l2 & Hscan & H & ->).
  destruct r as [p1|].
  - injection H as <- <-.
    destruct (deallocate_scan_Some heap b a p _ _ _ _ Hc Hscan)
      as (k & c & c' & Hk & _ & Hd & ->).
    destruct (core_arenas heap p Hc k c Hk) as (Hwf & _).
    destruct (cchunk_facts.deallocate_wf b a c c' l1 Hwf ltac:(lia) Hd)
      as (Hwf' & Hsb & Hav).
    destruct (same_shape_set_chunk heap p k c c' Hc Hk Hsb)
      as (_ & _ & _ & _ & _ & _ & Hsl).
    pose proof (lookup_lt_Some _ _ _ Hk) as Hlt.
    destruct (set_chunk_arenas heap p k c' Hc Hlt) as [_ Har].
    split; [|done]. unfold pool_avail. rewrite Har. by eapply bind_insert_cons.
  - exfalso. destruct (Z.leb_spec (2 ^ 32) (num_chunks_ p)) as [|Hlt]; [discriminate|].
    assert (a ∈ pool_slots p) as Hslot by (apply Hsub, elem_of_app; by right).
    apply list_elem_of_bind in Hslot as (c & Hslot & Hin).
    apply list_elem_of_lookup in Hin as (j & Hj).
    destruct (core_arenas heap p Hc j c Hj) as (Hwf & _).
    pose proof (core_num heap p Hc) as Hn. pose proof (lookup_lt_Some _ _ _ Hj).
    apply (deallocate_scan_unclaimed heap b a p _ _ _ Hc Hscan j c); [lia|done|].
    by apply claims_own_slot.
Qed.

Lemma reclaim_avail heap p p' log :
  core heap p → reclaim p = Ok p' log →
  pool_avail p' = pool_slots p' ∧ pool_slots p' = pool_slots p.
Proof.
  intros Hc H.
  destruct (reclaim_spec heap p Hc) as (p1 & Hr & Hc1 & Hsh & Har).
  rewrite Hr in H. injection H as <- <-.
  destruct Hsh as (_ & _ & _ & _ & _ & _ & Hsl).
  split; [|done]. rewrite Hsl. unfold pool_avail, pool_slots. rewrite Har.
  assert (Forall cchunk.wf (arenas p)) as Hwf.
  { apply Forall_lookup. intros i c Hi. by destruct (core_arenas heap p Hc i c Hi). }
  clear -Hwf. induction Hwf as [|c cs Hw _ IH]; [done|].
  rewrite fmap_cons, !bind_cons. f_equal; [|done].
  by destruct (cchunk_facts.reclaim_wf c Hw) as (_ & _ & ->).
Qed.

Lemma cpool_avail heap S n p log :
  heap_ok heap S → 0 < S < 2 ^ 64 → 0 ≤ n < 2 ^ 64 →
  cpool heap S n = Ok p log → pool_avail p = pool_slots p.
Proof.
  intros Hheap HS Hn H. unfold cpool, init in H. simpl in H.
  apply bind_Ok in H as (chunks & l1 & l2 & Hnew & H & ->).
  apply new_array_Ok in Hnew as (-> & -> & Hsz).
  apply bind_Ok in H as (p2 & l3 & l4 & Hadd & H & ->).
  apply bind_Ok in H as (c0 & l5 & l6 & Hget & H & ->).
  injection H as <- <-.
  destruct (init_core heap S n HS ltac:(lia) ltac:(lia)) as [Har1 Hc1].
  pose proof (to_int_le n ltac:(lia)) as Hint.
  destruct (add_chunks_spec heap (Z.to_nat (to_int n)) _ p2 l3 Hc1 Hheap) as
    (_ & _ & Hav & _);
    [by unfold pool_avail, pool_slots; rewrite Har1|simpl; lia|done|].
  exact Hav.
Qed.

(** The invariant of a pool under callers that respect ownership, with the
    count of slots. *)
Lemma pool_run_conserves heap b S cs : ∀ p live p' live',
  heap_ok heap S →
  pool_inv heap p live ∧ obj_size_ p = S ∧ pool_avail p ++ live ≡ₚ pool_slots p →
  pool_run heap b cs p live = Reached p' live' →
  pool_inv heap p' live' ∧ obj_size_ p' = S ∧ pool_avail p' ++ live' ≡ₚ pool_slots p'.
Proof.
  intros p live p' live' Hheap.
  apply (run_invariant _ _ _
           (λ p live, pool_inv heap p live ∧ obj_size_ p = S ∧
                      pool_avail p ++ live ≡ₚ pool_slots p)).
  clear p live p' live'. intros cl p live p' live' (Hinv & Ho & Hp) Hstep.
  destruct cl as [|a|]; simpl in Hstep.
  - destruct (allocate heap p) as [[a p1] log|] eqn:Ha; [|discriminate].
    injection Hstep as <- <-.
    destruct (allocate_inv heap p live a p1 log ltac:(by rewrite Ho) Hinv Ha)
      as (Hne & _ & Hinv' & Ho').
    destruct (Z.eqb_spec a 0); [done|]. split; [done|]. split; [congruence|].
    rewrite <- Permutation_middle, app_comm_cons.
    destruct (allocate_delta heap p live a p1 log ltac:(by rewrite Ho) Hinv Ha)
      as [(Hperm & -> & _)|(Hnil & _ & _ & new_slots & -> & Hperm)].
    + by rewrite <- Hperm.
    + rewrite Hnil in Hp. simpl in Hp. rewrite <- Hperm, Hp. apply Permutation_app_comm.
  - destruct (decide (a ∈ live)) as [Hin|]; [|discriminate].
    destruct (deallocate b a p) as [p1 log|] eqn:Hd; [|discriminate].
    injection Hstep as <- <-.
    destruct (deallocate_inv heap b p live a p1 log Hinv Hin Hd) as [Hinv' Ho'].
    split; [done|]. split; [congruence|].
    destruct (deallocate_delta heap b p live a p1 log Hinv Hin Hd) as [Hperm ->].
    rewrite Hperm, <- Hp.
    assert (NoDup live) as Hndl.
    { destruct Hinv as [(_ & Hnd & _) _]. by apply NoDup_app in Hnd as (_ & _ & ?). }
    rewrite (live_remove live a Hndl Hin) at 2. simpl. apply Permutation_middle.
  - destruct (reclaim p) as [p1 log|] eqn:Hr; [|discriminate].
    injection Hstep as <- <-.
    destruct (reclaim_inv heap p live p1 log ltac:(by rewrite Ho) Hinv Hr) as [Hinv' Ho'].
    split; [done|]. split; [congruence|].
    destruct Hinv as [(Hc & _) _].
    destruct (reclaim_avail heap p p1 log Hc Hr) as [-> _]. by rewrite app_nil_r.
Qed.

Lemma pool_constructed_conserves heap b S n p0 cs p live :
  pool_constructed heap S n p0 →
  pool_run heap b cs p0 [] = Reached p live →
  pool_inv heap p live ∧ obj_size_ p = S ∧ pool_avail p ++ live ≡ₚ pool_slots p.
Proof.
  intros Hcons Hrun. pose proof Hcons as (log & Hp & Hheap & HS & Hn).
  destruct (pool_constructed_inv heap S n p0 Hcons) as [Hinv Ho].
  apply (pool_run_conserves heap b S cs p0 [] p live Hheap); [|done].
  split; [done|]. split; [done|].
  by rewrite app_nil_r, (cpool_avail heap S n p0 log Hheap HS Hn Hp).
Qed.

(** X16.  The pool loses no slot.  After any run of a caller that respects
    ownership, every slot of every arena is either available to a later
    [allocate] or live, and exactly once; so the available and the live
    slots together number [num_chunks_] times the slots of one arena, and
    that product bounds the number of live objects. *)
Theorem pool_conservation (heap : nat → option Z) (b : build) (S n : Z) (p0 p : t)
    (cs : list call) (live : list Z) :
  pool_constructed heap S n p0 →
  pool_run heap b cs p0 [] = Reached p live →
  pool_avail p ++ live ≡ₚ pool_slots p ∧ NoDup (pool_slots p) ∧
  Z.of_nat (length (pool_avail p)) + Z.of_nat (length live)
    = num_chunks_ p * (chunk_bytes S / S).
Proof.
  intros Hcons Hrun. pose proof Hcons as (_ & _ & Hheap & _).
  destruct (pool_constructed_conserves heap b S n p0 cs p live Hcons Hrun)
    as ([(Hc & _) _] & Ho & Hp).
  split; [done|]. split; [apply (pool_slots_NoDup heap); by rewrite ?Ho|].
  pose proof (length_pool_slots heap p Hc) as Hlen. rewrite Ho in Hlen.
  rewrite <- Hlen, <- Hp, length_app. lia.
Qed.

Lemma pool_conservation_witness :
  pool_constructed heap_4MiB (2 ^ 19) 1 pool_2slots ∧
  pool_run heap_4MiB Release
    [Allocate; Allocate; Allocate; Deallocate (4096 + 2 ^ 19)] pool_2slots []
    = Reached pool_2slots_used.1 pool_2slots_used.2 ∧
  pool_avail pool_2slots_used.1 ++ pool_2slots_used.2 ≡ₚ pool_slots pool_2slots_used.1 ∧
  NoDup (pool_slots pool_2slots_used.1) ∧
  Z.of_nat (length (pool_avail pool_2slots_used.1))
    + Z.of_nat (length pool_2slots_used.2)
    = num_chunks_ pool_2slots_used.1 * (chunk_bytes (2 ^ 19) / 2 ^ 19).
Proof.
  split; [apply pool_2slots_constructed|]. split; [reflexivity|].
  apply (pool_conservation heap_4MiB Release (2 ^ 19) 1 pool_2slots pool_2slots_used.1
           [Allocate; Allocate; Allocate; Deallocate (4096 + 2 ^ 19)]).
  - apply pool_2slots_constructed.
  - reflexivity.
Defined.

(** X17.  The pool grows only when it is full.  While fewer objects are
    live than the arenas have slots, [allocate] serves an available slot and
    leaves the number of arenas and the size of the pointer array as they
    are; when every slot is live it adds one arena and returns the first
    address of the new buffer. *)
Theorem pool_grows_only_when_full (heap : nat → option Z) (b : build) (S n : Z)
    (p0 p : t) (cs : list call) (live : list Z) (a : Z) (p' : t) (log : list diag) :
  pool_constructed heap S n p0 →
  pool_run heap b cs p0 [] = Reached p live →
  allocate heap p = Ok (a, p') log →
  (Z.of_nat (length live) < num_chunks_ p * (chunk_bytes S / S) →
     a ∈ pool_avail p ∧
     num_chunks_ p' = num_chunks_ p ∧ max_chunks_ p' = max_chunks_ p) ∧
  (Z.of_nat (length live) = num_chunks_ p * (chunk_bytes S / S) →
     heap (length (arenas p)) = Some a ∧ num_chunks_ p' = num_chunks_ p + 1).
Proof.
  intros Hcons Hrun Ha. pose proof Hcons as (_ & _ & Hheap & _).
  destruct (pool_constructed_conserves heap b S n p0 cs p live Hcons Hrun)
    as (Hinv & Ho & Hp).
  pose proof Hinv as [(Hc & _) _].
  pose proof (length_pool_slots heap p Hc) as Hlen. rewrite Ho in Hlen.
  apply Permutation_length in Hp. rewrite length_app in Hp.
  destruct (allocate_delta heap p live a p' log ltac:(by rewrite Ho) Hinv Ha)
    as [(Hperm & _ & Hnum & Hmax)|(Hnil & Hnum & Hm & _)].
  - pose proof (Permutation_length Hperm) as Hl. simpl in Hl.
    split; [|lia]. intros _. split; [|done]. rewrite Hperm. apply list_elem_of_here.
  - rewrite Hnil in Hp. simpl in Hp. split; [lia|done].
Qed.

Lemma pool_grows_only_when_full_witness :
  pool_constructed heap_4MiB (2 ^ 19) 1 pool_2slots ∧
  pool_run heap_4MiB Release [Allocate; Allocate] pool_2slots []
    = Reached pool_2slots_full.1 pool_2slots_full.2 ∧
  allocate heap_4MiB pool_2slots_full.1
    = Ok (4096 + 2 ^ 20, pool_2slots_grown) [] ∧
  (Z.of_nat (length pool_2slots_full.2)
     < num_chunks_ pool_2slots_full.1 * (chunk_bytes (2 ^ 19) / 2 ^ 19) →
     4096 + 2 ^ 20 ∈ pool_avail pool_2slots_full.1 ∧
     num_chunks_ pool_2slots_grown = num_chunks_ pool_2slots_full.1 ∧
     max_chunks_ pool_2slots_grown = max_chunks_ pool_2slots_full.1) ∧
  (Z.of_nat (length pool_2slots_full.2)
     = num_chunks_ pool_2slots_full.1 * (chunk_bytes (2 ^ 19) / 2 ^ 19) →
     heap_4MiB (length (arenas pool_2slots_full.1)) = Some (4096 + 2 ^ 20) ∧
     num_chunks_ pool_2slots_grown = num_chunks_ pool_2slots_full.1 + 1).
Proof.
  split; [apply pool_2slots_constructed|]. split; [reflexivity|].
  split; [reflexivity|].
  apply (pool_grows_only_when_full heap_4MiB Release (2 ^ 19) 1 pool_2slots
           pool_2slots_full.1 [Allocate; Allocate] pool_2slots_full.2
           (4096 + 2 ^ 20) pool_2slots_grown []).
  - apply pool_2slots_constructed.
  - reflexivity.
  - reflexivity.
Defined.

(** *** Deallocation inside one window of 2^32 bytes *)

Lemma pool_run_safe_inv heap S cs : ∀ p live p' live',
  heap_ok heap S → heap_window heap S →
  safe_inv heap p live ∧ obj_size_ p = S →
  pool_run heap Release cs p live = Reached p' live' →
  safe_inv heap p' live' ∧ obj_size_ p' = S.
Proof.
  intros p live p' live' Hheap Hwin.
  apply (run_invariant _ _ _ (λ p live, safe_inv heap p live ∧ obj_size_ p = S)).
  clear p live p' live'. intros cl p live p' live' [Hsafe Ho] Hstep.
  pose proof Hsafe as [Hinv Hown].
  destruct cl as [|a|]; simpl in Hstep.
  - pose proof (allocate_safe heap p live ltac:(by rewrite Ho) Hsafe) as Hs.
    destruct (allocate heap p) as [[a p1] log|] eqn:Ha; [|discriminate].
    injection Hstep as <- <-.
    destruct (allocate_inv heap p live a p1 log ltac:(by rewrite Ho) Hinv Ha)
      as (Hne & _ & Hinv' & Ho').
    destruct (Z.eqb_spec a 0); [done|]. split; [done|congruence].
  - destruct (decide (a ∈ live)) as [Hin|]; [|discriminate].
    pose proof (deallocate_safe heap p live a ltac:(by rewrite Ho) ltac:(by rewrite Ho)
                  Hsafe Hin) as Hs.
    destruct (deallocate Release a p) as [p1 log|] eqn:Hd; [|discriminate].
    injection Hstep as <- <-.
    destruct (deallocate_inv heap Release p live a p1 log Hinv Hin Hd) as [Hinv' Ho'].
    split; [done|congruence].
  - pose proof (reclaim_safe heap p live Hsafe) as Hs.
    destruct (reclaim p) as [p1 log|] eqn:Hr; [|discriminate].
    injection Hstep as <- <-.
    destruct (reclaim_inv heap p live p1 log ltac:(by rewrite Ho) Hinv Hr) as [Hinv' Ho'].
    split; [done|congruence].
Qed.

(** X20.  In a release build, when all buffers lie in one window of 2^32
    bytes, [deallocate] of a live address succeeds without a message and
    returns the slot to the arena whose buffer holds the address: the
    address becomes the top of that arena's freed stack and no other arena
    changes. *)
Theorem deallocate_returns_to_owner (heap : nat → option Z) (S n : Z) (p0 p : t)
    (cs : list call) (live : list Z) (a : Z) :
  pool_constructed heap S n p0 → heap_window heap S →
  pool_run heap Release cs p0 [] = Reached p live →
  num_chunks_ p < 2 ^ 32 → a ∈ live →
  ∃ j c c', arenas p !! j = Some c ∧
            cchunk.mem_ c ≤ a < cchunk.mem_ c + cchunk.pool_size_ c ∧
            cchunk.deallocate Release a c = Ok c' [] ∧
            cchunk.stack_addrs c' = cchunk.stack_addrs c ++ [a] ∧
            deallocate Release a p = Ok (set_chunk p j c') [].
Proof.
  intros Hcons Hwin Hrun Hnum Ha. pose proof Hcons as (_ & _ & Hheap & _).
  destruct (pool_run_safe_inv heap S cs p0 [] p live Hheap Hwin
              (pool_constructed_safe heap S n p0 Hcons) Hrun) as [Hsafe Ho].
  rewrite <- Ho in Hheap, Hwin.
  pose proof Hsafe as [[Hinv Hcur] Hown].
  pose proof Hinv as (Hc & _ & Hsub). pose proof (core_num heap p Hc) as Hn.
  assert (a ∈ pool_slots p) as Hslot by (apply Hsub, elem_of_app; by right).
  apply list_elem_of_bind in Hslot as (c & Hslot & Hin).
  apply list_elem_of_lookup in Hin as (j & Hj).
  pose proof (lookup_lt_Some _ _ _ Hj) as Hlt.
  pose proof (own_stack_room heap p live j c a Hsafe Hj Ha Hslot) as Hroom.
  pose proof (cchunk_facts.deallocate_release a c Hroom) as Hd.
  destruct (core_arenas heap p Hc j c Hj) as (Hwf & _).
  pose proof (inv_core_live_range heap p live a Hinv Ha) as Hr.
  assert (0 ≤ a < 2 ^ 64) as Hr' by lia.
  eexists j, c, _. split; [done|]. split; [by apply slot_in_buffer|].
  split; [exact Hd|].
  split; [exact (cchunk_facts.deallocate_stack_addrs _ _ _ _ _ Hwf Hr' Hd)|].
  unfold deallocate.
  set (num := Z.to_nat (Z.min (num_chunks_ p) (2 ^ 32))).
  assert (0 ≤ j < 0 + num)%nat as Hjn by (subst num; lia).
  rewrite (deallocate_scan_found heap Release a p num 0 j c Hc Hjn Hj).
  - rewrite Hd. done.
  - by apply (claims_own heap p j j c c a).
  - intros k ck Hk Hck Hcl.
    apply (claims_own heap p k j ck c a Hc Hheap Hwin Hck Hj Hslot) in Hcl. lia.
Qed.

Lemma deallocate_returns_to_owner_witness :
  pool_constructed heap_4MiB (2 ^ 19) 1 pool_2slots ∧ heap_window heap_4MiB (2 ^ 19) ∧
  pool_run heap_4MiB Release
    [Allocate; Allocate; Allocate; Deallocate (4096 + 2 ^ 19)] pool_2slots []
    = Reached pool_2slots_used.1 pool_2slots_used.2 ∧
  num_chunks_ pool_2slots_used.1 < 2 ^ 32 ∧ 4096 + 2 ^ 20 ∈ pool_2slots_used.2 ∧
  ∃ j c c', arenas pool_2slots_used.1 !! j = Some c ∧
            cchunk.mem_ c ≤ 4096 + 2 ^ 20 < cchunk.mem_ c + cchunk.pool_size_ c ∧
            cchunk.deallocate Release (4096 + 2 ^ 20) c = Ok c' [] ∧
            cchunk.stack_addrs c' = cchunk.stack_addrs c ++ [4096 + 2 ^ 20] ∧
            deallocate Release (4096 + 2 ^ 20) pool_2slots_used.1
              = Ok (set_chunk pool_2slots_used.1 j c') [].
Proof.
  assert (num_chunks_ pool_2slots_used.1 < 2 ^ 32) as Hnum by (vm_compute; reflexivity).
  assert (4096 + 2 ^ 20 ∈ pool_2slots_used.2) as Hin.
  { vm_compute. apply list_elem_of_here. }
  split; [apply pool_2slots_constructed|]. split; [apply heap_4MiB_window|].
  split; [reflexivity|]. split; [exact Hnum|]. split; [exact Hin|].
  apply (deallocate_returns_to_owner heap_4MiB (2 ^ 19) 1 pool_2slots pool_2slots_used.1
           [Allocate; Allocate; Allocate; Deallocate (4096 + 2 ^ 19)]
           pool_2slots_used.2 (4096 + 2 ^ 20)
           pool_2slots_constructed heap_4MiB_window eq_refl Hnum Hin).
Defined.

(** X23.  What the reversed assertion of [cchunk::deallocate] means for a
    pool: in a debug build, with all buffers in one window of 2^32 bytes,
    [deallocate] of a live address that is not the first address of its
    arena stops at [assert(mem_ >= addr)]. *)
Theorem debug_deallocate_aborts (heap : nat → option Z) (S n : Z) (p0 p : t)
    (cs : list call) (live : list Z) (a : Z) :
  pool_constructed heap S n p0 → heap_window heap S →
  pool_run heap Debug cs p0 [] = Reached p live →
  num_chunks_ p < 2 ^ 32 → a ∈ live →
  (∀ i c, arenas p !! i = Some c → cchunk.first_addr c ≠ a) →
  deallocate Debug a p = Err AssertionFailed.
Proof.
  intros Hcons Hwin Hrun Hnum Ha Hfirst. pose proof Hcons as (_ & _ & Hheap & _).
  destruct (pool_run_inv heap Debug S cs p0 [] p live Hheap
              (pool_constructed_inv heap S n p0 Hcons) Hrun) as [[Hinv _] Ho].
  rewrite <- Ho in Hheap, Hwin.
  pose proof Hinv as (Hc & _ & Hsub). pose proof (core_num heap p Hc) as Hn.
  assert (a ∈ pool_slots p) as Hslot by (apply Hsub, elem_of_app; by right).
  apply list_elem_of_bind in Hslot as (c & Hslot & Hin).
  apply list_elem_of_lookup in Hin as (j & Hj).
  pose proof (lookup_lt_Some _ _ _ Hj) as Hlt.
  destruct (core_arenas heap p Hc j c Hj) as (Hwf & _).
  pose proof (slot_in_buffer c a Hwf Hslot) as Hr.
  pose proof (Hfirst j c Hj) as Hne. unfold cchunk.first_addr in Hne.
  unfold deallocate.
  set (num := Z.to_nat (Z.min (num_chunks_ p) (2 ^ 32))).
  assert (0 ≤ j < 0 + num)%nat as Hjn by (subst num; lia).
  rewrite (deallocate_scan_found heap Debug a p num 0 j c Hc Hjn Hj).
  - by rewrite cchunk_facts.deallocate_debug_above_base by lia.
  - by apply (claims_own heap p j j c c a).
  - intros k ck Hk Hck Hcl.
    apply (claims_own heap p k j ck c a Hc Hheap Hwin Hck Hj Hslot) in Hcl. lia.
Qed.

Lemma debug_deallocate_aborts_witness :
  pool_constructed heap_4MiB (2 ^ 19) 1 pool_2slots ∧ heap_window heap_4MiB (2 ^ 19) ∧
  pool_run heap_4MiB Debug [Allocate; Allocate] pool_2slots []
    = Reached pool_2slots_full.1 pool_2slots_full.2 ∧
  num_chunks_ pool_2slots_full.1 < 2 ^ 32 ∧ 4096 + 2 ^ 19 ∈ pool_2slots_full.2 ∧
  (∀ i c, arenas pool_2slots_full.1 !! i = Some c →
          cchunk.first_addr c ≠ 4096 + 2 ^ 19) ∧
  deallocate Debug (4096 + 2 ^ 19) pool_2slots_full.1 = Err AssertionFailed.
Proof.
  assert (num_chunks_ pool_2slots_full.1 < 2 ^ 32) as Hnum by (vm_compute; reflexivity).
  assert (4096 + 2 ^ 19 ∈ pool_2slots_full.2) as Hin.
  { vm_compute. apply list_elem_of_here. }
  assert (∀ i c, arenas pool_2slots_full.1 !! i = Some c →
                 cchunk.first_addr c ≠ 4096 + 2 ^ 19) as Hfirst.
  { intros [|i] c Hi; [|discriminate]. injection Hi as <-. discriminate. }
  split; [apply pool_2slots_constructed|]. split; [apply heap_4MiB_window|].
  split; [reflexivity|]. split; [exact Hnum|]. split; [exact Hin|].
  split; [exact Hfirst|].
  exact (debug_deallocate_aborts heap_4MiB (2 ^ 19) 1 pool_2slots pool_2slots_full.1
           [Allocate; Allocate] pool_2slots_full.2 (4096 + 2 ^ 19)
           pool_2slots_constructed heap_4MiB_window eq_refl Hnum Hin Hfirst).
Defined.

(** *** The reports: [mem] and [print] *)

Lemma to_size_t_sum3 a b c :
  to_size_t (to_size_t (to_size_t a + to_size_t b) + c) = to_size_t (a + b + c).
Proof.
  rewrite (cchunk_facts.to_size_t_add_l (to_size_t a + to_size_t b) c).
  rewrite <- Z.add_assoc, (cchunk_facts.to_size_t_add_l a).
  rewrite Z.add_assoc, (Z.add_comm a), <- Z.add_assoc.
  rewrite (cchunk_facts.to_size_t_add_l b). f_equal. lia.
Qed.

Lemma arena_mem heap p i c :
  core heap p → arenas p !! i = Some c →
  cchunk.mem c
    = Ok (to_size_t (cchunk.sizeof_cchunk + chunk_bytes (obj_size_ p)
                     + 4 * (chunk_bytes (obj_size_ p) / obj_size_ p))) [].
Proof.
  intros Hc Hi. destruct (core_arenas heap p Hc i c Hi) as (Hwf & _ & Ho & Hps).
  pose proof (core_obj heap p Hc) as Hobj.
  unfold cchunk.mem. rewrite Ho, Hps.
  destruct (Z.eqb_spec (obj_size_ p) 0); [lia|].
  by rewrite Z.mul_1_l, !cchunk_facts.to_size_t_add_r, cchunk_facts.to_size_t_add_l.
Qed.

Lemma mem_scan_spec heap p n : ∀ i bytes,
  core heap p → (i + n ≤ length (arenas p))%nat →
  mem_scan n i p (to_size_t bytes)
    = Ok (to_size_t (bytes + Z.of_nat n *
                       (cchunk.sizeof_cchunk + chunk_bytes (obj_size_ p)
                        + 4 * (chunk_bytes (obj_size_ p) / obj_size_ p)))) [].
Proof.
  induction n as [|n IH]; intros i bytes Hc Hlen; simpl mem_scan.
  - do 2 f_equal. lia.
  - destruct (lookup_lt_is_Some_2 (arenas p) i ltac:(lia)) as [c Hi].
    rewrite (get_chunk_arena heap p i c Hc Hi). simpl.
    rewrite (arena_mem heap p i c Hc Hi). simpl.
    rewrite cchunk_facts.to_size_t_add_l, cchunk_facts.to_size_t_add_r.
    rewrite (IH (S i) _ Hc ltac:(lia)). do 2 f_equal. lia.
Qed.

(** X21.  [mem()] of a pool reports, modulo 2^64, the pool object, eight
    bytes for every element of the pointer array, and for every arena the
    arena object, its buffer and four bytes per slot.  The report depends
    only on the number of arenas and the size of the pointer array: it
    changes when the pool grows and at no other time. *)
Theorem pool_mem_report (heap : nat → option Z) (b : build) (S n : Z) (p0 p : t)
    (cs : list call) (live : list Z) :
  pool_constructed heap S n p0 →
  pool_run heap b cs p0 [] = Reached p live →
  num_chunks_ p < 2 ^ 32 →
  mem p = Ok (to_size_t (num_chunks_ p * (cchunk.sizeof_cchunk + chunk_bytes S
                                           + 4 * (chunk_bytes S / S))
                         + 8 * max_chunks_ p + sizeof_cpool)) [].
Proof.
  intros Hcons Hrun Hnum. pose proof Hcons as (_ & _ & Hheap & _).
  destruct (pool_run_inv heap b S cs p0 [] p live Hheap
              (pool_constructed_inv heap S n p0 Hcons) Hrun) as [[(Hc & _) _] Ho].
  pose proof (core_num heap p Hc) as Hn.
  unfold mem. change 0 with (to_size_t 0) at 1.
  rewrite (mem_scan_spec heap p _ 0 0 Hc) by lia. simpl.
  destruct (Z.leb_spec (2 ^ 32) (num_chunks_ p)); [lia|].
  rewrite Ho, Z.min_l, Z2Nat.id by lia.
  by rewrite Z.add_0_l, to_size_t_sum3.
Qed.

Lemma pool_mem_report_witness :
  pool_constructed heap_4MiB (2 ^ 19) 1 pool_2slots ∧
  pool_run heap_4MiB Release
    [Allocate; Allocate; Allocate; Deallocate (4096 + 2 ^ 19)] pool_2slots []
    = Reached pool_2slots_used.1 pool_2slots_used.2 ∧
  num_chunks_ pool_2slots_used.1 < 2 ^ 32 ∧
  mem pool_2slots_used.1
    = Ok (to_size_t (num_chunks_ pool_2slots_used.1
                       * (cchunk.sizeof_cchunk + chunk_bytes (2 ^ 19)
                          + 4 * (chunk_bytes (2 ^ 19) / 2 ^ 19))
                     + 8 * max_chunks_ pool_2slots_used.1 + sizeof_cpool)) [].
Proof.
  assert (num_chunks_ pool_2slots_used.1 < 2 ^ 32) as Hnum by (vm_compute; reflexivity).
  split; [apply pool_2slots_constructed|]. split; [reflexivity|].
  split; [exact Hnum|].
  exact (pool_mem_report heap_4MiB Release (2 ^ 19) 1 pool_2slots pool_2slots_used.1
           [Allocate; Allocate; Allocate; Deallocate (4096 + 2 ^ 19)]
           pool_2slots_used.2 pool_2slots_constructed eq_refl Hnum).
Defined.

Lemma print_scan_spec heap p n : ∀ i,
  core heap p → (i + n ≤ length (arenas p))%nat →
  print_scan n i p
    = Ok (take n (drop i (arenas p)) ≫= λ c, cchunk.print c ++ [cchunk.Endl]) [].
Proof.
  induction n as [|n IH]; intros i Hc Hlen; simpl print_scan; [done|].
  destruct (lookup_lt_is_Some_2 (arenas p) i ltac:(lia)) as [c Hi].
  rewrite (get_chunk_arena heap p i c Hc Hi). simpl.
  rewrite (IH (S i) Hc ltac:(lia)). simpl.
  rewrite (drop_S _ _ _ Hi).
  change (take (S n) (c :: drop (S i) (arenas p)))
    with (c :: take n (drop (S i) (arenas p))).
  by rewrite bind_cons.
Qed.

(** X22.  [print] of a pool writes one header line with the number of
    arenas, the size of the pointer array and the object size, and then one
    line for each arena, in the order of creation, with the arena's
    capacity in bytes, the object size and the number of freed slots that
    await reuse.  It does not fault and writes nothing else. *)
Theorem pool_print_lines (heap : nat → option Z) (b : build) (S n : Z) (p0 p : t)
    (cs : list call) (live : list Z) :
  pool_constructed heap S n p0 →
  pool_run heap b cs p0 [] = Reached p live →
  num_chunks_ p < 2 ^ 32 →
  print p
    = Ok ([cchunk.PoolHeader; cchunk.Number (Z.of_nat (length (arenas p)));
           cchunk.MaxChunksLabel; cchunk.Number (max_chunks_ p);
           cchunk.ObjSizeLabel; cchunk.Number S; cchunk.Endl]
          ++ (arenas p ≫= λ c,
                [cchunk.PoolSizeLabel; cchunk.Number (chunk_bytes S);
                 cchunk.ObjSizeLabel; cchunk.Number S;
                 cchunk.StackSizeLabel;
                 cchunk.Number (Z.of_nat (length (cchunk.stack_addrs c)));
                 cchunk.Endl])) [].
Proof.
  intros Hcons Hrun Hnum. pose proof Hcons as (_ & _ & Hheap & _).
  destruct (pool_run_inv heap b S cs p0 [] p live Hheap
              (pool_constructed_inv heap S n p0 Hcons) Hrun) as [[(Hc & _) _] Ho].
  pose proof (core_num heap p Hc) as Hn.
  assert (take (Z.to_nat (Z.min (num_chunks_ p) (2 ^ 32))) (drop 0 (arenas p))
            ≫= (λ c, cchunk.print c ++ [cchunk.Endl])
          = arenas p ≫= λ c,
              [cchunk.PoolSizeLabel; cchunk.Number (chunk_bytes S);
               cchunk.ObjSizeLabel; cchunk.Number S;
               cchunk.StackSizeLabel;
               cchunk.Number (Z.of_nat (length (cchunk.stack_addrs c)));
               cchunk.Endl]) as Hlines.
  { rewrite Z.min_l by lia. rewrite Hn, Nat2Z.id, drop_0, firstn_all.
    apply bind_ext_lookup. intros i c Hi.
    destruct (core_arenas heap p Hc i c Hi) as (Hwf & _ & Hco & Hps).
    unfold cchunk.print. rewrite Hco, Hps, Ho.
    rewrite (cchunk_facts.length_stack_addrs c Hwf).
    pose proof (cchunk.wf_stack c Hwf). by rewrite Z2Nat.id by lia. }
  unfold print. rewrite (print_scan_spec heap p _ 0 Hc) by lia.
  rewrite Hlines. unfold bind.
  destruct (Z.leb_spec (2 ^ 32) (num_chunks_ p)); [lia|].
  by rewrite Ho, Hn.
Qed.

Lemma pool_print_lines_witness :
  pool_constructed heap_4MiB (2 ^ 19) 1 pool_2slots ∧
  pool_run heap_4MiB Release
    [Allocate; Allocate; Allocate; Deallocate (4096 + 2 ^ 19)] pool_2slots []
    = Reached pool_2slots_used.1 pool_2slots_used.2 ∧
  num_chunks_ pool_2slots_used.1 < 2 ^ 32 ∧
  print pool_2slots_used.1
    = Ok ([cchunk.PoolHeader;
           cchunk.Number (Z.of_nat (length (arenas pool_2slots_used.1)));
           cchunk.MaxChunksLabel; cchunk.Number (max_chunks_ pool_2slots_used.1);
           cchunk.ObjSizeLabel; cchunk.Number (2 ^ 19); cchunk.Endl]
          ++ (arenas pool_2slots_used.1 ≫= λ c,
                [cchunk.PoolSizeLabel; cchunk.Number (chunk_bytes (2 ^ 19));
                 cchunk.ObjSizeLabel; cchunk.Number (2 ^ 19);
                 cchunk.StackSizeLabel;
                 cchunk.Number (Z.of_nat (length (cchunk.stack_addrs c)));
                 cchunk.Endl])) [].
Proof.
  assert (num_chunks_ pool_2slots_used.1 < 2 ^ 32) as Hnum by (vm_compute; reflexivity).
  split; [apply pool_2slots_constructed|]. split; [reflexivity|].
  split; [exact Hnum|].
  exact (pool_print_lines heap_4MiB Release (2 ^ 19) 1 pool_2slots pool_2slots_used.1
           [Allocate; Allocate; Allocate; Deallocate (4096 + 2 ^ 19)]
           pool_2slots_used.2 pool_2slots_constructed eq_refl Hnum).
Defined.

End cpool_facts.

Module helpers_facts.
Import helpers.

Lemma to_int_small z : 0 ≤ z < 2 ^ 31 → to_int z = z.
Proof.
  intros H. unfold to_int. rewrite Z.mod_small by lia.
  destruct (Z.ltb_spec z (2 ^ 31)); lia.
Qed.

Lemma index_to_xy_Ok id w x y log :
  index_to_xy id w = Ok (x, y) log →
  w ≠ 0 ∧ x = to_int (id mod w) ∧ y = to_int (id / w) ∧ log = [].
Proof.
  unfold index_to_xy. destruct (Z.eqb_spec w 0); [discriminate|].
  by intros [= <- <- <-].
Qed.

(** X1.  [index_to_xy] inverts the row-major numbering of a grid: on a map
    of width [w], the index [y * w + x] of the cell in column [x] of row [y]
    is decoded to exactly [(x, y)], as long as the width and the row number
    fit in an [int32_t]. *)
Theorem index_to_xy_row_major (x y w : Z) :
  0 ≤ x < w → w ≤ 2 ^ 31 → 0 ≤ y < 2 ^ 31 → uint32 (y * w + x) →
  index_to_xy (y * w + x) w = Ok (x, y) [].
Proof.
  intros Hx Hw Hy _. unfold index_to_xy.
  destruct (Z.eqb_spec w 0); [lia|].
  assert ((y * w + x) / w = y) as -> by (symmetry; apply (Z.div_unique_pos _ _ y x); lia).
  assert ((y * w + x) mod w = x) as -> by (symmetry; apply (Z.mod_unique_pos _ _ y x); lia).
  by rewrite !to_int_small by lia.
Qed.

Lemma index_to_xy_row_major_witness :
  0 ≤ 3 < 5 ∧ 5 ≤ 2 ^ 31 ∧ 0 ≤ 2 < 2 ^ 31 ∧ uint32 (2 * 5 + 3) ∧
  index_to_xy (2 * 5 + 3) 5 = Ok (3, 2) [].
Proof.
  assert (uint32 (2 * 5 + 3)) as Hu by (unfold uint32; lia).
  split; [lia|]. split; [lia|]. split; [lia|]. split; [exact Hu|].
  apply (index_to_xy_row_major 3 2 5); [lia|lia|lia|exact Hu].
Defined.

(** X2.  The coordinates [index_to_xy] stores recombine to the index: for an
    index below 2^31, or a map at least two and at most 2^31 cells wide,
    [x] is a column of the map, [y] is not negative and [y * mapwidth + x]
    is [grid_id]. *)
Theorem index_to_xy_recombines (grid_id mapwidth x y : Z) (log : list diag) :
  uint32 grid_id → uint32 mapwidth →
  grid_id < 2 ^ 31 ∨ 2 ≤ mapwidth ≤ 2 ^ 31 →
  index_to_xy grid_id mapwidth = Ok (x, y) log →
  0 ≤ x < mapwidth ∧ 0 ≤ y ∧ y * mapwidth + x = grid_id.
Proof.
  intros Hid Hw Hfit H. unfold uint32 in *.
  apply index_to_xy_Ok in H as (Hne & -> & -> & _).
  assert (0 < mapwidth) as Hpos by lia.
  pose proof (Z.mod_pos_bound grid_id mapwidth Hpos) as Hm.
  pose proof (Z.div_mod grid_id mapwidth Hne) as Hdm.
  assert (0 ≤ grid_id / mapwidth) as Hd0 by (apply Z.div_pos; lia).
  assert (grid_id / mapwidth < 2 ^ 31 ∧ grid_id mod mapwidth < 2 ^ 31) as [Hd Hx].
  { destruct Hfit as [Hsmall|Hwide].
    - split; [|nia].
      apply Z.le_lt_trans with grid_id; [|done]. apply Z.div_le_upper_bound; nia.
    - split; [|lia]. apply Z.div_lt_upper_bound; lia. }
  rewrite !to_int_small by lia. lia.
Qed.

Lemma index_to_xy_recombines_witness :
  uint32 4294967295 ∧ uint32 65536 ∧
  (4294967295 < 2 ^ 31 ∨ 2 ≤ 65536 ≤ 2 ^ 31) ∧
  index_to_xy 4294967295 65536 = Ok (65535, 65535) [] ∧
  0 ≤ 65535 < 65536 ∧ 0 ≤ 65535 ∧ 65535 * 65536 + 65535 = 4294967295.
Proof.
  assert (uint32 4294967295) as Hid by (unfold uint32; lia).
  assert (uint32 65536) as Hw by (unfold uint32; lia).
  assert (4294967295 < 2 ^ 31 ∨ 2 ≤ 65536 ≤ 2 ^ 31) as Hfit by lia.
  split; [exact Hid|]. split; [exact Hw|]. split; [exact Hfit|].
  split; [reflexivity|].
  apply (index_to_xy_recombines 4294967295 65536 65535 65535 [] Hid Hw Hfit).
  reflexivity.
Defined.

(** X3.  Where the conversion to [int32_t] changes the result: [y] is
    negative exactly when [grid_id / mapwidth] is 2^31 or more, which no map
    two or more cells wide allows; on a map one cell wide an index of 2^31 or
    more is decoded to the negative row [grid_id - 2^32]. *)
Theorem index_to_xy_negative_row (grid_id mapwidth x y : Z) (log : list diag) :
  uint32 grid_id → uint32 mapwidth →
  index_to_xy grid_id mapwidth = Ok (x, y) log →
  (y < 0 ↔ 2 ^ 31 ≤ grid_id / mapwidth) ∧
  (2 ≤ mapwidth → 0 ≤ y) ∧
  (mapwidth = 1 → 2 ^ 31 ≤ grid_id → x = 0 ∧ y = grid_id - 2 ^ 32).
Proof.
  intros Hid Hw H. unfold uint32 in *.
  apply index_to_xy_Ok in H as (Hne & -> & -> & _).
  assert (0 < mapwidth) as Hpos by lia.
  assert (0 ≤ grid_id / mapwidth) as Hd0 by (apply Z.div_pos; lia).
  assert (grid_id / mapwidth < 2 ^ 32) as Hd1 by (apply Z.div_lt_upper_bound; nia).
  assert (∀ z, 0 ≤ z < 2 ^ 32 → (to_int z < 0 ↔ 2 ^ 31 ≤ z) ∧
                                  (2 ^ 31 ≤ z → to_int z = z - 2 ^ 32)) as Hint.
  { intros z Hz. unfold to_int. rewrite Z.mod_small by lia.
    destruct (Z.ltb_spec z (2 ^ 31)); lia. }
  split; [apply Hint; lia|]. split.
  - intros H2. assert (grid_id / mapwidth < 2 ^ 31) by (apply Z.div_lt_upper_bound; lia).
    rewrite to_int_small; lia.
  - intros -> Hbig. rewrite Z.mod_1_r, Z.div_1_r. split; [reflexivity|].
    apply Hint; lia.
Qed.

Lemma index_to_xy_negative_row_witness :
  uint32 (2 ^ 31) ∧ uint32 1 ∧
  index_to_xy (2 ^ 31) 1 = Ok (0, - 2 ^ 31) [] ∧
  (- 2 ^ 31 < 0 ↔ 2 ^ 31 ≤ 2 ^ 31 / 1) ∧
  (2 ≤ 1 → 0 ≤ - 2 ^ 31) ∧
  (1 = 1 → 2 ^ 31 ≤ 2 ^ 31 → 0 = 0 ∧ - 2 ^ 31 = 2 ^ 31 - 2 ^ 32).
Proof.
  assert (uint32 (2 ^ 31)) as Hid by (unfold uint32; lia).
  assert (uint32 1) as Hw by (unfold uint32; lia).
  split; [exact Hid|]. split; [exact Hw|]. split; [reflexivity|].
  apply (index_to_xy_negative_row (2 ^ 31) 1 0 (- 2 ^ 31) [] Hid Hw).
  reflexivity.
Defined.

End helpers_facts.
